(** * Refractive camera model and relative-pose evaluation harness

    A shallow embedding of [src/colmap/scene/camera.cc] and of the two
    relative-pose evaluation programs, with the properties their
    specification states.

    Conventions.
    - [double] values are elements of a type [F] carrying the operations of
      the interface [Scalar]: nothing is assumed about rounding, NaN or
      infinities unless a statement says so.  Three instances are given: the
      real numbers (exact arithmetic, used for the algebraic statements), the
      rationals extended with NaN (executable, used to run the code on
      concrete inputs) and binary64 (the arithmetic of the machine, used to
      run the code where rounding matters).
    - [size_t] values are integers in [0, 2^64).
    - [std::vector] is [list]; indexing outside the vector, a failed [CHECK]
      and [LOG(FATAL)] are all the result [None].
    - The process-wide pseudo random generator is an explicit state that every
      draw threads through. *)

From Stdlib Require Import Reals Lra Lia ZArith QArith Qabs Qround String Ascii.
From Stdlib Require Import SpecFloat.
From stdpp Require Import base list.

Local Open Scope Z_scope.

(** ** Scalars *)

Class Scalar (F : Type) : Type := {
  of_Q : Q -> F;               (* a decimal literal *)
  of_Z : Z -> F;               (* static_cast<double>(size_t) *)
  to_Z : F -> Z;               (* static_cast<size_t>(double) *)
  fadd : F -> F -> F;
  fsub : F -> F -> F;
  fmul : F -> F -> F;
  fdiv : F -> F -> F;
  fneg : F -> F;
  fabs : F -> F;               (* std::abs *)
  fsqrt : F -> F;              (* std::sqrt *)
  fround : F -> F;             (* std::round *)
  facos : F -> F;              (* acos *)
  fatan2 : F -> F -> F;        (* atan2 y x *)
  flt : F -> F -> bool;        (* a < b *)
  feqb : F -> F -> bool;       (* a == b *)
  fisnan : F -> bool           (* std::isnan *)
}.

Declare Scope scalar_scope.
Delimit Scope scalar_scope with sc.
Infix "+" := fadd : scalar_scope.
Infix "-" := fsub : scalar_scope.
Infix "*" := fmul : scalar_scope.
Infix "/" := fdiv : scalar_scope.
Notation "- x" := (fneg x) : scalar_scope.
Infix "<?" := flt : scalar_scope.
Notation "x >? y" := (flt y x) : scalar_scope.
Notation "x !=? y" := (negb (feqb x y)) (at level 70) : scalar_scope.

(** [size_t] arithmetic wraps at 2^64. *)
Definition size_t_max : Z := 2 ^ 64.
Definition size_t_wrap (z : Z) : Z := z mod size_t_max.

(** *** Exact arithmetic: the reals *)

Module RealScalar.

Definition Rltb (a b : R) : bool := if Rlt_dec a b then true else false.
Definition Reqb (a b : R) : bool := if Req_dec_T a b then true else false.

(** [std::round]: to the nearest integer, halves away from zero. *)
Definition Rround (r : R) : R :=
  if Rle_dec 0 r then IZR (Int_part (r + / 2))
  else Ropp (IZR (Int_part (Ropp r + / 2))).

(** Conversion to an integer truncates towards zero. *)
Definition Rtrunc (r : R) : Z :=
  if Rle_dec 0 r then Int_part r else Z.opp (Int_part (Ropp r)).

(** [atan2 y x], by quadrant. *)
Definition Ratan2 (y x : R) : R :=
  if Rlt_dec 0 x then atan (y / x)
  else if Rlt_dec x 0 then
         (if Rle_dec 0 y then atan (y / x) + PI else atan (y / x) - PI)%R
  else if Rlt_dec 0 y then (PI / 2)%R
  else if Rlt_dec y 0 then (- PI / 2)%R
  else 0%R.

#[export] Instance R_Scalar : Scalar R := {|
  of_Q := Q2R;
  of_Z := IZR;
  to_Z := Rtrunc;
  fadd := Rplus;
  fsub := Rminus;
  fmul := Rmult;
  fdiv := Rdiv;
  fneg := Ropp;
  fabs := Rabs;
  fsqrt := sqrt;
  fround := Rround;
  facos := acos;
  fatan2 := Ratan2;
  flt := Rltb;
  feqb := Reqb;
  fisnan := fun _ => false
|}.

End RealScalar.

(** *** Executable arithmetic: rationals with NaN *)

Module RatScalar.

(** [None] is NaN: it absorbs every operation and fails every comparison. *)
Definition qd : Type := option Q.

Definition lift1 (f : Q -> Q) (a : qd) : qd :=
  match a with Some x => Some (Qred (f x)) | None => None end.

Definition lift2 (f : Q -> Q -> Q) (a b : qd) : qd :=
  match a, b with
  | Some x, Some y => Some (Qred (f x y))
  | _, _ => None
  end.

Definition qdiv (a b : qd) : qd :=
  match a, b with
  | Some x, Some y => if Qeq_bool y 0 then None else Some (Qred (x / y))
  | _, _ => None
  end.

(** Square roots are taken only where they are rational. *)
Definition qsqrt (a : qd) : qd :=
  match a with
  | Some x =>
      let n := Qnum (Qred x) in
      let d := Zpos (Qden (Qred x)) in
      if (0 <=? n) && (Z.sqrt n * Z.sqrt n =? n) && (Z.sqrt d * Z.sqrt d =? d)
      then Some (Qred (Qmake (Z.sqrt n) (Z.to_pos (Z.sqrt d))))
      else None
  | None => None
  end.

Definition qround_half_away (x : Q) : Z :=
  if Qle_bool 0 x then Qfloor (x + (1 # 2)) else Z.opp (Qfloor (Qopp x + (1 # 2))).

Definition qtrunc (a : qd) : Z :=
  match a with
  | Some x => if Qle_bool 0 x then Qfloor x else Z.opp (Qfloor (Qopp x))
  | None => 0
  end.

Definition qlt (a b : qd) : bool :=
  match a, b with
  | Some x, Some y => negb (Qle_bool y x)
  | _, _ => false
  end.

Definition qeqb (a b : qd) : bool :=
  match a, b with
  | Some x, Some y => Qeq_bool x y
  | _, _ => false
  end.

(** Only the values of [acos] and [atan2] that are rational are produced. *)
Definition qacos (a : qd) : qd :=
  match a with
  | Some x => if Qeq_bool x 1 then Some 0%Q else None
  | None => None
  end.

Definition qatan2 (y x : qd) : qd :=
  match y, x with
  | Some y', Some x' =>
      if Qeq_bool y' 0 && Qle_bool 0 x' then Some 0%Q else None
  | _, _ => None
  end.

#[export] Instance Q_Scalar : Scalar qd := {|
  of_Q := fun q => Some (Qred q);
  of_Z := fun z => Some (inject_Z z);
  to_Z := qtrunc;
  fadd := lift2 Qplus;
  fsub := lift2 Qminus;
  fmul := lift2 Qmult;
  fdiv := qdiv;
  fneg := lift1 Qopp;
  fabs := lift1 Qabs;
  fsqrt := qsqrt;
  fround := fun a => match a with
                     | Some x => Some (inject_Z (qround_half_away x))
                     | None => None
                     end;
  facos := qacos;
  fatan2 := qatan2;
  flt := qlt;
  feqb := qeqb;
  fisnan := fun a => match a with None => true | Some _ => false end
|}.

End RatScalar.

(** *** The arithmetic of the machine: binary64

    IEEE 754 double precision with rounding to nearest, ties to even, as the
    specification of the standard library defines it ([SpecFloat]): a double
    is a zero, an infinity, NaN or a signed mantissa with an exponent. *)

Module Binary64.

Definition double : Type := spec_float.
Definition prec : Z := 53.
Definition emax : Z := 1024.

(** [static_cast<double>] of an integer: the nearest double. *)
Definition b64_of_Z (z : Z) : double := binary_normalize prec emax z 0 false.

(** A decimal literal is the double nearest to it.  The quotient of two
    integers that are doubles themselves (below 2^53, as in every literal of
    the sources) is rounded once, hence is that double. *)
Definition b64_of_Q (q : Q) : double :=
  SFdiv prec emax (b64_of_Z (Qnum q)) (b64_of_Z (Zpos (Qden q))).

(** The exact value of a finite double, as a rational. *)
Definition to_Q (x : double) : Q :=
  match x with
  | S754_finite s m e =>
      let v := if (0 <=? e)%Z then inject_Z (Zpos m * 2 ^ e)
               else Zpos m # Z.to_pos (2 ^ (- e)) in
      if s then Qopp v else v
  | _ => 0%Q
  end.

(** Conversion to an integer truncates towards zero; the conversion of NaN
    or of an infinity is undefined. *)
Definition b64_trunc (x : double) : Z :=
  match x with
  | S754_finite s m e =>
      let a := if (0 <=? e)%Z then Zpos m * 2 ^ e else Zpos m / 2 ^ (- e) in
      if s then - a else a
  | _ => 0
  end.

(** [std::round]: to the nearest integer, halves away from zero. *)
Definition b64_round (x : double) : double :=
  match x with
  | S754_finite s m e =>
      if (0 <=? e)%Z then x
      else
        let d := 2 ^ (- e) in
        let a := Zpos m / d in
        let n := if (d <=? 2 * (Zpos m mod d))%Z then a + 1 else a in
        binary_normalize prec emax (if s then - n else n) 0 s
  | _ => x
  end.

Definition b64_isnan (x : double) : bool :=
  match x with S754_nan => true | _ => false end.

(** The doubles that are finite and not negative. *)
Definition finite_nonneg (x : double) : bool :=
  match x with
  | S754_zero _ | S754_finite false _ _ => true
  | _ => false
  end.

(** [acos] and [atan2] come from the mathematical library of the platform,
    which is not among the sources: they are parameters of the instance. *)
Section Libm.
Variable libm_acos : double -> double.
Variable libm_atan2 : double -> double -> double.

Definition B64_Scalar : Scalar double := {|
  of_Q := b64_of_Q;
  of_Z := b64_of_Z;
  to_Z := b64_trunc;
  fadd := SFadd prec emax;
  fsub := SFsub prec emax;
  fmul := SFmul prec emax;
  fdiv := SFdiv prec emax;
  fneg := SFopp;
  fabs := SFabs;
  fsqrt := SFsqrt prec emax;
  fround := b64_round;
  facos := libm_acos;
  fatan2 := libm_atan2;
  flt := SFltb;
  feqb := SFeqb;
  fisnan := b64_isnan
|}.

End Libm.

(** What the C standard (Annex F) fixes of [acos]: NaN outside [-1, 1],
    and +0 at 1. *)
Definition acos_as_standard (libm_acos : double -> double) : Prop :=
  (forall x, SFltb (b64_of_Z 1) x = true -> libm_acos x = S754_nan) /\
  (forall x, SFltb x (b64_of_Z (-1)) = true -> libm_acos x = S754_nan) /\
  libm_acos (b64_of_Z 1) = S754_zero false.

(** Some function that meets these requirements: it shows that they can
    be met, and stands for no library (inside [-1, 1] it is the constant
    0). *)
Definition acos_at_the_limits (x : double) : double :=
  if SFltb (b64_of_Z 1) x || SFltb x (b64_of_Z (-1)) then S754_nan
  else S754_zero false.

End Binary64.

(** ** The linear-algebra library (Eigen)

    Fixed-size vectors and quaternions, with the operations the camera
    and the harness call.  Each definition follows the library routine of
    the same name. *)

Module Eigen.
Section Eigen.
Context {F : Type} {SF : Scalar F}.
Local Open Scope scalar_scope.

Record Vector2d : Type := Vec2 { v2x : F; v2y : F }.
Record Vector3d : Type := Vec3 { v3x : F; v3y : F; v3z : F }.
Record Quaterniond : Type := Quat { qw : F; qx : F; qy : F; qz : F }.

Definition lit (q : Q) : F := of_Q q.

Definition Zero3 : Vector3d := Vec3 (lit 0) (lit 0) (lit 0).
Definition UnitZ : Vector3d := Vec3 (lit 0) (lit 0) (lit 1).

Definition vadd (a b : Vector3d) : Vector3d :=
  Vec3 (v3x a + v3x b) (v3y a + v3y b) (v3z a + v3z b).
Definition vsub (a b : Vector3d) : Vector3d :=
  Vec3 (v3x a - v3x b) (v3y a - v3y b) (v3z a - v3z b).
Definition vneg (a : Vector3d) : Vector3d :=
  Vec3 (- v3x a) (- v3y a) (- v3z a).
Definition vscale (a : Vector3d) (s : F) : Vector3d :=
  Vec3 (v3x a * s) (v3y a * s) (v3z a * s).
Definition vdivs (a : Vector3d) (s : F) : Vector3d :=
  Vec3 (v3x a / s) (v3y a / s) (v3z a / s).
Definition dot (a b : Vector3d) : F :=
  v3x a * v3x b + v3y a * v3y b + v3z a * v3z b.
Definition cross (a b : Vector3d) : Vector3d :=
  Vec3 (v3y a * v3z b - v3z a * v3y b)
       (v3z a * v3x b - v3x a * v3z b)
       (v3x a * v3y b - v3y a * v3x b).
Definition squaredNorm (a : Vector3d) : F := dot a a.
Definition norm (a : Vector3d) : F := fsqrt (squaredNorm a).

(** [normalized] and [normalize] leave a vector of squared norm zero (or
    NaN) as it is. *)
Definition normalized (a : Vector3d) : Vector3d :=
  let z := squaredNorm a in
  if z >? lit 0 then vdivs a (fsqrt z) else a.

Definition hnormalized (a : Vector3d) : Vector2d :=
  Vec2 (v3x a / v3z a) (v3y a / v3z a).
Definition homogeneous (a : Vector2d) : Vector3d :=
  Vec3 (v2x a) (v2y a) (lit 1).

(** Quaternions, coefficients (w, x, y, z). *)
Definition qvec (q : Quaterniond) : Vector3d := Vec3 (qx q) (qy q) (qz q).
Definition qsquaredNorm (q : Quaterniond) : F :=
  qx q * qx q + qy q * qy q + qz q * qz q + qw q * qw q.

Definition qnormalized (q : Quaterniond) : Quaterniond :=
  let z := qsquaredNorm q in
  if z >? lit 0
  then let n := fsqrt z in Quat (qw q / n) (qx q / n) (qy q / n) (qz q / n)
  else q.

Definition qconjugate (q : Quaterniond) : Quaterniond :=
  Quat (qw q) (- qx q) (- qy q) (- qz q).

Definition qinverse (q : Quaterniond) : Quaterniond :=
  let n2 := qsquaredNorm q in
  if n2 >? lit 0
  then let c := qconjugate q in
       Quat (qw c / n2) (qx c / n2) (qy c / n2) (qz c / n2)
  else Quat (lit 0) (lit 0) (lit 0) (lit 0).

Definition qmul (a b : Quaterniond) : Quaterniond :=
  Quat (qw a * qw b - qx a * qx b - qy a * qy b - qz a * qz b)
       (qw a * qx b + qx a * qw b + qy a * qz b - qz a * qy b)
       (qw a * qy b + qy a * qw b + qz a * qx b - qx a * qz b)
       (qw a * qz b + qz a * qw b + qx a * qy b - qy a * qx b).

(** [q * v]: the rotation of a vector by a quaternion. *)
Definition qrot (q : Quaterniond) (v : Vector3d) : Vector3d :=
  let uv := cross (qvec q) v in
  let uv2 := vadd uv uv in
  vadd (vadd v (vscale uv2 (qw q))) (cross (qvec q) uv2).

(** [AngleAxisd(q).angle()]. *)
Definition AngleAxis_angle (q : Quaterniond) : F :=
  let n := norm (qvec q) in
  if n !=? lit 0 then lit 2 * fatan2 n (fabs (qw q)) else lit 0.

(** [Quaterniond::FromTwoVectors(a, b)].  For nearly opposite vectors the
    library takes the rotation axis from a singular value decomposition;
    [null_axis v0 v1] stands for that axis, the right singular vector of
    the matrix of rows [v0], [v1] for the singular value zero. *)
Definition dummy_precision : F := lit (1 # 1000000000000).

Definition FromTwoVectors (null_axis : Vector3d -> Vector3d -> Vector3d)
    (a b : Vector3d) : Quaterniond :=
  let v0 := normalized a in
  let v1 := normalized b in
  let c := dot v1 v0 in
  if c <? (- lit 1) + dummy_precision then
    let c := if c <? - lit 1 then - lit 1 else c in
    let axis := null_axis v0 v1 in
    let w2 := (lit 1 + c) * lit (1 # 2) in
    let s := fsqrt (lit 1 - w2) in
    Quat (fsqrt w2) (v3x axis * s) (v3y axis * s) (v3z axis * s)
  else
    let axis := cross v0 v1 in
    let s := fsqrt ((lit 1 + c) * lit 2) in
    let invs := lit 1 / s in
    Quat (s * lit (1 # 2)) (v3x axis * invs) (v3y axis * invs) (v3z axis * invs).

End Eigen.
Arguments Vector2d F : clear implicits.
Arguments Vector3d F : clear implicits.
Arguments Quaterniond F : clear implicits.
End Eigen.
Import Eigen.

(** ** Rigid transforms and rays ([geometry/rigid3.h], [geometry/ray3d.h]) *)

Section Geometry.
Context {F : Type} {SF : Scalar F}.
Local Open Scope scalar_scope.

(** Modelled from the spec: [Rigid3d], its [Inverse] and its two products
    are declared in geometry/rigid3.h, which is not among the sources; a
    rigid transform is a rotation followed by a translation. *)
Record Rigid3d : Type := MkRigid3d {
  rotation : Quaterniond F;
  translation : Vector3d F
}.

Definition Inverse (b_from_a : Rigid3d) : Rigid3d :=
  let r := qinverse (rotation b_from_a) in
  MkRigid3d r (qrot r (vneg (translation b_from_a))).

Definition rigid_apply (t : Rigid3d) (x : Vector3d F) : Vector3d F :=
  vadd (qrot (rotation t) x) (translation t).

Definition rigid_mul (c_from_b b_from_a : Rigid3d) : Rigid3d :=
  MkRigid3d
    (qnormalized (qmul (rotation c_from_b) (rotation b_from_a)))
    (vadd (translation c_from_b)
          (qrot (rotation c_from_b) (translation b_from_a))).

(** [t.translation.normalize()] *)
Definition normalize_translation (t : Rigid3d) : Rigid3d :=
  MkRigid3d (rotation t) (normalized (translation t)).

(** Modelled from the spec: [Ray3D] (geometry/ray3d.h, not among the
    sources) is an origin and a direction, and [At] evaluates the point at
    a scalar distance along the direction. *)
Record Ray3D : Type := MkRay3D { ori : Vector3d F; dir : Vector3d F }.

Definition At (r : Ray3D) (distance : F) : Vector3d F :=
  vadd (ori r) (vscale (dir r) distance).

End Geometry.
Arguments Rigid3d F : clear implicits.
Arguments Ray3D F : clear implicits.

(** ** The catalogue of camera models

    The intrinsic models ([sensor/models.h]), the refractive interface models
    ([sensor/models_refrac.h]) and a few utilities are not part of the
    sources.  The camera only dispatches into them; they are the fields of
    [Models]. *)

Class Models (F : Type) : Type := {
  kInvalidCameraId : Z;
  kInvalidCameraModelId : Z;
  kInvalidRefractiveCameraModelId : Z;
  (* intrinsic models *)
  ExistsCameraModelWithId : Z -> bool;
  ExistsCameraModelWithName : string -> bool;
  CameraModelNameToId : string -> Z;
  CameraModelNumParams : Z -> nat;
  CameraModelInitializeParams : Z -> F -> Z -> Z -> list F;
  CameraModelVerifyParams : Z -> list F -> bool;
  CameraModelFocalLengthIdxs : Z -> list nat;
  CameraModelPrincipalPointIdxs : Z -> list nat;
  CameraModelExtraParamsIdxs : Z -> list nat;
  CameraModelCamFromImg : Z -> list F -> Vector2d F -> Vector3d F;
  CameraModelImgFromCam : Z -> list F -> Vector3d F -> Vector2d F;
  (* refractive interface models *)
  ExistsCameraRefracModelWithId : Z -> bool;
  ExistsCameraRefracModelWithName : string -> bool;
  CameraRefracModelNameToId : string -> Z;
  CameraRefracModelNumParams : Z -> nat;
  CameraRefracModelVerifyParams : Z -> list F -> bool;
  CameraRefracModelRefractionAxis : Z -> list F -> Vector3d F;
  (* the bending of a ray by a selected interface, in both directions *)
  RefracCamFromImg : Z -> Z -> list F -> list F -> Vector2d F -> Ray3D F;
  RefracImgFromCam : Z -> Z -> list F -> list F -> Vector3d F -> Vector2d F;
  (* utilities *)
  CSVToVector : string -> list F;
  IntersectLinesWithTolerance :
    Vector3d F -> Vector3d F -> Vector3d F -> Vector3d F -> Vector3d F;
  svd_null_axis : Vector3d F -> Vector3d F -> Vector3d F
}.

(** ** The camera ([scene/camera.cc]) *)

Section Camera.
Context {F : Type} {SF : Scalar F} {MF : Models F}.
Local Open Scope scalar_scope.

Record Camera : Type := MkCamera {
  camera_id : Z;
  model_id : Z;
  width : Z;
  height : Z;
  params : list F;
  prior_focal_length : bool;
  refrac_model_id : Z;
  refrac_params : list F
}.

(** [Camera::Camera()] *)
Definition Camera_new : Camera :=
  MkCamera kInvalidCameraId kInvalidCameraModelId 0 0 [] false
           kInvalidRefractiveCameraModelId [].

Definition with_model_id (c : Camera) (m : Z) : Camera :=
  MkCamera (camera_id c) m (width c) (height c) (params c)
           (prior_focal_length c) (refrac_model_id c) (refrac_params c).
Definition with_params (c : Camera) (p : list F) : Camera :=
  MkCamera (camera_id c) (model_id c) (width c) (height c) p
           (prior_focal_length c) (refrac_model_id c) (refrac_params c).
Definition with_refrac_model_id (c : Camera) (m : Z) : Camera :=
  MkCamera (camera_id c) (model_id c) (width c) (height c) (params c)
           (prior_focal_length c) m (refrac_params c).
Definition with_refrac_params (c : Camera) (p : list F) : Camera :=
  MkCamera (camera_id c) (model_id c) (width c) (height c) (params c)
           (prior_focal_length c) (refrac_model_id c) p.

(** [SetWidth] and [SetHeight] are the plain setters of camera.h. *)
Definition SetWidth (c : Camera) (w : Z) : Camera :=
  MkCamera (camera_id c) (model_id c) w (height c) (params c)
           (prior_focal_length c) (refrac_model_id c) (refrac_params c).
Definition SetHeight (c : Camera) (h : Z) : Camera :=
  MkCamera (camera_id c) (model_id c) (width c) h (params c)
           (prior_focal_length c) (refrac_model_id c) (refrac_params c).

(** [CHECK(b)]: the process aborts when [b] is false. *)
Definition CHECK (b : bool) : option unit := if b then Some () else None.

(** [v.resize(n, 0)]: truncate, or pad with zeros. *)
Definition resize (n : nat) (v : list F) : list F :=
  take n v ++ replicate (n - length v) (lit 0).

(** [v[i]] and [v[i] = x]; outside the vector the behaviour is undefined. *)
Definition vget (v : list F) (i : nat) : option F := v !! i.
Definition vset (v : list F) (i : nat) (x : F) : option (list F) :=
  if decide (i < length v)%nat then Some (<[i := x]> v) else None.

Definition SetModelId (c : Camera) (id : Z) : option Camera :=
  _ ← CHECK (ExistsCameraModelWithId id);
  let c := with_model_id c id in
  Some (with_params c (resize (CameraModelNumParams (model_id c)) (params c))).

Definition SetModelIdFromName (c : Camera) (model_name : string)
    : option Camera :=
  _ ← CHECK (ExistsCameraModelWithName model_name);
  let c := with_model_id c (CameraModelNameToId model_name) in
  Some (with_params c (resize (CameraModelNumParams (model_id c)) (params c))).

Definition SetRefracModelId (c : Camera) (id : Z) : option Camera :=
  _ ← CHECK (ExistsCameraRefracModelWithId id);
  let c := with_refrac_model_id c id in
  Some (with_refrac_params c
          (resize (CameraRefracModelNumParams (refrac_model_id c))
                  (refrac_params c))).

Definition SetRefracModelIdFromName (c : Camera) (refrac_model_name : string)
    : option Camera :=
  _ ← CHECK (ExistsCameraRefracModelWithName refrac_model_name);
  let c := with_refrac_model_id c (CameraRefracModelNameToId refrac_model_name) in
  Some (with_refrac_params c
          (resize (CameraRefracModelNumParams (refrac_model_id c))
                  (refrac_params c))).

Definition FocalLengthIdxs (c : Camera) : list nat :=
  CameraModelFocalLengthIdxs (model_id c).
Definition PrincipalPointIdxs (c : Camera) : list nat :=
  CameraModelPrincipalPointIdxs (model_id c).
Definition ExtraParamsIdxs (c : Camera) : list nat :=
  CameraModelExtraParamsIdxs (model_id c).

(** The loop [for idx : idxs] [focal_length += params_[idx]]. *)
Fixpoint sum_params (v : list F) (idxs : list nat) (acc : F) : option F :=
  match idxs with
  | [] => Some acc
  | idx :: rest => x ← vget v idx; sum_params v rest (acc + x)
  end.

Definition MeanFocalLength (c : Camera) : option F :=
  let focal_length_idxs := FocalLengthIdxs c in
  focal_length ← sum_params (params c) focal_length_idxs (lit 0);
  Some (focal_length / of_Z (Z.of_nat (length focal_length_idxs))).

Definition FocalLength (c : Camera) : option F :=
  match FocalLengthIdxs c with
  | [i0] => vget (params c) i0
  | _ => None
  end.
Definition FocalLengthX (c : Camera) : option F :=
  match FocalLengthIdxs c with
  | [i0; _] => vget (params c) i0
  | _ => None
  end.
Definition FocalLengthY (c : Camera) : option F :=
  match FocalLengthIdxs c with
  | [_; i1] => vget (params c) i1
  | _ => None
  end.

(** The loop [for idx : idxs] [params_[idx] = focal_length]. *)
Fixpoint set_params_at (v : list F) (idxs : list nat) (x : F)
    : option (list F) :=
  match idxs with
  | [] => Some v
  | idx :: rest => v' ← vset v idx x; set_params_at v' rest x
  end.

Definition SetFocalLength (c : Camera) (focal_length : F) : option Camera :=
  p ← set_params_at (params c) (FocalLengthIdxs c) focal_length;
  Some (with_params c p).
Definition SetFocalLengthX (c : Camera) (focal_length_x : F) : option Camera :=
  match FocalLengthIdxs c with
  | [i0; _] => p ← vset (params c) i0 focal_length_x; Some (with_params c p)
  | _ => None
  end.
Definition SetFocalLengthY (c : Camera) (focal_length_y : F) : option Camera :=
  match FocalLengthIdxs c with
  | [_; i1] => p ← vset (params c) i1 focal_length_y; Some (with_params c p)
  | _ => None
  end.

Definition PrincipalPointX (c : Camera) : option F :=
  match PrincipalPointIdxs c with
  | [i0; _] => vget (params c) i0
  | _ => None
  end.
Definition PrincipalPointY (c : Camera) : option F :=
  match PrincipalPointIdxs c with
  | [_; i1] => vget (params c) i1
  | _ => None
  end.
Definition SetPrincipalPointX (c : Camera) (ppx : F) : option Camera :=
  match PrincipalPointIdxs c with
  | [i0; _] => p ← vset (params c) i0 ppx; Some (with_params c p)
  | _ => None
  end.
Definition SetPrincipalPointY (c : Camera) (ppy : F) : option Camera :=
  match PrincipalPointIdxs c with
  | [_; i1] => p ← vset (params c) i1 ppy; Some (with_params c p)
  | _ => None
  end.

Definition VerifyParams (c : Camera) : bool :=
  CameraModelVerifyParams (model_id c) (params c).
Definition VerifyRefracParams (c : Camera) : bool :=
  CameraRefracModelVerifyParams (refrac_model_id c) (refrac_params c).

(** The assignments return the flag and the camera after the call. *)
Definition SetParamsFromString (c : Camera) (s : string) : bool * Camera :=
  let new_camera_params := CSVToVector s in
  if negb (CameraModelVerifyParams (model_id c) new_camera_params)
  then (false, c)
  else (true, with_params c new_camera_params).

Definition SetRefracParamsFromString (c : Camera) (s : string)
    : bool * Camera :=
  let new_refrac_params := CSVToVector s in
  if negb (CameraRefracModelVerifyParams (refrac_model_id c) new_refrac_params)
  then (false, c)
  else (true, with_refrac_params c new_refrac_params).

(** Modelled from the spec: [SetParams] and [SetRefracParams] are declared
    in scene/camera.h, which is not among the sources.  Assignment from a
    numeric vector "succeeds only if the vector length and value ranges
    satisfy the selected variant's validator; otherwise leaves state
    unchanged and signals failure". *)
Definition SetParams (c : Camera) (v : list F) : bool * Camera :=
  if CameraModelVerifyParams (model_id c) v
  then (true, with_params c v)
  else (false, c).

Definition SetRefracParams (c : Camera) (v : list F) : bool * Camera :=
  if CameraRefracModelVerifyParams (refrac_model_id c) v
  then (true, with_refrac_params c v)
  else (false, c).

Definition IsCameraRefractive (c : Camera) : bool :=
  negb (refrac_model_id c =? kInvalidRefractiveCameraModelId)%Z.

Definition InitializeWithId (c : Camera) (id : Z) (focal_length : F)
    (w h : Z) : option Camera :=
  _ ← CHECK (ExistsCameraModelWithId id);
  let c := with_model_id c id in
  let c := SetWidth c w in
  let c := SetHeight c h in
  Some (with_params c (CameraModelInitializeParams id focal_length w h)).

Definition InitializeWithName (c : Camera) (model_name : string)
    (focal_length : F) (w h : Z) : option Camera :=
  InitializeWithId c (CameraModelNameToId model_name) focal_length w h.

Definition CamFromImg (c : Camera) (image_point : Vector2d F) : Vector2d F :=
  hnormalized (CameraModelCamFromImg (model_id c) (params c) image_point).

Definition ImgFromCam (c : Camera) (cam_point : Vector2d F) : Vector2d F :=
  CameraModelImgFromCam (model_id c) (params c) (homogeneous cam_point).

(** Modelled from the spec: the two dispatchers of sensor/models_refrac.h
    are not among the sources.  [CameraRefracModelCamFromImg] "unprojects
    through the intrinsic model, then bends the resulting ray through the
    refraction model; if the refraction model has no selected variant, this
    degenerates to returning the plain unprojected ray (direction only,
    origin at the nominal center)"; [CameraRefracModelImgFromCam] "forward
    projects a 3D point through the refraction model then the intrinsic
    model". *)
Definition CameraRefracModelCamFromImg (model refrac_model : Z)
    (cam_params refrac_parameters : list F) (image_point : Vector2d F)
    : Ray3D F :=
  if (refrac_model =? kInvalidRefractiveCameraModelId)%Z
  then MkRay3D Zero3 (CameraModelCamFromImg model cam_params image_point)
  else RefracCamFromImg model refrac_model cam_params refrac_parameters
                        image_point.

Definition CameraRefracModelImgFromCam (model refrac_model : Z)
    (cam_params refrac_parameters : list F) (cam_point : Vector3d F)
    : Vector2d F :=
  if (refrac_model =? kInvalidRefractiveCameraModelId)%Z
  then CameraModelImgFromCam model cam_params cam_point
  else RefracImgFromCam model refrac_model cam_params refrac_parameters
                        cam_point.

Definition CamFromImgRefrac (c : Camera) (image_point : Vector2d F)
    : Ray3D F :=
  CameraRefracModelCamFromImg (model_id c) (refrac_model_id c) (params c)
                              (refrac_params c) image_point.

Definition ImgFromCamRefrac (c : Camera) (cam_point : Vector3d F)
    : Vector2d F :=
  CameraRefracModelImgFromCam (model_id c) (refrac_model_id c) (params c)
                              (refrac_params c) cam_point.

(** The part the two overloads of [Rescale] share: the principal point
    first, then the focal length or lengths. *)
Definition rescale_params (c : Camera) (scale_x scale_y : F) : option Camera :=
  ppx ← PrincipalPointX c;
  c ← SetPrincipalPointX c (scale_x * ppx);
  ppy ← PrincipalPointY c;
  c ← SetPrincipalPointY c (scale_y * ppy);
  match length (FocalLengthIdxs c) with
  | 1%nat =>
      f ← FocalLength c;
      SetFocalLength c ((scale_x + scale_y) / lit 2 * f)
  | 2%nat =>
      fx ← FocalLengthX c;
      c ← SetFocalLengthX c (scale_x * fx);
      fy ← FocalLengthY c;
      SetFocalLengthY c (scale_y * fy)
  | _ => None
  end.

(** [Rescale(const double scale)] *)
Definition Rescale (c : Camera) (scale : F) : option Camera :=
  _ ← CHECK (scale >? lit 0);
  let scale_x := fround (scale * of_Z (width c)) / of_Z (width c) in
  let scale_y := fround (scale * of_Z (height c)) / of_Z (height c) in
  let c' := SetHeight (SetWidth c (to_Z (fround (scale * of_Z (width c)))))
                      (to_Z (fround (scale * of_Z (height c)))) in
  rescale_params c' scale_x scale_y.

(** [Rescale(const size_t width, const size_t height)] *)
Definition RescaleTo (c : Camera) (new_width new_height : Z) : option Camera :=
  let scale_x := of_Z new_width / of_Z (width c) in
  let scale_y := of_Z new_height / of_Z (height c) in
  rescale_params (SetHeight (SetWidth c new_width) new_height) scale_x scale_y.

Definition RefractionAxis (c : Camera) : Vector3d F :=
  CameraRefracModelRefractionAxis (refrac_model_id c) (refrac_params c).

Definition VirtualFromRealRotation (c : Camera) : Quaterniond F :=
  qnormalized (FromTwoVectors svd_null_axis (RefractionAxis c) UnitZ).

Definition VirtualCameraCenter (c : Camera) (ray_refrac : Ray3D F)
    : Vector3d F :=
  IntersectLinesWithTolerance Zero3 (RefractionAxis c) (ori ray_refrac)
                              (vneg (dir ray_refrac)).

Definition VirtualCamera (c : Camera) (image_point cam_point : Vector2d F)
    : option Camera :=
  virtual_camera ← SetModelIdFromName Camera_new "SIMPLE_PINHOLE";
  let virtual_camera := SetWidth virtual_camera (width c) in
  let virtual_camera := SetHeight virtual_camera (height c) in
  f ← match FocalLengthIdxs c with
      | [i0] => vget (params c) i0
      | [i0; i1] =>
          a ← vget (params c) i0;
          b ← vget (params c) i1;
          Some ((a + b) / lit 2)
      | _ => None
      end;
  let cx := v2x image_point - f * v2x cam_point in
  let cy := v2y image_point - f * v2y cam_point in
  Some (snd (SetParams virtual_camera [f; cx; cy])).

Definition ComputeVirtual (c : Camera) (point2D : Vector2d F)
    : option (Camera * Rigid3d F) :=
  let virtual_from_real_rotation := VirtualFromRealRotation c in
  let ray_refrac := CamFromImgRefrac c point2D in
  let virtual_cam_center := VirtualCameraCenter c ray_refrac in
  let virtual_from_real :=
    MkRigid3d virtual_from_real_rotation
              (qrot virtual_from_real_rotation (vneg virtual_cam_center)) in
  virtual_camera ←
    VirtualCamera c point2D
      (hnormalized (qrot virtual_from_real_rotation (dir ray_refrac)));
  Some (virtual_camera, virtual_from_real).

(** The two output vectors are passed by reference; the function returns
    them as they are after the call. *)
Fixpoint ComputeVirtuals (c : Camera) (points2D : list (Vector2d F))
    (virtual_cameras : list Camera) (virtual_from_reals : list (Rigid3d F))
    : option (list Camera * list (Rigid3d F)) :=
  match points2D with
  | [] => Some (virtual_cameras, virtual_from_reals)
  | point :: rest =>
      r ← ComputeVirtual c point;
      ComputeVirtuals c rest (virtual_cameras ++ [r.1])
                      (virtual_from_reals ++ [r.2])
  end.

End Camera.
Arguments Camera F : clear implicits.

(** ** Sequences of calls of the public mutating operations *)

Section CameraOps.
Context {F : Type} {SF : Scalar F} {MF : Models F}.

(** The four parameter assignments. *)
Inductive Assignment : Type :=
| ParamsFromString (s : string)
| ParamsFromVector (v : list F)
| RefracParamsFromString (s : string)
| RefracParamsFromVector (v : list F).

Definition assign (c : Camera F) (a : Assignment) : bool * Camera F :=
  match a with
  | ParamsFromString s => SetParamsFromString c s
  | ParamsFromVector v => SetParams c v
  | RefracParamsFromString s => SetRefracParamsFromString c s
  | RefracParamsFromVector v => SetRefracParams c v
  end.

(** The verdict of the selected variant's validator on what is assigned. *)
Definition validates (c : Camera F) (a : Assignment) : bool :=
  match a with
  | ParamsFromString s => CameraModelVerifyParams (model_id c) (CSVToVector s)
  | ParamsFromVector v => CameraModelVerifyParams (model_id c) v
  | RefracParamsFromString s =>
      CameraRefracModelVerifyParams (refrac_model_id c) (CSVToVector s)
  | RefracParamsFromVector v =>
      CameraRefracModelVerifyParams (refrac_model_id c) v
  end.

(** The camera an accepted assignment leaves. *)
Definition assigned (c : Camera F) (a : Assignment) : Camera F :=
  match a with
  | ParamsFromString s => with_params c (CSVToVector s)
  | ParamsFromVector v => with_params c v
  | RefracParamsFromString s => with_refrac_params c (CSVToVector s)
  | RefracParamsFromVector v => with_refrac_params c v
  end.

Inductive Op : Type :=
| OpSetModelId (id : Z)
| OpSetModelIdFromName (name : string)
| OpSetRefracModelId (id : Z)
| OpSetRefracModelIdFromName (name : string)
| OpAssign (a : Assignment)
| OpRescale (scale : F)
| OpRescaleTo (new_width new_height : Z)
| OpInitializeWithId (id : Z) (focal_length : F) (w h : Z)
| OpInitializeWithName (name : string) (focal_length : F) (w h : Z).

(** One call; [None] when it aborts the process. *)
Definition apply_op (c : Camera F) (o : Op) : option (Camera F) :=
  match o with
  | OpSetModelId id => SetModelId c id
  | OpSetModelIdFromName name => SetModelIdFromName c name
  | OpSetRefracModelId id => SetRefracModelId c id
  | OpSetRefracModelIdFromName name => SetRefracModelIdFromName c name
  | OpAssign a => Some (assign c a).2
  | OpRescale scale => Rescale c scale
  | OpRescaleTo w h => RescaleTo c w h
  | OpInitializeWithId id f w h => InitializeWithId c id f w h
  | OpInitializeWithName name f w h => InitializeWithName c name f w h
  end.

Fixpoint run_ops (c : Camera F) (ops : list Op) : option (Camera F) :=
  match ops with
  | [] => Some c
  | o :: rest => c' ← apply_op c o; run_ops c' rest
  end.

(** The variant a call selects, if it is a model selection. *)
Definition selects_intrinsic (o : Op) : option Z :=
  match o with
  | OpSetModelId id => Some id
  | OpSetModelIdFromName name => Some (CameraModelNameToId name)
  | _ => None
  end.
Definition selects_refrac (o : Op) : option Z :=
  match o with
  | OpSetRefracModelId id => Some id
  | OpSetRefracModelIdFromName name => Some (CameraRefracModelNameToId name)
  | _ => None
  end.

(** The variant a call initialises the camera with, if it is an
    initialisation. *)
Definition initializes (o : Op) : option Z :=
  match o with
  | OpInitializeWithId id _ _ _ => Some id
  | OpInitializeWithName name _ _ _ => Some (CameraModelNameToId name)
  | _ => None
  end.

(** The length invariant of the two parameter vectors. *)
Definition params_sized (c : Camera F) : Prop :=
  length (params c) = CameraModelNumParams (model_id c).
Definition refrac_params_sized (c : Camera F) : Prop :=
  length (refrac_params c) = CameraRefracModelNumParams (refrac_model_id c).

(** What the specification says of the validators: they accept only
    vectors of the canonical length of the variant. *)
Definition validators_check_length : Prop :=
  (forall id v, CameraModelVerifyParams id v = true ->
                length v = CameraModelNumParams id) /\
  (forall id v, CameraRefracModelVerifyParams id v = true ->
                length v = CameraRefracModelNumParams id).

(** Modelled from the spec: [CameraModelInitializeParams] is declared in
    sensor/models.h, which is not among the sources; the vector it returns
    has the canonical parameter count of the variant. *)
Definition initializers_sized : Prop :=
  forall id focal_length w h,
    length (CameraModelInitializeParams id focal_length w h) =
    CameraModelNumParams id.

(** What a rescaling may change: nothing but the size and, in the
    intrinsic parameter vector, the entries of the principal point and of
    the focal lengths. *)
Definition rescale_frame (c c' : Camera F) : Prop :=
  camera_id c' = camera_id c /\
  model_id c' = model_id c /\
  prior_focal_length c' = prior_focal_length c /\
  refrac_model_id c' = refrac_model_id c /\
  refrac_params c' = refrac_params c /\
  length (params c') = length (params c) /\
  forall i, i ∉ FocalLengthIdxs c -> i ∉ PrincipalPointIdxs c ->
            params c' !! i = params c !! i.

(** The focal length or lengths of [c'] are those of [c] scaled: by the
    mean of the two factors when there is one, by one factor each when
    there are two. *)
Definition focal_scaled (c c' : Camera F) (scale_x scale_y : F) : Prop :=
  match FocalLengthIdxs c with
  | [_] =>
      exists f, FocalLength c = Some f /\
        FocalLength c' = Some (fmul (fdiv (fadd scale_x scale_y) (lit 2)) f)
  | [_; _] =>
      exists fx fy, FocalLengthX c = Some fx /\ FocalLengthY c = Some fy /\
        FocalLengthX c' = Some (fmul scale_x fx) /\
        FocalLengthY c' = Some (fmul scale_y fy)
  | _ => False
  end.

Definition principal_point_scaled (c c' : Camera F) (scale_x scale_y : F)
    : Prop :=
  exists ppx ppy, PrincipalPointX c = Some ppx /\ PrincipalPointY c = Some ppy /\
    PrincipalPointX c' = Some (fmul scale_x ppx) /\
    PrincipalPointY c' = Some (fmul scale_y ppy).

Definition rescaled (c c' : Camera F) (scale_x scale_y : F) : Prop :=
  rescale_frame c c' /\
  (NoDup (FocalLengthIdxs c ++ PrincipalPointIdxs c) ->
   principal_point_scaled c c' scale_x scale_y /\
   focal_scaled c c' scale_x scale_y).

End CameraOps.
Arguments Assignment F : clear implicits.
Arguments Op F : clear implicits.

(** ** The pseudo random generator ([math/random.h])

    One process-wide generator; a draw reads and advances its state. *)

Class PRNG (F : Type) : Type := {
  rng : Type;
  RandomUniformReal : F -> F -> rng -> F * rng;
  RandomGaussian : F -> F -> rng -> F * rng
}.

Definition Rand {F : Type} {PF : PRNG F} (A : Type) : Type := rng -> A * rng.

Definition rret {F : Type} {PF : PRNG F} {A : Type} (a : A) : Rand A :=
  fun g => (a, g).
Definition rbind {F : Type} {PF : PRNG F} {A B : Type}
    (m : Rand A) (k : A -> Rand B) : Rand B :=
  fun g => let r := m g in k r.1 r.2.

Notation "'draw' x <- m ; k" := (rbind m (fun x => k))
  (at level 10, x name, m at level 100, k at level 200).

(** How a call of the generation routine ends. *)
Inductive outcome (A : Type) : Type :=
| Returned (a : A)      (* the call returns *)
| Aborted               (* a CHECK fails *)
| OutOfFuel.            (* the loop is still running when the fuel is spent *)
Arguments Returned {A} a.
Arguments Aborted {A}.
Arguments OutOfFuel {A}.

(** ** The evaluation harness: generation of synthetic correspondences *)

Section Harness.
Context {F : Type} {SF : Scalar F} {MF : Models F} {PF : PRNG F}.
Local Open Scope scalar_scope.

Record PointsData : Type := MkPointsData {
  points2D1 : list (Vector2d F);
  points2D1_refrac : list (Vector2d F);
  points2D2 : list (Vector2d F);
  points2D2_refrac : list (Vector2d F);
  virtual_cameras1 : list (Camera F);
  virtual_cameras2 : list (Camera F);
  virtual_from_reals1 : list (Rigid3d F);
  virtual_from_reals2 : list (Rigid3d F);
  cam2_from_cam1_gt : Rigid3d F
}.

(** What one pass of the loop body draws before its two tests. *)
Record Candidate : Type := MkCandidate {
  cand_point2D1_refrac : Vector2d F;
  cand_point3D1 : Vector3d F;
  cand_point3D2 : Vector3d F;
  cand_point2D2_refrac : Vector2d F
}.

Definition SampleCandidate (camera : Camera F) (gt : Rigid3d F)
    : Rand Candidate :=
  draw x <- RandomUniformReal (lit (1 # 2)) (of_Z (width camera) - lit (1 # 2));
  draw y <- RandomUniformReal (lit (1 # 2)) (of_Z (height camera) - lit (1 # 2));
  let point2D1_refrac := Vec2 x y in
  let ray_refrac := CamFromImgRefrac camera point2D1_refrac in
  draw d <- RandomUniformReal (lit (1 # 2)) (lit 10);
  let point3D1 := At ray_refrac d in
  let point3D2 := rigid_apply gt point3D1 in
  rret (MkCandidate point2D1_refrac point3D1 point3D2
                    (ImgFromCamRefrac camera point3D2)).

(** The two [continue] tests of the loop body. *)
Definition is_nan_pixel (p : Vector2d F) : bool :=
  fisnan (v2x p) || fisnan (v2y p).

Definition out_of_image (camera : Camera F) (p : Vector2d F) : bool :=
  (v2x p <? lit 0) || (v2x p >? of_Z (width camera)) ||
  (v2y p <? lit 0) || (v2y p >? of_Z (height camera)).

Definition rejected (camera : Camera F) (c : Candidate) : bool :=
  is_nan_pixel (cand_point2D2_refrac c) ||
  out_of_image camera (cand_point2D2_refrac c).

(** The four pixels one accepted sample contributes. *)
Record Sample : Type := MkSample {
  s_point2D1 : Vector2d F;
  s_point2D2 : Vector2d F;
  s_point2D1_refrac : Vector2d F;
  s_point2D2_refrac : Vector2d F
}.

Definition project_candidate (camera : Camera F) (c : Candidate) : Sample :=
  MkSample (ImgFromCam camera (hnormalized (cand_point3D1 c)))
           (ImgFromCam camera (hnormalized (cand_point3D2 c)))
           (cand_point2D1_refrac c)
           (cand_point2D2_refrac c).

(** The eight [+= RandomGaussian(0.0, stddev)] statements, in the order of
    the source. *)
Definition AddGaussianNoise (stddev : F) (s : Sample) : Rand Sample :=
  draw n1x <- RandomGaussian (lit 0) stddev;
  draw n1y <- RandomGaussian (lit 0) stddev;
  draw r1x <- RandomGaussian (lit 0) stddev;
  draw r1y <- RandomGaussian (lit 0) stddev;
  draw n2x <- RandomGaussian (lit 0) stddev;
  draw n2y <- RandomGaussian (lit 0) stddev;
  draw r2x <- RandomGaussian (lit 0) stddev;
  draw r2y <- RandomGaussian (lit 0) stddev;
  rret (MkSample
          (Vec2 (v2x (s_point2D1 s) + n1x) (v2y (s_point2D1 s) + n1y))
          (Vec2 (v2x (s_point2D2 s) + n2x) (v2y (s_point2D2 s) + n2y))
          (Vec2 (v2x (s_point2D1_refrac s) + r1x)
                (v2y (s_point2D1_refrac s) + r1y))
          (Vec2 (v2x (s_point2D2_refrac s) + r2x)
                (v2y (s_point2D2_refrac s) + r2y))).

Definition outlier_stddev : F := lit 200.

(** The [if (cnt < num_inliers)] statement. *)
Definition perturb (noise_level : F) (num_inliers cnt : Z) (s : Sample)
    : Rand Sample :=
  if (cnt <? num_inliers)%Z then
    if noise_level >? lit 0 then AddGaussianNoise noise_level s else rret s
  else AddGaussianNoise outlier_stddev s.

(** The four [push_back] statements. *)
Definition push_sample (pd : PointsData) (s : Sample) : PointsData :=
  MkPointsData (points2D1 pd ++ [s_point2D1 s])
               (points2D1_refrac pd ++ [s_point2D1_refrac s])
               (points2D2 pd ++ [s_point2D2 s])
               (points2D2_refrac pd ++ [s_point2D2_refrac s])
               (virtual_cameras1 pd) (virtual_cameras2 pd)
               (virtual_from_reals1 pd) (virtual_from_reals2 pd)
               (cam2_from_cam1_gt pd).

(** [static_cast<size_t>(static_cast<double>(num_points) * inlier_ratio)] *)
Definition NumInliers (num_points : Z) (inlier_ratio : F) : Z :=
  to_Z (of_Z num_points * inlier_ratio).

(** The [while (true)] loop.  Each pass costs one unit of fuel; [None]
    means the loop is still running when the fuel is spent. *)
Fixpoint GenerateLoop (fuel : nat) (camera : Camera F) (num_points : Z)
    (gt : Rigid3d F) (noise_level : F) (num_inliers : Z)
    (cnt : Z) (pd : PointsData) : Rand (option PointsData) :=
  match fuel with
  | O => rret None
  | S fuel' =>
      if (cnt >=? num_points)%Z then rret (Some pd)
      else
        draw c <- SampleCandidate camera gt;
        if is_nan_pixel (cand_point2D2_refrac c) then
          GenerateLoop fuel' camera num_points gt noise_level num_inliers
                       cnt pd
        else if out_of_image camera (cand_point2D2_refrac c) then
          GenerateLoop fuel' camera num_points gt noise_level num_inliers
                       cnt pd
        else
          draw s <- perturb noise_level num_inliers cnt
                            (project_candidate camera c);
          GenerateLoop fuel' camera num_points gt noise_level num_inliers
                       (size_t_wrap (cnt + 1)) (push_sample pd s)
  end.

(** The statements before the loop: the four point vectors are cleared and
    the ground truth is stored; the vectors of virtual cameras and
    transforms are left as they are. *)
Definition reset_points (pd : PointsData) (gt : Rigid3d F) : PointsData :=
  MkPointsData [] [] [] []
               (virtual_cameras1 pd) (virtual_cameras2 pd)
               (virtual_from_reals1 pd) (virtual_from_reals2 pd) gt.

(** The two calls of [ComputeVirtuals] after the loop. *)
Definition compute_virtuals (camera : Camera F) (pd : PointsData)
    : outcome PointsData :=
  match ComputeVirtuals camera (points2D1_refrac pd)
                        (virtual_cameras1 pd) (virtual_from_reals1 pd) with
  | None => Aborted
  | Some v1 =>
      match ComputeVirtuals camera (points2D2_refrac pd)
                            (virtual_cameras2 pd) (virtual_from_reals2 pd) with
      | None => Aborted
      | Some v2 =>
          Returned (MkPointsData (points2D1 pd) (points2D1_refrac pd)
                                 (points2D2 pd) (points2D2_refrac pd)
                                 v1.1 v2.1 v1.2 v2.2
                                 (cam2_from_cam1_gt pd))
      end
  end.

Definition GenerateRandom2D2DPoints (fuel : nat) (camera : Camera F)
    (num_points : Z) (gt : Rigid3d F) (points_data : PointsData)
    (noise_level inlier_ratio : F) : Rand (outcome PointsData) :=
  let pd := reset_points points_data gt in
  let num_inliers := NumInliers num_points inlier_ratio in
  draw r <- GenerateLoop fuel camera num_points gt noise_level num_inliers
                         0 pd;
  match r with
  | None => rret OutOfFuel
  | Some pd' => rret (compute_virtuals camera pd')
  end.

(** *** The loop, read as a relation over its own tests

    The standard deviation of the noise the accepted sample of index [i]
    receives: the configured one for the first [num_inliers] samples (none
    when it is not positive), the fixed large one for the others. *)
Definition stddev_of (noise_level : F) (num_inliers i : Z) : option F :=
  if (i <? num_inliers)%Z then
    if noise_level >? lit 0 then Some noise_level else None
  else Some outlier_stddev.

Definition noised (stddev : option F) (s : Sample) : Rand Sample :=
  match stddev with
  | Some sd => AddGaussianNoise sd s
  | None => rret s
  end.

(** [collects camera num_points gt noise_level num_inliers cnt g l g']:
    starting with [cnt] accepted samples and the generator in state [g],
    rejection sampling accepts the samples [l], in this order, and leaves
    the generator in state [g'].  A candidate whose projection into view 2
    is NaN or outside the image is dropped and another one is drawn; an
    accepted candidate is perturbed according to its index. *)
Inductive collects (camera : Camera F) (num_points : Z) (gt : Rigid3d F)
    (noise_level : F) (num_inliers : Z)
    : Z -> rng -> list Sample -> rng -> Prop :=
| collects_done cnt g :
    (num_points <= cnt)%Z ->
    collects camera num_points gt noise_level num_inliers cnt g [] g
| collects_reject cnt g c g1 l g' :
    (cnt < num_points)%Z ->
    SampleCandidate camera gt g = (c, g1) ->
    rejected camera c = true ->
    collects camera num_points gt noise_level num_inliers cnt g1 l g' ->
    collects camera num_points gt noise_level num_inliers cnt g l g'
| collects_accept cnt g c g1 s g2 l g' :
    (cnt < num_points)%Z ->
    SampleCandidate camera gt g = (c, g1) ->
    rejected camera c = false ->
    noised (stddev_of noise_level num_inliers cnt)
           (project_candidate camera c) g1 = (s, g2) ->
    collects camera num_points gt noise_level num_inliers (cnt + 1) g2 l g' ->
    collects camera num_points gt noise_level num_inliers cnt g (s :: l) g'.

(** The first [n] candidates drawn from state [g] are all rejected. *)
Fixpoint rejects (n : nat) (camera : Camera F) (gt : Rigid3d F) (g : rng)
    : bool :=
  match n with
  | O => true
  | S n' =>
      let r := SampleCandidate camera gt g in
      rejected camera r.1 && rejects n' camera gt r.2
  end.

(** One of the first [k] candidates drawn from state [g] is accepted. *)
Fixpoint accepts_within (k : nat) (camera : Camera F) (gt : Rigid3d F)
    (g : rng) : bool :=
  match k with
  | O => false
  | S k' =>
      let r := SampleCandidate camera gt g in
      if rejected camera r.1 then accepts_within k' camera gt r.2 else true
  end.

(** Acceptable samples keep occurring: whatever the state of the
    generator, some candidate drawn from it is accepted. *)
Definition keeps_accepting (camera : Camera F) (gt : Rigid3d F) : Prop :=
  forall g, exists k, accepts_within k camera gt g = true.

(** The samples [l] appended to the four point vectors of [pd]. *)
Definition extends (pd pd' : PointsData) (l : list (Sample)) : Prop :=
  points2D1 pd' = points2D1 pd ++ map s_point2D1 l /\
  points2D2 pd' = points2D2 pd ++ map s_point2D2 l /\
  points2D1_refrac pd' = points2D1_refrac pd ++ map s_point2D1_refrac l /\
  points2D2_refrac pd' = points2D2_refrac pd ++ map s_point2D2_refrac l /\
  virtual_cameras1 pd' = virtual_cameras1 pd /\
  virtual_cameras2 pd' = virtual_cameras2 pd /\
  virtual_from_reals1 pd' = virtual_from_reals1 pd /\
  virtual_from_reals2 pd' = virtual_from_reals2 pd /\
  cam2_from_cam1_gt pd' = cam2_from_cam1_gt pd.

(** The state of the generator after [k] Gaussian draws of deviation
    [stddev]. *)
Definition after_draws (k : nat) (stddev : F) (g : rng) : rng :=
  Nat.iter k (fun g => (RandomGaussian (lit 0) stddev g).2) g.

(** The value of the draw number [k] (from 0). *)
Definition gaussian_draw (k : nat) (stddev : F) (g : rng) : F :=
  (RandomGaussian (lit 0) stddev (after_draws k stddev g)).1.

(** What a returning call of [GenerateRandom2D2DPoints] leaves in the four
    point vectors: the samples that rejection sampling accepts, [num_points]
    of them, in the order of acceptance; the sample of index [i] comes from
    an accepted candidate and carries the noise of its index. *)
Definition well_generated (camera : Camera F) (num_points : Z)
    (gt : Rigid3d F) (noise_level inlier_ratio : F)
    (g : rng) (pd' : PointsData) (g' : rng) : Prop :=
  let num_inliers := NumInliers num_points inlier_ratio in
  exists l : list Sample,
    collects camera num_points gt noise_level num_inliers 0 g l g' /\
    Z.of_nat (length l) = num_points /\
    points2D1 pd' = map s_point2D1 l /\
    points2D2 pd' = map s_point2D2 l /\
    points2D1_refrac pd' = map s_point2D1_refrac l /\
    points2D2_refrac pd' = map s_point2D2_refrac l /\
    cam2_from_cam1_gt pd' = gt /\
    forall (i : nat) s, l !! i = Some s ->
      exists g0 c g1,
        SampleCandidate camera gt g0 = (c, g1) /\
        rejected camera c = false /\
        s = (noised (stddev_of noise_level num_inliers (Z.of_nat i))
                    (project_candidate camera c) g1).1.

End Harness.
Arguments PointsData F : clear implicits.
Arguments Candidate F : clear implicits.
Arguments Sample F : clear implicits.

(** ** The generation of correspondences, as the specification words it

    Written from the specification, with the generator and the projections
    of the camera as the only primitives, to be compared with the loop of
    [GenerateRandom2D2DPoints]. *)

Section GenerationSpec.
Context {F : Type} {SF : Scalar F} {MF : Models F} {PF : PRNG F}.
Local Open Scope scalar_scope.

(** A candidate: a pixel of view 1 drawn uniformly in the image, half a
    pixel inside its border, a depth drawn uniformly in [0.5, 10], the point
    at this depth on the refracted ray of the pixel, the same point after
    the ground-truth motion, and its refractive projection into view 2. *)
Definition spec_candidate (camera : Camera F) (gt : Rigid3d F) (g : rng)
    : Candidate F * rng :=
  let ux := RandomUniformReal (lit (1 # 2))
                              (of_Z (width camera) - lit (1 # 2)) g in
  let uy := RandomUniformReal (lit (1 # 2))
                              (of_Z (height camera) - lit (1 # 2)) ux.2 in
  let ud := RandomUniformReal (lit (1 # 2)) (lit 10) uy.2 in
  let p := Vec2 ux.1 uy.1 in
  let X1 := At (CamFromImgRefrac camera p) ud.1 in
  let X2 := rigid_apply gt X1 in
  (MkCandidate p X1 X2 (ImgFromCamRefrac camera X2), ud.2).

(** A projection is unacceptable when a coordinate is NaN or when it lies
    outside the rectangle [0, width] x [0, height]. *)
Definition spec_unacceptable (camera : Camera F) (p : Vector2d F) : bool :=
  fisnan (v2x p) || fisnan (v2y p) ||
  (v2x p <? lit 0) || (of_Z (width camera) <? v2x p) ||
  (v2y p <? lit 0) || (of_Z (height camera) <? v2y p).

(** The four pixels of an accepted candidate, before noise. *)
Definition spec_sample (camera : Camera F) (c : Candidate F) : Sample F :=
  MkSample (ImgFromCam camera (hnormalized (cand_point3D1 c)))
           (ImgFromCam camera (hnormalized (cand_point3D2 c)))
           (cand_point2D1_refrac c)
           (cand_point2D2_refrac c).

(** The deviation of the noise on the accepted sample of index [i]: the
    configured one below the number of inliers (no noise when it is not
    positive), 200 pixels from there on. *)
Definition spec_stddev (noise_level : F) (num_inliers i : Z) : option F :=
  if (i <? num_inliers)%Z then
    if lit 0 <? noise_level then Some noise_level else None
  else Some (lit 200).

(** Noise of deviation [sd]: each of the eight coordinates receives a
    Gaussian draw of its own, of mean 0. *)
Definition spec_noise (stddev : option F) (s : Sample F) (g : rng)
    : Sample F * rng :=
  match stddev with
  | None => (s, g)
  | Some sd =>
      let n := fun k => gaussian_draw k sd g in
      (MkSample
         (Vec2 (v2x (s_point2D1 s) + n 0%nat) (v2y (s_point2D1 s) + n 1%nat))
         (Vec2 (v2x (s_point2D2 s) + n 4%nat) (v2y (s_point2D2 s) + n 5%nat))
         (Vec2 (v2x (s_point2D1_refrac s) + n 2%nat)
               (v2y (s_point2D1_refrac s) + n 3%nat))
         (Vec2 (v2x (s_point2D2_refrac s) + n 6%nat)
               (v2y (s_point2D2_refrac s) + n 7%nat)),
       after_draws 8 sd g)
  end.

(** Rejection sampling: with [cnt] samples accepted and the generator in
    state [g], the samples [l] are accepted, in this order, until there are
    [num_points] of them, and the generator is left in state [g']. *)
Inductive spec_collects (camera : Camera F) (num_points : Z) (gt : Rigid3d F)
    (noise_level : F) (num_inliers : Z)
    : Z -> rng -> list (Sample F) -> rng -> Prop :=
| spec_collects_done cnt g :
    (num_points <= cnt)%Z ->
    spec_collects camera num_points gt noise_level num_inliers cnt g [] g
| spec_collects_reject cnt g l g' :
    (cnt < num_points)%Z ->
    spec_unacceptable camera
      (cand_point2D2_refrac (spec_candidate camera gt g).1) = true ->
    spec_collects camera num_points gt noise_level num_inliers cnt
                  (spec_candidate camera gt g).2 l g' ->
    spec_collects camera num_points gt noise_level num_inliers cnt g l g'
| spec_collects_accept cnt g l g' :
    (cnt < num_points)%Z ->
    spec_unacceptable camera
      (cand_point2D2_refrac (spec_candidate camera gt g).1) = false ->
    spec_collects camera num_points gt noise_level num_inliers (cnt + 1)
      (spec_noise (spec_stddev noise_level num_inliers cnt)
                  (spec_sample camera (spec_candidate camera gt g).1)
                  (spec_candidate camera gt g).2).2 l g' ->
    spec_collects camera num_points gt noise_level num_inliers cnt g
      ((spec_noise (spec_stddev noise_level num_inliers cnt)
                   (spec_sample camera (spec_candidate camera gt g).1)
                   (spec_candidate camera gt g).2).1 :: l) g'.

(** Acceptable candidates keep occurring: from every state of the generator
    one of the next candidates is acceptable. *)
Fixpoint spec_accepts_within (k : nat) (camera : Camera F) (gt : Rigid3d F)
    (g : rng) : bool :=
  match k with
  | O => false
  | S k' =>
      let c := spec_candidate camera gt g in
      if spec_unacceptable camera (cand_point2D2_refrac c.1)
      then spec_accepts_within k' camera gt c.2 else true
  end.

Definition spec_keeps_accepting (camera : Camera F) (gt : Rigid3d F) : Prop :=
  forall g, exists k, spec_accepts_within k camera gt g = true.

End GenerationSpec.

(** ** The evaluation harness: error computation

    The sources hold two evaluation programs.  The first reports a rotation
    error, an angular error of the translation direction and a scale error
    ([RelativePoseError]); the second reports a rotation error and a
    position error in millimetres ([PoseError]). *)

Section Errors.
Context {F : Type} {SF : Scalar F}.
Local Open Scope scalar_scope.

(** [RadToDeg] of math/math.h multiplies by 180/pi, written as a decimal
    constant. *)
Definition RadToDeg (rad : F) : F :=
  rad * lit (5729577951308232 # 100000000000000).

(** The three error values of the first program. *)
Record PoseErrors3 : Type := MkPoseErrors3 {
  e_rotation_error : F;
  e_angular_error : F;
  e_scale_error : F
}.

Definition RelativePoseError (cam2_from_cam1_gt cam2_from_cam1_est : Rigid3d F)
    (is_refractive : bool) : PoseErrors3 :=
  let cam2_from_cam1_gt_norm := normalize_translation cam2_from_cam1_gt in
  let cam2_from_cam1_est_norm := normalize_translation cam2_from_cam1_est in
  let diff := rigid_mul cam2_from_cam1_gt_norm
                        (Inverse cam2_from_cam1_est_norm) in
  let rotation_error := RadToDeg (AngleAxis_angle (rotation diff)) in
  let cos_theta := dot (translation cam2_from_cam1_gt_norm)
                       (translation cam2_from_cam1_est_norm) in
  let cos_theta := if cos_theta <? lit 0 then - cos_theta else cos_theta in
  let angular_error := RadToDeg (facos cos_theta) in
  let scale_error :=
    if is_refractive then
      let baseline_est :=
        norm (qrot (qinverse (rotation cam2_from_cam1_est))
                   (vneg (translation cam2_from_cam1_est))) in
      let baseline_gt :=
        norm (qrot (qinverse (rotation cam2_from_cam1_gt))
                   (vneg (translation cam2_from_cam1_gt))) in
      fabs (baseline_gt - baseline_est)
    else lit 0 in
  MkPoseErrors3 rotation_error angular_error scale_error.

(** [PoseError] of the second program: (rotation_error, position_error). *)
Definition PoseError (cam2_from_cam1_gt cam2_from_cam1_est : Rigid3d F)
    (is_refractive : bool) : F * F :=
  if negb is_refractive then
    let cam2_from_cam1_gt_norm := normalize_translation cam2_from_cam1_gt in
    let diff := rigid_mul cam2_from_cam1_gt_norm (Inverse cam2_from_cam1_est) in
    let rotation_error := RadToDeg (AngleAxis_angle (rotation diff)) in
    let position_error :=
      norm (vsub (translation (Inverse cam2_from_cam1_gt_norm))
                 (translation (Inverse cam2_from_cam1_est))) * lit 1000 in
    (rotation_error, position_error)
  else
    let diff := rigid_mul cam2_from_cam1_gt (Inverse cam2_from_cam1_est) in
    let rotation_error := RadToDeg (AngleAxis_angle (rotation diff)) in
    let position_error :=
      norm (vsub (translation (Inverse cam2_from_cam1_gt))
                 (translation (Inverse cam2_from_cam1_est))) * lit 1000 in
    (rotation_error, position_error).

(** The error computation of one trial in the refractive loop of
    [Evaluate], for the pose the refractive estimator returned: in the
    first program *)
Definition Evaluate1_refrac_errors (gt est_refrac : Rigid3d F) : PoseErrors3 :=
  RelativePoseError gt est_refrac true.

(** and in the second program. *)
Definition Evaluate2_refrac_errors (gt est_refrac : Rigid3d F) : F * F :=
  let est_refrac := normalize_translation est_refrac in
  PoseError gt est_refrac false.

(** The projection centre of view 2 in the frame of view 1. *)
Definition camera_center (cam2_from_cam1 : Rigid3d F) : Vector3d F :=
  qrot (qinverse (rotation cam2_from_cam1))
       (vneg (translation cam2_from_cam1)).

(** The relative rotation between two poses. *)
Definition relative_rotation (gt est : Rigid3d F) : Quaterniond F :=
  qnormalized (qmul (rotation gt) (qinverse (rotation est))).

End Errors.

(** ** A small catalogue and generator to run the code on

    Two intrinsic models (SIMPLE_PINHOLE: f, cx, cy; PINHOLE: fx, fy, cx,
    cy) and two interface models of eight parameters each.  The interfaces
    of this catalogue do not bend rays; a [blind] catalogue has no
    refractive projection at all (every projection is NaN).  It serves to
    evaluate the definitions above on concrete inputs. *)

Module Toy.
Section Toy.
Context {F : Type} {SF : Scalar F}.
Local Open Scope scalar_scope.

Definition SIMPLE_PINHOLE : Z := 0.
Definition PINHOLE : Z := 1.
Definition FLATPORT : Z := 0.
Definition DOMEPORT : Z := 1.

Definition model_of_name (s : string) : Z :=
  if String.eqb s "SIMPLE_PINHOLE" then SIMPLE_PINHOLE
  else if String.eqb s "PINHOLE" then PINHOLE else (-1).
Definition refrac_of_name (s : string) : Z :=
  if String.eqb s "FLATPORT" then FLATPORT
  else if String.eqb s "DOMEPORT" then DOMEPORT else (-1).

Definition num_params (id : Z) : nat :=
  if (id =? SIMPLE_PINHOLE)%Z then 3 else if (id =? PINHOLE)%Z then 4 else 0.
Definition refrac_num_params (id : Z) : nat :=
  if (id =? FLATPORT)%Z || (id =? DOMEPORT)%Z then 8 else 0.

Definition focal_idxs (id : Z) : list nat :=
  if (id =? SIMPLE_PINHOLE)%Z then [0%nat]
  else if (id =? PINHOLE)%Z then [0%nat; 1%nat] else [].
Definition pp_idxs (id : Z) : list nat :=
  if (id =? SIMPLE_PINHOLE)%Z then [1%nat; 2%nat]
  else if (id =? PINHOLE)%Z then [2%nat; 3%nat] else [].

(** The focal length or lengths as given, the principal point in the
    middle of the image. *)
Definition initial_params (id : Z) (focal_length : F) (w h : Z) : list F :=
  if (id =? SIMPLE_PINHOLE)%Z
  then [focal_length; of_Z w / lit 2; of_Z h / lit 2]
  else if (id =? PINHOLE)%Z
  then [focal_length; focal_length; of_Z w / lit 2; of_Z h / lit 2]
  else [].

Definition nth0 (v : list F) (i : nat) : F := nth i v (lit 0).

Definition unproject (id : Z) (p : list F) (x : Vector2d F) : Vector3d F :=
  if (id =? SIMPLE_PINHOLE)%Z then
    Vec3 ((v2x x - nth0 p 1) / nth0 p 0) ((v2y x - nth0 p 2) / nth0 p 0) (lit 1)
  else
    Vec3 ((v2x x - nth0 p 2) / nth0 p 0) ((v2y x - nth0 p 3) / nth0 p 1) (lit 1).

Definition project (id : Z) (p : list F) (X : Vector3d F) : Vector2d F :=
  if (id =? SIMPLE_PINHOLE)%Z then
    Vec2 (nth0 p 0 * v3x X / v3z X + nth0 p 1)
         (nth0 p 0 * v3y X / v3z X + nth0 p 2)
  else
    Vec2 (nth0 p 0 * v3x X / v3z X + nth0 p 2)
         (nth0 p 1 * v3y X / v3z X + nth0 p 3).

Definition axis_of (id : Z) (rp : list F) : Vector3d F :=
  let v := Vec3 (nth0 rp 0) (nth0 rp 1) (nth0 rp 2) in
  if (id =? FLATPORT)%Z then v else normalized v.

Definition nan : F := lit 0 / lit 0.

(** Comma separated natural numbers. *)
Fixpoint parse_csv (s : string) (cur : Z) (started : bool) : list F :=
  match s with
  | EmptyString => if started then [of_Z cur] else []
  | String a rest =>
      if Ascii.eqb a ","%char then of_Z cur :: parse_csv rest 0 true
      else parse_csv rest (10 * cur + (Z.of_nat (Ascii.nat_of_ascii a) - 48)) true
  end.

(** Some unit vector orthogonal to [v0]: what the decomposition returns
    for exactly opposite vectors. *)
Definition some_orthogonal (v0 v1 : Vector3d F) : Vector3d F :=
  normalized (Vec3 (v3z v0) (lit 0) (- v3x v0)).

Definition models (blind : bool) : Models F := {|
  kInvalidCameraId := size_t_max - 1;
  kInvalidCameraModelId := -1;
  kInvalidRefractiveCameraModelId := -1;
  ExistsCameraModelWithId := fun id => (id =? SIMPLE_PINHOLE)%Z || (id =? PINHOLE)%Z;
  ExistsCameraModelWithName := fun s => negb (model_of_name s =? -1)%Z;
  CameraModelNameToId := model_of_name;
  CameraModelNumParams := num_params;
  CameraModelInitializeParams := initial_params;
  CameraModelVerifyParams := fun id v => Nat.eqb (length v) (num_params id);
  CameraModelFocalLengthIdxs := focal_idxs;
  CameraModelPrincipalPointIdxs := pp_idxs;
  CameraModelExtraParamsIdxs := fun _ => [];
  CameraModelCamFromImg := unproject;
  CameraModelImgFromCam := project;
  ExistsCameraRefracModelWithId := fun id => (id =? FLATPORT)%Z || (id =? DOMEPORT)%Z;
  ExistsCameraRefracModelWithName := fun s => negb (refrac_of_name s =? -1)%Z;
  CameraRefracModelNameToId := refrac_of_name;
  CameraRefracModelNumParams := refrac_num_params;
  CameraRefracModelVerifyParams :=
    fun id v => Nat.eqb (length v) (refrac_num_params id);
  CameraRefracModelRefractionAxis := axis_of;
  RefracCamFromImg := fun id _ p _ x => MkRay3D Zero3 (unproject id p x);
  RefracImgFromCam :=
    fun id _ p _ X => if blind then Vec2 nan nan else project id p X;
  CSVToVector := fun s => parse_csv s 0 false;
  IntersectLinesWithTolerance := fun o1 _ _ _ => o1;
  svd_null_axis := some_orthogonal
|}.

End Toy.

(** A generator whose state is a counter: a uniform draw walks through the
    eighths of its interval, a Gaussian draw alternates around the mean at
    one standard deviation. *)
Definition prng {F : Type} {SF : Scalar F} : PRNG F := {|
  rng := nat;
  RandomUniformReal := fun a b g =>
    (fadd a (fmul (fsub b a) (of_Q (Z.of_nat (1 + g mod 7) # 8))), S g);
  RandomGaussian := fun mean stddev g =>
    (if Nat.even g then fadd mean stddev else fsub mean stddev, S g)
|}.

(** A generator that always returns the middle of the interval and the
    mean. *)
Definition prng_mid {F : Type} {SF : Scalar F} : PRNG F := {|
  rng := nat;
  RandomUniformReal := fun a b g =>
    (fadd a (fmul (fsub b a) (of_Q (1 # 2))), S g);
  RandomGaussian := fun mean stddev g => (mean, S g)
|}.

End Toy.

(** ** Concrete inputs

    The camera of the second evaluation program (PINHOLE, 1113 x 835, flat
    port along +Z) with rational parameters, over both arithmetics, and the
    data the definitions are run on. *)

Module Examples.
Import RatScalar.

Definition camera_of {F : Type} {SF : Scalar F} (refrac_model : Z) : Camera F :=
  MkCamera (size_t_max - 1) Toy.PINHOLE 1113 835
           [of_Z 340; of_Z 340; of_Q (1113 # 2); of_Q (835 # 2)] false
           refrac_model
           (if (refrac_model =? Toy.FLATPORT)%Z
            then [of_Z 0; of_Z 0; of_Z 1; of_Q (1 # 20); of_Q (1 # 50);
                  of_Z 1; of_Q (152 # 100); of_Q (1334 # 1000)]
            else []).

(** Over the rationals. *)
Definition qcamera : Camera RatScalar.qd :=
  camera_of (SF := RatScalar.Q_Scalar) Toy.FLATPORT.
Definition qcamera_plain : Camera RatScalar.qd :=
  camera_of (SF := RatScalar.Q_Scalar) (-1).

Definition qnum (z : Z) : RatScalar.qd := of_Z (Scalar := RatScalar.Q_Scalar) z.

Definition qpose : Rigid3d RatScalar.qd :=
  MkRigid3d (Quat (qnum 1) (qnum 0) (qnum 0) (qnum 0))
            (Vec3 (Some (1 # 10)) (qnum 0) (qnum 0)).

Definition qpixel (x y : Z) : Vector2d RatScalar.qd := Vec2 (qnum x) (qnum y).

Definition qempty : PointsData RatScalar.qd :=
  MkPointsData [] [] [] [] [] [] [] [] qpose.

(** The catalogue, a blind one, and the two generators. *)
Definition qmodels : Models RatScalar.qd :=
  Toy.models (SF := RatScalar.Q_Scalar) false.
Definition qblind : Models RatScalar.qd :=
  Toy.models (SF := RatScalar.Q_Scalar) true.
Definition qprng : PRNG RatScalar.qd := Toy.prng (SF := RatScalar.Q_Scalar).
Definition qprng_mid : PRNG RatScalar.qd :=
  Toy.prng_mid (SF := RatScalar.Q_Scalar).

(** A virtual camera and its transform, as an earlier call left them. *)
Definition qold : Camera RatScalar.qd * Rigid3d RatScalar.qd :=
  Eval vm_compute in
    match ComputeVirtual (MF := qmodels) qcamera (qpixel 1 1) with
    | Some r => r
    | None => (qcamera, qpose)
    end.

(** Over the reals. *)
Definition rcamera : Camera R :=
  camera_of (SF := RealScalar.R_Scalar) Toy.FLATPORT.
Definition rmodels : Models R :=
  Toy.models (SF := RealScalar.R_Scalar) false.

End Examples.

(** Over binary64, whatever [acos] and [atan2] the platform has: the same
    camera and catalogue. *)
Module MachineExamples.
Import Binary64 Examples.

Section Libm.
Variable libm_acos : double -> double.
Variable libm_atan2 : double -> double -> double.

Definition bscalar : Scalar double := B64_Scalar libm_acos libm_atan2.
Definition bmodels : Models double := Toy.models (SF := bscalar) false.
Definition bcamera : Camera double := camera_of (SF := bscalar) Toy.FLATPORT.

End Libm.

(** The double a decimal literal denotes. *)
Definition bnum (q : Q) : double := b64_of_Q q.

End MachineExamples.

(** The same camera behind other interfaces, over the reals: a dome port
    whose first three parameters are (24, 0, 7), a flat port whose first
    three parameters are (0, 0, -1), and no interface at all. *)
Module PortExamples.
Import Examples.

Definition camera_behind (refrac_model : Z) (refrac_parameters : list R)
    : Camera R :=
  MkCamera (size_t_max - 1) Toy.PINHOLE 1113 835
           [340; 340; 1113 / 2; 835 / 2]%R false refrac_model
           refrac_parameters.

Definition rcamera_tilted : Camera R :=
  camera_behind Toy.DOMEPORT [24; 0; 7; 1 / 20; 1 / 50; 1; 152 / 100;
                              1334 / 1000]%R.
Definition rcamera_back : Camera R :=
  camera_behind Toy.FLATPORT [0; 0; -1; 1 / 20; 1 / 50; 1; 152 / 100;
                              1334 / 1000]%R.
Definition rcamera_plain : Camera R := camera_behind (-1) [].

End PortExamples.

(** ** What the specification says of the catalogue *)

Section CatalogueContracts.
Context {F : Type} {SF : Scalar F} {MF : Models F}.
Local Open Scope scalar_scope.

(** Modelled from the spec: sensor/models.h is not among the sources.
    SIMPLE_PINHOLE is the "minimal single-focal-length pinhole variant", of
    parameters f, cx, cy: it exists in the catalogue and projects the camera
    point (X, Y, Z) to (f X / Z + cx, f Y / Z + cy), in the arithmetic of
    [F]. *)
Definition simple_pinhole_projects : Prop :=
  ExistsCameraModelWithName "SIMPLE_PINHOLE" = true /\
  forall (f cx cy : F) (X : Vector3d F),
    CameraModelImgFromCam (CameraModelNameToId "SIMPLE_PINHOLE") [f; cx; cy] X =
    Vec2 (f * v3x X / v3z X + cx) (f * v3y X / v3z X + cy).

End CatalogueContracts.

(** ** Statements over exact arithmetic *)

Section RealStatements.
Import RealScalar.
Context {MF : Models R}.

(** Two pixels agree within [eps] on both coordinates. *)
Definition close2 (eps : R) (a b : Vector2d R) : Prop :=
  (Rabs (v2x a - v2x b) <= eps)%R /\ (Rabs (v2y a - v2y b) <= eps)%R.

(** Modelled from the spec: sensor/models.h is not among the sources.
    SIMPLE_PINHOLE is the "minimal single-focal-length pinhole variant", of
    parameters f, cx, cy: it exists in the catalogue and projects the camera
    point (X, Y, Z) to (f X / Z + cx, f Y / Z + cy). *)
Definition simple_pinhole_in_catalogue : Prop :=
  ExistsCameraModelWithName "SIMPLE_PINHOLE" = true /\
  forall (f cx cy : R) (X : Vector3d R),
    CameraModelImgFromCam (CameraModelNameToId "SIMPLE_PINHOLE") [f; cx; cy] X =
    Vec2 (f * v3x X / v3z X + cx)%R (f * v3y X / v3z X + cy)%R.

(** The intrinsic model of the camera has one or two focal lengths, stored
    inside the parameter vector. *)
Definition one_or_two_focal_lengths (c : Camera R) : Prop :=
  match FocalLengthIdxs c with
  | [i0] => is_Some (params c !! i0)
  | [i0; i1] => is_Some (params c !! i0) /\ is_Some (params c !! i1)
  | _ => False
  end.

(** The three parameters the virtual camera is given. *)
Definition virtual_params (f : R) (image_point cam_point : Vector2d R)
    : list R :=
  [f; (v2x image_point - f * v2x cam_point)%R;
      (v2y image_point - f * v2y cam_point)%R].

(** What the library promises of the axis it takes from the singular value
    decomposition when the refraction axis is nearly opposite to +Z: a unit
    vector orthogonal to both. *)
Definition svd_axis_is_null (a : Vector3d R) : Prop :=
  let v0 := normalized a in
  let v1 := normalized UnitZ in
  let n := svd_null_axis v0 v1 in
  (dot v1 v0 < -1 + / 1000000000000)%R ->
  dot n v0 = 0%R /\ dot n v1 = 0%R /\ dot n n = 1%R.

(** Two poses without rotation, of baselines 2 and 4 along x. *)
Definition identity_rotation : Quaterniond R := Quat 1%R 0%R 0%R 0%R.
Definition gt_2 : Rigid3d R :=
  MkRigid3d identity_rotation (Vec3 2%R 0%R 0%R).
Definition est_4 : Rigid3d R :=
  MkRigid3d identity_rotation (Vec3 4%R 0%R 0%R).

End RealStatements.

(** ** More of the camera: calibration matrix, distortion test, and the
    four scalar accessors taken together *)

Section CameraMatrix.
Context {F : Type} {SF : Scalar F} {MF : Models F}.
Local Open Scope scalar_scope.

(** [Eigen::Matrix3d], entry (row, column). *)
Record Matrix3d : Type := Mat3 {
  m00 : F; m01 : F; m02 : F;
  m10 : F; m11 : F; m12 : F;
  m20 : F; m21 : F; m22 : F
}.

Definition Identity3 : Matrix3d :=
  Mat3 (lit 1) (lit 0) (lit 0)
       (lit 0) (lit 1) (lit 0)
       (lit 0) (lit 0) (lit 1).

(** [K(0, 0) = x] and the three other entries the camera writes. *)
Definition set_m00 (K : Matrix3d) (x : F) : Matrix3d :=
  Mat3 x (m01 K) (m02 K) (m10 K) (m11 K) (m12 K) (m20 K) (m21 K) (m22 K).
Definition set_m11 (K : Matrix3d) (x : F) : Matrix3d :=
  Mat3 (m00 K) (m01 K) (m02 K) (m10 K) x (m12 K) (m20 K) (m21 K) (m22 K).
Definition set_m02 (K : Matrix3d) (x : F) : Matrix3d :=
  Mat3 (m00 K) (m01 K) x (m10 K) (m11 K) (m12 K) (m20 K) (m21 K) (m22 K).
Definition set_m12 (K : Matrix3d) (x : F) : Matrix3d :=
  Mat3 (m00 K) (m01 K) (m02 K) (m10 K) (m11 K) x (m20 K) (m21 K) (m22 K).

Definition CalibrationMatrix (c : Camera F) : option Matrix3d :=
  let K := Identity3 in
  let idxs := FocalLengthIdxs c in
  K ← match idxs with
      | [i0] =>
          a ← vget (params c) i0;
          Some (set_m11 (set_m00 K a) a)
      | [i0; i1] =>
          a ← vget (params c) i0;
          b ← vget (params c) i1;
          Some (set_m11 (set_m00 K a) b)
      | _ => None
      end;
  ppx ← PrincipalPointX c;
  let K := set_m02 K ppx in
  ppy ← PrincipalPointY c;
  Some (set_m12 K ppy).

(** The loop of [IsUndistorted]: it returns at the first extra parameter
    that is larger than 1e-8 in absolute value, without reading the ones
    after it. *)
Fixpoint all_below_threshold (v : list F) (idxs : list nat) : option bool :=
  match idxs with
  | [] => Some true
  | idx :: rest =>
      x ← vget v idx;
      if fabs x >? lit (1 # 100000000) then Some false
      else all_below_threshold v rest
  end.

Definition IsUndistorted (c : Camera F) : option bool :=
  all_below_threshold (params c) (ExtraParamsIdxs c).

(** The four scalar entries that have a getter and a setter of their own. *)
Inductive Entry : Type :=
| EFocalLengthX | EFocalLengthY | EPrincipalPointX | EPrincipalPointY.

Definition get_entry (c : Camera F) (e : Entry) : option F :=
  match e with
  | EFocalLengthX => FocalLengthX c
  | EFocalLengthY => FocalLengthY c
  | EPrincipalPointX => PrincipalPointX c
  | EPrincipalPointY => PrincipalPointY c
  end.

Definition set_entry (c : Camera F) (e : Entry) (x : F) : option (Camera F) :=
  match e with
  | EFocalLengthX => SetFocalLengthX c x
  | EFocalLengthY => SetFocalLengthY c x
  | EPrincipalPointX => SetPrincipalPointX c x
  | EPrincipalPointY => SetPrincipalPointY c x
  end.

(** The index of the parameter vector an entry lives at. *)
Definition entry_index (c : Camera F) (e : Entry) : option nat :=
  match e with
  | EFocalLengthX =>
      match FocalLengthIdxs c with [i0; _] => Some i0 | _ => None end
  | EFocalLengthY =>
      match FocalLengthIdxs c with [_; i1] => Some i1 | _ => None end
  | EPrincipalPointX =>
      match PrincipalPointIdxs c with [i0; _] => Some i0 | _ => None end
  | EPrincipalPointY =>
      match PrincipalPointIdxs c with [_; i1] => Some i1 | _ => None end
  end.

End CameraMatrix.
Arguments Matrix3d F : clear implicits.

(** ** Poses with a rescaled translation *)

Section ErrorsMore.
Context {F : Type} {SF : Scalar F}.

(** The pose [p] with its translation multiplied by [k]. *)
Definition scale_translation (p : Rigid3d F) (k : F) : Rigid3d F :=
  MkRigid3d (rotation p) (vscale (translation p) k).

End ErrorsMore.

(** ** The test bed: registration of extra images ([tools/testbed.cc])

    The first block of [main] adds images to a reconstruction, one per pass
    of a [while] loop, each next to a neighbour that is registered already.
    The reconstruction and the database ([scene/reconstruction.h],
    [scene/database.h]) are not part of the sources; the loop only calls
    them, and they are the fields of [Reconstruction]. *)

Section Image.
Context {F : Type} {SF : Scalar F}.

(** What the loop reads and writes of an [Image]. *)
Record Image : Type := MkImage {
  image_id : Z;
  CamFromWorld : Rigid3d F;
  CamFromWorldPrior : Rigid3d F;
  registered : bool
}.

Definition set_CamFromWorld (i : Image) (p : Rigid3d F) : Image :=
  MkImage (image_id i) p (CamFromWorldPrior i) (registered i).
Definition SetRegistered (i : Image) (b : bool) : Image :=
  MkImage (image_id i) (CamFromWorld i) (CamFromWorldPrior i) b.

End Image.
Arguments Image F : clear implicits.

Class Reconstruction (F : Type) : Type := {
  recon : Type;
  ExistsImage : recon -> Z -> bool;
  IsImageRegistered : recon -> Z -> bool;
  ReconImage : recon -> Z -> option (Image F);     (* recon.Image(id) *)
  AddImage : recon -> Image F -> option recon;
  RegisterImage : recon -> Z -> option recon;
  ReadImage : Z -> option (Image F)                (* database.ReadImage(id) *)
}.

Section Testbed.
Context {F : Type} {SF : Scalar F} {RF : Reconstruction F}.

(** [image_t] is an unsigned integer of 32 bits. *)
Definition image_t_wrap (z : Z) : Z := z mod 2 ^ 32.

Definition exists_registered (r : recon) (id : Z) : bool :=
  ExistsImage r id && IsImageRegistered r id.

(** The [for] loop over the extra images, in the iteration order of the
    set: (reg_image_id, ref_image_id) at the [break], or (0, 0). *)
Fixpoint find_neighbour (r : recon) (extra_image_ids : list Z) : Z * Z :=
  match extra_image_ids with
  | [] => (0, 0)
  | image_id :: rest =>
      if exists_registered r (image_t_wrap (image_id - 1))
      then (image_id, image_t_wrap (image_id - 1))
      else if exists_registered r (image_t_wrap (image_id + 1))
      then (image_id, image_t_wrap (image_id + 1))
      else find_neighbour r rest
  end.

(** [extra_image_ids.erase(id)]: the other elements keep their order. *)
Definition erase (id : Z) (ids : list Z) : list Z :=
  List.filter (fun x => negb (x =? id)) ids.

(** The pose a new image gets from its priors and its reference image. *)
Definition registration_pose (image_reg_db image_ref_db image_ref : Image F)
    : Rigid3d F :=
  let reg_from_ref :=
    rigid_mul (CamFromWorldPrior image_reg_db)
              (Inverse (CamFromWorldPrior image_ref_db)) in
  rigid_mul reg_from_ref (CamFromWorld image_ref).

(** One pass of the [while] loop: the reconstruction and the set after
    it; [None] when a call aborts. *)
Definition register_pass (r : recon) (extra_image_ids : list Z)
    : option (recon * list Z) :=
  let found := find_neighbour r extra_image_ids in
  let reg_image_id := found.1 in
  let ref_image_id := found.2 in
  if (reg_image_id =? ref_image_id) || (reg_image_id =? 0)
     || (ref_image_id =? 0)
  then Some (r, extra_image_ids)
  else
    image_reg_db ← ReadImage reg_image_id;
    image_ref_db ← ReadImage ref_image_id;
    image_ref ← ReconImage r ref_image_id;
    let image_reg_db :=
      set_CamFromWorld image_reg_db
        (registration_pose image_reg_db image_ref_db image_ref) in
    let image_reg_db := SetRegistered image_reg_db true in
    r ← AddImage r image_reg_db;
    r ← RegisterImage r reg_image_id;
    Some (r, erase reg_image_id extra_image_ids).

(** The [while (!extra_image_ids.empty())] loop, one unit of fuel per
    pass. *)
Fixpoint register_loop (fuel : nat) (r : recon) (extra_image_ids : list Z)
    : outcome recon :=
  match fuel with
  | O => OutOfFuel
  | S fuel' =>
      match extra_image_ids with
      | [] => Returned r
      | _ :: _ =>
          match register_pass r extra_image_ids with
          | None => Aborted
          | Some (r', ids') => register_loop fuel' r' ids'
          end
      end
  end.

End Testbed.

(** A reconstruction to run the loop on: the set of the registered image
    ids; every image of the database has the identity as pose and prior. *)
Module ToyRecon.
Import RatScalar.

Definition qidentity : Rigid3d qd :=
  MkRigid3d (Quat (Some 1%Q) (Some 0%Q) (Some 0%Q) (Some 0%Q))
            (Vec3 (Some 0%Q) (Some 0%Q) (Some 0%Q)).

Definition member (id : Z) (ids : list Z) : bool :=
  List.existsb (Z.eqb id) ids.

Definition qrecon : Reconstruction qd := {|
  recon := list Z;
  ExistsImage := fun r id => member id r;
  IsImageRegistered := fun r id => member id r;
  ReconImage := fun r id =>
    if member id r then Some (MkImage id qidentity qidentity true) else None;
  AddImage := fun r i =>
    if member (image_id i) r then None else Some (image_id i :: r);
  RegisterImage := fun r id => if member id r then Some r else None;
  ReadImage := fun id => Some (MkImage id qidentity qidentity false)
|}.

End ToyRecon.

(** ** A catalogue with a distortion parameter

    The small catalogue extended by a third intrinsic model, SIMPLE_RADIAL
    (f, cx, cy, k), whose last parameter is an extra (distortion)
    parameter. *)

Module MoreExamples.
Import RatScalar Examples.

Definition SIMPLE_RADIAL : Z := 2.

Definition radial {F : Type} {SF : Scalar F} : Models F :=
  let base := Toy.models (SF := SF) false in {|
  kInvalidCameraId := kInvalidCameraId (Models := base);
  kInvalidCameraModelId := kInvalidCameraModelId (Models := base);
  kInvalidRefractiveCameraModelId :=
    kInvalidRefractiveCameraModelId (Models := base);
  ExistsCameraModelWithId := fun id =>
    (id =? SIMPLE_RADIAL)%Z || ExistsCameraModelWithId (Models := base) id;
  ExistsCameraModelWithName := fun s =>
    String.eqb s "SIMPLE_RADIAL"
    || ExistsCameraModelWithName (Models := base) s;
  CameraModelNameToId := fun s =>
    if String.eqb s "SIMPLE_RADIAL" then SIMPLE_RADIAL
    else CameraModelNameToId (Models := base) s;
  CameraModelNumParams := fun id =>
    if (id =? SIMPLE_RADIAL)%Z then 4%nat
    else CameraModelNumParams (Models := base) id;
  CameraModelInitializeParams := fun id focal_length w h =>
    if (id =? SIMPLE_RADIAL)%Z
    then [focal_length; of_Z w / lit 2; of_Z h / lit 2; lit 0]%sc
    else CameraModelInitializeParams (Models := base) id focal_length w h;
  CameraModelVerifyParams := fun id v =>
    if (id =? SIMPLE_RADIAL)%Z then Nat.eqb (length v) 4
    else CameraModelVerifyParams (Models := base) id v;
  CameraModelFocalLengthIdxs := fun id =>
    if (id =? SIMPLE_RADIAL)%Z then [0%nat]
    else CameraModelFocalLengthIdxs (Models := base) id;
  CameraModelPrincipalPointIdxs := fun id =>
    if (id =? SIMPLE_RADIAL)%Z then [1%nat; 2%nat]
    else CameraModelPrincipalPointIdxs (Models := base) id;
  CameraModelExtraParamsIdxs := fun id =>
    if (id =? SIMPLE_RADIAL)%Z then [3%nat] else [];
  CameraModelCamFromImg := CameraModelCamFromImg (Models := base);
  CameraModelImgFromCam := CameraModelImgFromCam (Models := base);
  ExistsCameraRefracModelWithId :=
    ExistsCameraRefracModelWithId (Models := base);
  ExistsCameraRefracModelWithName :=
    ExistsCameraRefracModelWithName (Models := base);
  CameraRefracModelNameToId := CameraRefracModelNameToId (Models := base);
  CameraRefracModelNumParams := CameraRefracModelNumParams (Models := base);
  CameraRefracModelVerifyParams :=
    CameraRefracModelVerifyParams (Models := base);
  CameraRefracModelRefractionAxis :=
    CameraRefracModelRefractionAxis (Models := base);
  RefracCamFromImg := RefracCamFromImg (Models := base);
  RefracImgFromCam := RefracImgFromCam (Models := base);
  CSVToVector := CSVToVector (Models := base);
  IntersectLinesWithTolerance :=
    IntersectLinesWithTolerance (Models := base);
  svd_null_axis := svd_null_axis (Models := base)
|}.

Definition qradial : Models qd := radial (SF := Q_Scalar).
Definition rradial : Models R := radial (SF := RealScalar.R_Scalar).

(** A camera of this model with the distortion parameter [k]. *)
Definition qcamera_radial (k : qd) : Camera qd :=
  MkCamera (size_t_max - 1) SIMPLE_RADIAL 1113 835
           [qnum 340; qnum 556; qnum 417; k] false (-1) [].

(** A default-constructed camera has no model, hence no focal length. *)
Definition qcamera_new : Camera qd := Camera_new (MF := qmodels).

(** A data set after one call of the generation routine (three noise-free
    samples), with the state of the generator, and after a second call on
    the same data set. *)
Definition qdata1 : PointsData qd * nat :=
  Eval vm_compute in
    match GenerateRandom2D2DPoints (MF := qmodels) (PF := qprng) 20 qcamera 3
            qpose qempty (qnum 0) (qnum 1) 0%nat with
    | (Returned pd, g) => (pd, g)
    | _ => (qempty, 0%nat)
    end.

Definition qdata2 : PointsData qd * nat :=
  Eval vm_compute in
    match GenerateRandom2D2DPoints (MF := qmodels) (PF := qprng) 20 qcamera 3
            qpose qdata1.1 (qnum 0) (qnum 1) qdata1.2 with
    | (Returned pd, g) => (pd, g)
    | _ => (qempty, 0%nat)
    end.

(** The images of two poses without rotation. *)
Definition image_2 : Image R := MkImage 2 gt_2 gt_2 true.
Definition image_4 : Image R := MkImage 4 est_4 est_4 true.

(** The pose without rotation and without translation. *)
Definition pose_at_origin : Rigid3d R :=
  MkRigid3d identity_rotation (Vec3 0%R 0%R 0%R).

End MoreExamples.

(** * Properties *)

(** ** Parameter vectors: assignment and the length invariant *)

Section CameraFacts.
Context {F : Type} {SF : Scalar F} {MF : Models F}.

Lemma resize_length (n : nat) (v : list F) : length (resize n v) = n.
Proof.
  unfold resize. rewrite length_app, length_take, length_replicate. lia.
Qed.

Lemma resize_lookup_old (n i : nat) (v : list F) :
  (i < n)%nat -> (i < length v)%nat -> resize n v !! i = v !! i.
Proof.
  intros Hn Hv. unfold resize.
  rewrite lookup_app_l by (rewrite length_take; lia).
  now apply lookup_take_lt.
Qed.

Lemma resize_lookup_new (n i : nat) (v : list F) :
  (length v <= i < n)%nat -> resize n v !! i = Some (lit 0).
Proof.
  intros Hi. unfold resize.
  rewrite lookup_app_r by (rewrite length_take; lia).
  apply lookup_replicate_2. rewrite length_take. lia.
Qed.

Lemma resize_nil (n : nat) : resize n [] = replicate n (lit 0).
Proof. unfold resize. rewrite take_nil. simpl. now rewrite Nat.sub_0_r. Qed.

Lemma vset_length (v v' : list F) (i : nat) (x : F) :
  vset v i x = Some v' -> length v' = length v.
Proof.
  unfold vset. destruct (decide _); intros [= <-]. apply length_insert.
Qed.

Lemma set_params_at_length (idxs : list nat) (x : F) :
  forall v v', set_params_at v idxs x = Some v' -> length v' = length v.
Proof.
  induction idxs as [|i idxs IH]; simpl; intros v v' Hs.
  - now injection Hs as <-.
  - destruct (vset v i x) as [v1|] eqn:E; simpl in Hs; [|discriminate].
    rewrite (IH _ _ Hs). eapply vset_length; eauto.
Qed.

End CameraFacts.

Section RescaleFacts.
Context {F : Type} {SF : Scalar F} {MF : Models F}.
Local Open Scope scalar_scope.

Lemma vset_Some (v v' : list F) (i : nat) (x : F) :
  vset v i x = Some v' -> v' = <[i := x]> v /\ (i < length v)%nat.
Proof. unfold vset. destruct (decide _); intros [= <-]; auto. Qed.

Lemma rescale_frame_refl (c : Camera F) : rescale_frame c c.
Proof. repeat split. Qed.

(** A write to one of the listed entries stays inside the frame. *)
Lemma rescale_frame_write (c c1 : Camera F) (i : nat) (x : F) (p : list F) :
  rescale_frame c c1 ->
  (i ∈ FocalLengthIdxs c \/ i ∈ PrincipalPointIdxs c) ->
  vset (params c1) i x = Some p ->
  rescale_frame c (with_params c1 p).
Proof.
  intros (Hid & Hm & Hp & Hr & Hrp & Hlen & Hother) Hi Hset.
  apply vset_Some in Hset as [-> Hlt].
  repeat split; simpl; try assumption.
  - rewrite length_insert. exact Hlen.
  - intros j Hjf Hjp. rewrite list_lookup_insert_ne.
    + now apply Hother.
    + intros ->. destruct Hi; contradiction.
Qed.

Lemma SetPrincipalPointX_Some (c c' : Camera F) (x : F) :
  SetPrincipalPointX c x = Some c' ->
  exists p0 p1, PrincipalPointIdxs c = [p0; p1] /\
    (p0 < length (params c))%nat /\
    c' = with_params c (<[p0 := x]> (params c)).
Proof.
  unfold SetPrincipalPointX.
  destruct (PrincipalPointIdxs c) as [|p0 [|p1 [|? ?]]]; try discriminate.
  intros Hs. apply bind_Some in Hs as (p & Hset & [= <-]).
  apply vset_Some in Hset as [-> Hlt]. eauto.
Qed.

Lemma SetPrincipalPointY_Some (c c' : Camera F) (x : F) :
  SetPrincipalPointY c x = Some c' ->
  exists p0 p1, PrincipalPointIdxs c = [p0; p1] /\
    (p1 < length (params c))%nat /\
    c' = with_params c (<[p1 := x]> (params c)).
Proof.
  unfold SetPrincipalPointY.
  destruct (PrincipalPointIdxs c) as [|p0 [|p1 [|? ?]]]; try discriminate.
  intros Hs. apply bind_Some in Hs as (p & Hset & [= <-]).
  apply vset_Some in Hset as [-> Hlt]. eauto.
Qed.

Lemma SetFocalLength_single (c c' : Camera F) (x : F) (f0 : nat) :
  FocalLengthIdxs c = [f0] ->
  SetFocalLength c x = Some c' ->
  (f0 < length (params c))%nat /\
  c' = with_params c (<[f0 := x]> (params c)).
Proof.
  unfold SetFocalLength. intros ->. simpl. intros Hs.
  apply bind_Some in Hs as (p & Hset & [= <-]).
  apply bind_Some in Hset as (p' & Hset & [= <-]).
  apply vset_Some in Hset as [-> Hlt]. eauto.
Qed.

Lemma SetFocalLengthX_Some (c c' : Camera F) (x : F) :
  SetFocalLengthX c x = Some c' ->
  exists f0 f1, FocalLengthIdxs c = [f0; f1] /\
    (f0 < length (params c))%nat /\
    c' = with_params c (<[f0 := x]> (params c)).
Proof.
  unfold SetFocalLengthX.
  destruct (FocalLengthIdxs c) as [|f0 [|f1 [|? ?]]]; try discriminate.
  intros Hs. apply bind_Some in Hs as (p & Hset & [= <-]).
  apply vset_Some in Hset as [-> Hlt]. eauto.
Qed.

Lemma SetFocalLengthY_Some (c c' : Camera F) (x : F) :
  SetFocalLengthY c x = Some c' ->
  exists f0 f1, FocalLengthIdxs c = [f0; f1] /\
    (f1 < length (params c))%nat /\
    c' = with_params c (<[f1 := x]> (params c)).
Proof.
  unfold SetFocalLengthY.
  destruct (FocalLengthIdxs c) as [|f0 [|f1 [|? ?]]]; try discriminate.
  intros Hs. apply bind_Some in Hs as (p & Hset & [= <-]).
  apply vset_Some in Hset as [-> Hlt]. eauto.
Qed.

(** Two indices differ when one is outside a list that holds the other. *)
Ltac differ :=
  let E := fresh in
  intros E; subst;
  repeat match goal with
         | H : _ ∉ ?l, E' : ?l = _ |- _ => rewrite E' in H
         end;
  match goal with
  | H : _ ∉ _ |- _ => solve [apply H; simpl; repeat constructor]
  end.

(** Reading an entry back after writes to other entries. *)
Ltac read_back :=
  repeat first
    [ rewrite list_lookup_insert_eq by (rewrite ?length_insert in *; lia)
    | rewrite list_lookup_insert_ne by congruence ].

Lemma rescale_params_spec (c c' : Camera F) (sx sy : F) :
  rescale_params c sx sy = Some c' ->
  width c' = width c /\ height c' = height c /\ rescaled c c' sx sy.
Proof.
  unfold rescale_params. intros Hr.
  apply bind_Some in Hr as (ppx & Hppx & Hr).
  apply bind_Some in Hr as (c1 & H1 & Hr).
  apply bind_Some in Hr as (ppy & Hppy & Hr).
  apply bind_Some in Hr as (c2 & H2 & Hr).
  apply SetPrincipalPointX_Some in H1 as (p0 & p1 & Epp & Hp0 & ->).
  set (c1 := with_params c (<[p0:=sx * ppx]> (params c))) in *.
  apply SetPrincipalPointY_Some in H2 as (p0' & p1' & Epp' & Hp1 & ->).
  change (PrincipalPointIdxs c1) with (PrincipalPointIdxs c) in Epp'.
  rewrite Epp in Epp'. injection Epp' as <- <-.
  unfold PrincipalPointX in Hppx. unfold PrincipalPointY in Hppy.
  change (PrincipalPointIdxs c1) with (PrincipalPointIdxs c) in Hppy.
  rewrite Epp in Hppx, Hppy. unfold vget in Hppx, Hppy.
  change (params c1) with (<[p0:=sx * ppx]> (params c)) in *.
  set (ps2 := <[p1:=sy * ppy]> (<[p0:=sx * ppx]> (params c))) in *.
  set (c2 := with_params c1 ps2) in *.
  change (FocalLengthIdxs c2) with (FocalLengthIdxs c) in Hr.
  assert (Hlen2 : length ps2 = length (params c))
    by (unfold ps2; now rewrite !length_insert).
  assert (Hother2 : forall i, i ∉ PrincipalPointIdxs c ->
                              ps2 !! i = params c !! i).
  { intros i Hi. rewrite Epp in Hi. unfold ps2.
    rewrite !list_lookup_insert_ne; [reflexivity| |];
      differ. }
  destruct (FocalLengthIdxs c) as [|f0 [|f1 [|? ?]]] eqn:Ef;
    simpl in Hr; try discriminate.
  - (* one focal length *)
    apply bind_Some in Hr as (f & Hf & Hr).
    unfold FocalLength in Hf.
    change (FocalLengthIdxs c2) with (FocalLengthIdxs c) in Hf.
    rewrite Ef in Hf. unfold vget in Hf. simpl in Hf.
    apply (SetFocalLength_single _ _ _ f0) in Hr as [Hf0 ->]; [|exact Ef].
    simpl in Hf0.
    split; [reflexivity|]. split; [reflexivity|].
    split.
    + repeat split; simpl.
      * now rewrite length_insert.
      * intros i Hif Hip. rewrite list_lookup_insert_ne.
        -- now apply Hother2.
        -- differ.
    + intros Hnd. rewrite Ef, Epp in Hnd. simpl in Hnd.
      apply NoDup_cons in Hnd as [Hf0n Hnd].
      apply NoDup_cons in Hnd as [Hp0n _].
      assert (f0 <> p0) by differ.
      assert (f0 <> p1) by differ.
      assert (p0 <> p1) by differ.
      unfold ps2 in Hppy, Hf.
      rewrite list_lookup_insert_ne in Hppy by congruence.
      rewrite !list_lookup_insert_ne in Hf by congruence.
      split.
      * exists ppx, ppy. unfold PrincipalPointX, PrincipalPointY.
        change (PrincipalPointIdxs (with_params c2 _))
          with (PrincipalPointIdxs c).
        rewrite Epp. unfold vget. simpl. unfold ps2.
        repeat split; try assumption; now read_back.
      * unfold focal_scaled. rewrite Ef. exists f. unfold FocalLength.
        change (FocalLengthIdxs (with_params c2 _)) with (FocalLengthIdxs c).
        rewrite Ef. unfold vget. simpl.
        split; [assumption|]. rewrite Hlen2 in Hf0. unfold ps2. now read_back.
  - (* two focal lengths *)
    apply bind_Some in Hr as (fx & Hfx & Hr).
    apply bind_Some in Hr as (c3 & H3 & Hr).
    apply bind_Some in Hr as (fy & Hfy & Hr).
    apply SetFocalLengthX_Some in H3 as (g0 & g1 & Ef3 & Hg0 & ->).
    apply SetFocalLengthY_Some in Hr as (g0' & g1' & Ef4 & Hg1 & ->).
    change (FocalLengthIdxs c2) with (FocalLengthIdxs c) in Ef3.
    change (FocalLengthIdxs (with_params c2 _)) with (FocalLengthIdxs c) in Ef4.
    rewrite Ef in Ef3, Ef4. injection Ef3 as <- <-. injection Ef4 as <- <-.
    unfold FocalLengthX in Hfx. unfold FocalLengthY in Hfy.
    change (FocalLengthIdxs c2) with (FocalLengthIdxs c) in Hfx.
    change (FocalLengthIdxs (with_params c2 _)) with (FocalLengthIdxs c) in Hfy.
    rewrite Ef in Hfx, Hfy. unfold vget in Hfx, Hfy. simpl in Hfx, Hfy, Hg0, Hg1.
    split; [reflexivity|]. split; [reflexivity|].
    split.
    + repeat split; simpl.
      * now rewrite !length_insert.
      * intros i Hif Hip. rewrite !list_lookup_insert_ne.
        -- now apply Hother2.
        -- differ.
        -- differ.
    + intros Hnd. rewrite Ef, Epp in Hnd. simpl in Hnd.
      apply NoDup_cons in Hnd as [Hf0n Hnd].
      apply NoDup_cons in Hnd as [Hf1n Hnd].
      apply NoDup_cons in Hnd as [Hp0n _].
      assert (f0 <> f1) by differ.
      assert (f0 <> p0) by differ.
      assert (f0 <> p1) by differ.
      assert (f1 <> p0) by differ.
      assert (f1 <> p1) by differ.
      assert (p0 <> p1) by differ.
      unfold ps2 in Hppy, Hfx, Hfy.
      rewrite list_lookup_insert_ne in Hppy by congruence.
      rewrite !list_lookup_insert_ne in Hfx by congruence.
      rewrite !list_lookup_insert_ne in Hfy by congruence.
      rewrite Hlen2 in Hg0. rewrite length_insert, Hlen2 in Hg1.
      split.
      * exists ppx, ppy. unfold PrincipalPointX, PrincipalPointY.
        change (PrincipalPointIdxs (with_params (with_params c2 _) _))
          with (PrincipalPointIdxs c).
        rewrite Epp. unfold vget. simpl. unfold ps2.
        repeat split; try assumption; now read_back.
      * unfold focal_scaled. rewrite Ef. exists fx, fy.
        unfold FocalLengthX, FocalLengthY.
        change (FocalLengthIdxs (with_params (with_params c2 _) _))
          with (FocalLengthIdxs c).
        rewrite Ef. unfold vget. simpl. unfold ps2.
        repeat split; try assumption; now read_back.
Qed.

Lemma Rescale_spec (c : Camera F) :
  (forall scale c', Rescale c scale = Some c' ->
     width c' = to_Z (fround (scale * of_Z (width c))) /\
     height c' = to_Z (fround (scale * of_Z (height c))) /\
     rescaled c c' (fround (scale * of_Z (width c)) / of_Z (width c))
                   (fround (scale * of_Z (height c)) / of_Z (height c))) /\
  (forall new_width new_height c',
     RescaleTo c new_width new_height = Some c' ->
     width c' = new_width /\ height c' = new_height /\
     rescaled c c' (of_Z new_width / of_Z (width c))
                   (of_Z new_height / of_Z (height c))).
Proof.
  split.
  - intros scale c' Hr. unfold Rescale in Hr.
    apply bind_Some in Hr as ([] & _ & Hr).
    apply rescale_params_spec in Hr as (Hw & Hh & Hres).
    split; [exact Hw|]. split; [exact Hh|]. exact Hres.
  - intros w h c' Hr. unfold RescaleTo in Hr.
    apply rescale_params_spec in Hr as (Hw & Hh & Hres).
    split; [exact Hw|]. split; [exact Hh|]. exact Hres.
Qed.

(** C9: both overloads of Rescale change only the width, the height and,
    in the intrinsic parameter vector, the principal point and the focal
    length or lengths, which they multiply by the ratio of the new size
    to the old one (the mean of the two ratios for a single focal
    length); the identifier, the intrinsic model, the refraction model and
    the whole refraction parameter vector are left as they are. *)
Theorem Rescale_changes_only_size_and_intrinsics (c : Camera F) :
  (forall scale c', Rescale c scale = Some c' ->
     width c' = to_Z (fround (scale * of_Z (width c))) /\
     height c' = to_Z (fround (scale * of_Z (height c))) /\
     rescaled c c' (fround (scale * of_Z (width c)) / of_Z (width c))
                   (fround (scale * of_Z (height c)) / of_Z (height c))) /\
  (forall new_width new_height c',
     RescaleTo c new_width new_height = Some c' ->
     width c' = new_width /\ height c' = new_height /\
     rescaled c c' (of_Z new_width / of_Z (width c))
                   (of_Z new_height / of_Z (height c))).
Proof. exact (Rescale_spec c). Qed.

End RescaleFacts.

Section AssignmentFacts.
Context {F : Type} {SF : Scalar F} {MF : Models F}.

Lemma assign_cases (c : Camera F) (a : Assignment F) :
  ((assign c a).1 = true <-> validates c a = true) /\
  (validates c a = false -> assign c a = (false, c)) /\
  (validates c a = true -> assign c a = (true, assigned c a)).
Proof.
  destruct a as [s|v|s|v]; simpl;
    unfold SetParamsFromString, SetParams, SetRefracParamsFromString,
      SetRefracParams;
    match goal with
    | |- context [negb ?b] => destruct b eqn:E
    | |- context [if ?b then _ else _] => destruct b eqn:E
    end; simpl; repeat split; intros; congruence.
Qed.

(** C4: an assignment of parameters, from text or from a numeric vector,
    to the intrinsic or to the refraction model, succeeds exactly when the
    validator of the selected variant accepts the vector; when it rejects,
    the call returns false and the camera is left as it was.  The call is
    total: it never aborts. *)
Theorem assignment_is_validated (c : Camera F) (a : Assignment F) :
  ((assign c a).1 = true <-> validates c a = true) /\
  (validates c a = false -> assign c a = (false, c)) /\
  (validates c a = true -> assign c a = (true, assigned c a)).
Proof. exact (assign_cases c a). Qed.

Lemma assign_model_ids (c : Camera F) (a : Assignment F) :
  model_id (assign c a).2 = model_id c /\
  refrac_model_id (assign c a).2 = refrac_model_id c.
Proof.
  destruct (assign_cases c a) as (_ & Hrej & Hacc).
  destruct (validates c a) eqn:E.
  - rewrite Hacc by reflexivity. destruct a; simpl; auto.
  - rewrite Hrej by reflexivity. auto.
Qed.

Lemma assign_params_sized (c : Camera F) (a : Assignment F) :
  validators_check_length ->
  (params_sized c -> params_sized (assign c a).2) /\
  (refrac_params_sized c -> refrac_params_sized (assign c a).2).
Proof.
  intros [Hv Hrv].
  destruct (assign_cases c a) as (_ & Hrej & Hacc).
  destruct (validates c a) eqn:E.
  - rewrite Hacc by reflexivity.
    unfold params_sized, refrac_params_sized.
    destruct a; simpl in *; split; intros; auto.
  - rewrite Hrej by reflexivity. auto.
Qed.

Lemma select_intrinsic_spec (c c' : Camera F) (o : Op F) (id : Z) :
  selects_intrinsic o = Some id ->
  apply_op c o = Some c' ->
  model_id c' = id /\
  params c' = resize (CameraModelNumParams id) (params c) /\
  refrac_model_id c' = refrac_model_id c /\
  refrac_params c' = refrac_params c.
Proof.
  destruct o; simpl; try discriminate; intros [= <-];
    unfold SetModelId, SetModelIdFromName; intros Hs;
    apply bind_Some in Hs as ([] & _ & [= <-]); simpl; auto.
Qed.

Lemma select_refrac_spec (c c' : Camera F) (o : Op F) (id : Z) :
  selects_refrac o = Some id ->
  apply_op c o = Some c' ->
  refrac_model_id c' = id /\
  refrac_params c' = resize (CameraRefracModelNumParams id) (refrac_params c) /\
  model_id c' = model_id c /\
  params c' = params c.
Proof.
  destruct o; simpl; try discriminate; intros [= <-];
    unfold SetRefracModelId, SetRefracModelIdFromName; intros Hs;
    apply bind_Some in Hs as ([] & _ & [= <-]); simpl; auto.
Qed.

Lemma initialize_spec (c c' : Camera F) (o : Op F) (id : Z) :
  initializes o = Some id ->
  apply_op c o = Some c' ->
  model_id c' = id /\
  (exists focal_length w h,
     params c' = CameraModelInitializeParams id focal_length w h /\
     width c' = w /\ height c' = h) /\
  refrac_model_id c' = refrac_model_id c /\
  refrac_params c' = refrac_params c.
Proof.
  destruct o; simpl; try discriminate; intros [= <-];
    unfold InitializeWithName, InitializeWithId; intros Hs;
    apply bind_Some in Hs as ([] & _ & [= <-]); simpl; eauto 10.
Qed.

(** What [v.resize(n, 0)] leaves, entry by entry. *)
Lemma resize_entries (n : nat) (v : list F) :
  resize n v = take n v ++ replicate (n - length v) (lit 0) /\
  length (resize n v) = n /\
  (forall i, (i < n)%nat ->
     resize n v !! i =
     if decide (i < length v)%nat then v !! i else Some (lit 0)) /\
  (v = [] -> resize n v = replicate n (lit 0)).
Proof.
  split; [reflexivity|]. split; [apply resize_length|]. split.
  - intros i Hi. destruct (decide _).
    + now apply resize_lookup_old.
    + apply resize_lookup_new. lia.
  - intros ->. apply resize_nil.
Qed.

Lemma apply_op_params_sized (c c' : Camera F) (o : Op F) :
  validators_check_length -> initializers_sized ->
  apply_op c o = Some c' ->
  (params_sized c \/ is_Some (selects_intrinsic o) \/ is_Some (initializes o) ->
   params_sized c') /\
  (refrac_params_sized c \/ is_Some (selects_refrac o) ->
   refrac_params_sized c').
Proof.
  intros Hv Hinit Ha.
  destruct (selects_intrinsic o) as [id|] eqn:Ei.
  { destruct (select_intrinsic_spec _ _ _ _ Ei Ha) as (Hm & Hp & Hrm & Hrp).
    unfold params_sized, refrac_params_sized.
    rewrite Hm, Hp, Hrm, Hrp.
    split; [intros _; apply resize_length|].
    intros [Hs|Hs]; [exact Hs|].
    destruct o; simpl in *; try discriminate; now destruct Hs. }
  destruct (initializes o) as [id|] eqn:Ez.
  { destruct (initialize_spec _ _ _ _ Ez Ha)
      as (Hm & (f & w & h & Hp & _) & Hrm & Hrp).
    unfold params_sized, refrac_params_sized.
    rewrite Hm, Hp, Hrm, Hrp.
    split; [intros _; apply Hinit|].
    intros [Hs|Hs]; [exact Hs|].
    destruct o; simpl in *; try discriminate; now destruct Hs. }
  destruct (selects_refrac o) as [id|] eqn:Er.
  { destruct (select_refrac_spec _ _ _ _ Er Ha) as (Hm & Hp & Hrm & Hrp).
    unfold params_sized, refrac_params_sized.
    rewrite Hm, Hp, Hrm, Hrp.
    split; [|intros _; apply resize_length].
    intros [Hs|[Hs|Hs]]; [exact Hs|now destruct Hs|now destruct Hs]. }
  assert (Hpres : (params_sized c -> params_sized c') /\
                  (refrac_params_sized c -> refrac_params_sized c')).
  { destruct o as [| | | |a|scale|w h| |]; simpl in *; try discriminate.
    - injection Ha as <-. now apply assign_params_sized.
    - destruct (Rescale_spec c) as [Hr _].
      destruct (Hr _ _ Ha) as (_ & _ & (_ & Hm & _ & Hrm & Hrp & Hl & _) & _).
      unfold params_sized, refrac_params_sized.
      rewrite Hm, Hrm, Hrp, Hl. auto.
    - destruct (Rescale_spec c) as [_ Hr].
      destruct (Hr _ _ _ Ha) as (_ & _ & (_ & Hm & _ & Hrm & Hrp & Hl & _) & _).
      unfold params_sized, refrac_params_sized.
      rewrite Hm, Hrm, Hrp, Hl. auto. }
  destruct Hpres as [H1 H2].
  split.
  - intros [Hs|[Hs|Hs]]; [auto|destruct Hs; discriminate
                          |destruct Hs; discriminate].
  - intros [Hs|Hs]; [auto|destruct Hs; discriminate].
Qed.

Lemma run_ops_params_sized (ops : list (Op F)) :
  validators_check_length -> initializers_sized ->
  forall c c', run_ops c ops = Some c' ->
  (params_sized c \/
   Exists (fun o => is_Some (selects_intrinsic o) \/ is_Some (initializes o))
          ops ->
   params_sized c') /\
  (refrac_params_sized c \/ Exists (fun o => is_Some (selects_refrac o)) ops ->
   refrac_params_sized c').
Proof.
  intros Hv Hinit. induction ops as [|o ops IH]; intros c c' Hrun;
    simpl in Hrun.
  - injection Hrun as <-.
    split; (intros [Hs|Hs]; [exact Hs|inversion Hs]).
  - apply bind_Some in Hrun as (c1 & Ha & Hrun).
    destruct (apply_op_params_sized _ _ _ Hv Hinit Ha) as [H1 H2].
    destruct (IH _ _ Hrun) as [IH1 IH2].
    split.
    + intros [Hs|Hs]; [apply IH1; left; apply H1; now left|].
      apply Exists_cons in Hs as [Hs|Hs];
        [apply IH1; left; apply H1; now right|apply IH1; now right].
    + intros [Hs|Hs]; [apply IH2; left; apply H2; now left|].
      apply Exists_cons in Hs as [Hs|Hs];
        [apply IH2; left; apply H2; now right|apply IH2; now right].
Qed.


End AssignmentFacts.

(** ** Batch synthesis of virtual cameras *)

Section ComputeVirtualsFacts.
Context {F : Type} {SF : Scalar F} {MF : Models F}.

Lemma ComputeVirtuals_mapM (c : Camera F) (points2D : list (Vector2d F)) :
  forall vcs vfrs,
    ComputeVirtuals c points2D vcs vfrs =
    l ← mapM (ComputeVirtual c) points2D; Some (vcs ++ l.*1, vfrs ++ l.*2).
Proof.
  induction points2D as [|p rest IH]; intros vcs vfrs; simpl.
  - now rewrite !app_nil_r.
  - destruct (ComputeVirtual c p) as [r|]; simpl; [|reflexivity].
    rewrite IH. destruct (mapM (ComputeVirtual c) rest) as [l|]; simpl;
      [|reflexivity].
    now rewrite <- !app_assoc.
Qed.

Lemma ComputeVirtuals_Some (c : Camera F) (points2D : list (Vector2d F))
    (vcs vcs' : list (Camera F)) (vfrs vfrs' : list (Rigid3d F)) :
  ComputeVirtuals c points2D vcs vfrs = Some (vcs', vfrs') ->
  (exists l,
     Forall2 (fun p r => ComputeVirtual c p = Some r) points2D l /\
     vcs' = vcs ++ l.*1 /\ vfrs' = vfrs ++ l.*2) /\
  length vcs' = (length vcs + length points2D)%nat /\
  length vfrs' = (length vfrs + length points2D)%nat /\
  (length vcs' = length points2D <-> vcs = []) /\
  (length vfrs' = length points2D <-> vfrs = []).
Proof.
  rewrite ComputeVirtuals_mapM. intros Hc.
  apply bind_Some in Hc as (l & Hl & [= <- <-]).
  pose proof (length_mapM _ _ _ Hl) as Hlen.
  apply mapM_Some in Hl.
  split; [exists l; auto|].
  rewrite !length_app, !length_fmap, <- Hlen.
  split; [reflexivity|]. split; [reflexivity|].
  split; (split; [intros E; apply length_zero_iff_nil; lia
                 |intros ->; simpl; lia]).
Qed.

(** The two calls at the end of GenerateRandom2D2DPoints pass the vectors of
    the data set as they are: what they held is kept in front. *)
Lemma compute_virtuals_sizes (c : Camera F) (pd pd' : PointsData F) :
  compute_virtuals c pd = Returned pd' ->
  length (virtual_cameras1 pd') =
    (length (virtual_cameras1 pd) + length (points2D1_refrac pd))%nat /\
  length (virtual_from_reals1 pd') =
    (length (virtual_from_reals1 pd) + length (points2D1_refrac pd))%nat /\
  length (virtual_cameras2 pd') =
    (length (virtual_cameras2 pd) + length (points2D2_refrac pd))%nat /\
  length (virtual_from_reals2 pd') =
    (length (virtual_from_reals2 pd) + length (points2D2_refrac pd))%nat.
Proof.
  unfold compute_virtuals.
  destruct (ComputeVirtuals c (points2D1_refrac pd) _ _) as [[a1 b1]|] eqn:E1;
    [|discriminate].
  destruct (ComputeVirtuals c (points2D2_refrac pd) _ _) as [[a2 b2]|] eqn:E2;
    [|discriminate].
  intros [= <-]. simpl.
  apply ComputeVirtuals_Some in E1 as (_ & H1 & H2 & _).
  apply ComputeVirtuals_Some in E2 as (_ & H3 & H4 & _).
  auto.
Qed.

(** C10: ComputeVirtuals appends.  When the call returns, each output
    vector is what it held before the call followed by one entry per input
    pixel, in the order of the pixels; its size is the old size plus the
    number of pixels, and it has one entry per pixel only if the caller
    passed it in empty.  GenerateRandom2D2DPoints passes the vectors of its
    data set without clearing them, so they grow in the same way. *)
Theorem ComputeVirtuals_appends (c : Camera F) :
  (forall (points2D : list (Vector2d F))
          (vcs vcs' : list (Camera F)) (vfrs vfrs' : list (Rigid3d F)),
     ComputeVirtuals c points2D vcs vfrs = Some (vcs', vfrs') ->
     (exists l,
        Forall2 (fun p r => ComputeVirtual c p = Some r) points2D l /\
        vcs' = vcs ++ l.*1 /\ vfrs' = vfrs ++ l.*2) /\
     length vcs' = (length vcs + length points2D)%nat /\
     length vfrs' = (length vfrs + length points2D)%nat /\
     (length vcs' = length points2D <-> vcs = []) /\
     (length vfrs' = length points2D <-> vfrs = [])) /\
  (forall pd pd' : PointsData F,
     compute_virtuals c pd = Returned pd' ->
     length (virtual_cameras1 pd') =
       (length (virtual_cameras1 pd) + length (points2D1_refrac pd))%nat /\
     length (virtual_from_reals1 pd') =
       (length (virtual_from_reals1 pd) + length (points2D1_refrac pd))%nat /\
     length (virtual_cameras2 pd') =
       (length (virtual_cameras2 pd) + length (points2D2_refrac pd))%nat /\
     length (virtual_from_reals2 pd') =
       (length (virtual_from_reals2 pd) + length (points2D2_refrac pd))%nat).
Proof.
  split.
  - intros points2D vcs vcs' vfrs vfrs'. apply ComputeVirtuals_Some.
  - intros pd pd'. apply compute_virtuals_sizes.
Qed.

End ComputeVirtualsFacts.

(** ** Generation of synthetic correspondences *)

Section GenerationFacts.
Context {F : Type} {SF : Scalar F} {MF : Models F} {PF : PRNG F}.
Variables (camera : Camera F) (num_points : Z) (gt : Rigid3d F)
          (noise_level : F) (num_inliers : Z).

Local Abbreviation loop fuel :=
  (GenerateLoop fuel camera num_points gt noise_level num_inliers).
Local Abbreviation collected :=
  (collects camera num_points gt noise_level num_inliers).

Lemma extends_nil (pd : PointsData F) : extends pd pd [].
Proof. unfold extends. simpl. now rewrite !app_nil_r. Qed.

Lemma extends_push (pd pd' : PointsData F) (s : Sample F) l :
  extends (push_sample pd s) pd' l -> extends pd pd' (s :: l).
Proof.
  unfold extends. simpl. rewrite <- !app_assoc. simpl. tauto.
Qed.

Lemma rejected_tests (c : Candidate F) :
  rejected camera c =
  if is_nan_pixel (cand_point2D2_refrac c) then true
  else out_of_image camera (cand_point2D2_refrac c).
Proof. unfold rejected. now destruct (is_nan_pixel _). Qed.

Lemma perturb_noised (cnt : Z) (s : Sample F) :
  perturb noise_level num_inliers cnt s =
  noised (stddev_of noise_level num_inliers cnt) s.
Proof.
  unfold perturb, noised, stddev_of.
  destruct (cnt <? num_inliers)%Z; [|reflexivity].
  now destruct (flt (lit 0) noise_level).
Qed.

(** One pass of the loop body. *)
Lemma loop_step (fuel : nat) (cnt : Z) (pd : PointsData F) (g : rng) :
  loop (S fuel) cnt pd g =
  if (cnt >=? num_points)%Z then (Some pd, g)
  else
    let r := SampleCandidate camera gt g in
    if rejected camera r.1 then loop fuel cnt pd r.2
    else
      let n := noised (stddev_of noise_level num_inliers cnt)
                      (project_candidate camera r.1) r.2 in
      loop fuel (size_t_wrap (cnt + 1)) (push_sample pd n.1) n.2.
Proof.
  simpl. destruct (cnt >=? num_points)%Z; [reflexivity|].
  unfold rbind at 1. cbv zeta. rewrite rejected_tests.
  destruct (is_nan_pixel _); [reflexivity|].
  destruct (out_of_image _ _); [reflexivity|].
  unfold rbind at 1. now rewrite perturb_noised.
Qed.

Lemma wrap_succ (cnt : Z) :
  (0 <= cnt < num_points)%Z -> (num_points < size_t_max)%Z ->
  size_t_wrap (cnt + 1) = (cnt + 1)%Z.
Proof. intros. unfold size_t_wrap. apply Z.mod_small. lia. Qed.

Hypothesis num_points_size_t : (0 <= num_points < size_t_max)%Z.

Lemma loop_collects (fuel : nat) :
  forall cnt pd g pd' g',
    (0 <= cnt)%Z ->
    loop fuel cnt pd g = (Some pd', g') ->
    exists l, collected cnt g l g' /\ extends pd pd' l.
Proof.
  induction fuel as [|fuel IH]; intros cnt pd g pd' g' Hcnt Hl.
  - discriminate.
  - rewrite loop_step in Hl.
    destruct (Z.geb_spec cnt num_points) as [Hge|Hlt].
    + injection Hl as <- <-. exists []. split; [|apply extends_nil].
      constructor. lia.
    + cbv zeta in Hl.
      destruct (SampleCandidate camera gt g) as [c g1] eqn:Es. simpl in Hl.
      destruct (rejected camera c) eqn:Er.
      * destruct (IH _ _ _ _ _ Hcnt Hl) as (l & Hc & He).
        exists l. split; [|exact He].
        eapply collects_reject; eauto.
      * destruct (noised _ _ g1) as [s g2] eqn:En. simpl in Hl.
        rewrite wrap_succ in Hl by lia.
        assert (Hcnt1 : (0 <= cnt + 1)%Z) by lia.
        destruct (IH _ _ _ _ _ Hcnt1 Hl) as (l & Hc & He).
        exists (s :: l). split; [|now apply extends_push].
        eapply collects_accept; eauto.
Qed.

Lemma collects_length cnt g l g' :
  collected cnt g l g' -> (cnt <= num_points)%Z ->
  Z.of_nat (length l) = (num_points - cnt)%Z.
Proof.
  induction 1; intros Hle; simpl; lia.
Qed.

(** The sample of index [i] comes from an accepted candidate and carries
    the noise of the index [cnt + i]. *)
Lemma collects_lookup cnt g l g' :
  collected cnt g l g' ->
  forall (i : nat) s, l !! i = Some s ->
  exists g0 c g1,
    SampleCandidate camera gt g0 = (c, g1) /\
    rejected camera c = false /\
    s = (noised (stddev_of noise_level num_inliers (cnt + Z.of_nat i))
                (project_candidate camera c) g1).1.
Proof.
  induction 1 as [| |cnt g c g1 s g2 l g' Hlt Hs Hr Hn Hc IH];
    intros i s' Hi.
  - discriminate.
  - eauto.
  - destruct i as [|i]; simpl in Hi.
    + injection Hi as <-. exists g, c, g1.
      rewrite Z.add_0_r, Hn. auto.
    + destruct (IH _ _ Hi) as (g0 & c0 & g10 & H1 & H2 & H3).
      exists g0, c0, g10. repeat split; try assumption.
      rewrite H3. do 3 f_equal. lia.
Qed.

Lemma rejects_S (n : nat) (g : rng) :
  rejects (S n) camera gt g =
  rejected camera (SampleCandidate camera gt g).1 &&
  rejects n camera gt (SampleCandidate camera gt g).2.
Proof. reflexivity. Qed.

Lemma accepts_within_S (k : nat) (g : rng) :
  accepts_within (S k) camera gt g =
  if rejected camera (SampleCandidate camera gt g).1
  then accepts_within k camera gt (SampleCandidate camera gt g).2
  else true.
Proof. reflexivity. Qed.

(** While candidates are rejected the loop keeps running: no bound on the
    number of attempts ends it. *)
Lemma loop_rejects (n : nat) :
  forall fuel cnt pd g,
    (cnt < num_points)%Z -> (fuel <= n)%nat ->
    rejects n camera gt g = true ->
    (loop fuel cnt pd g).1 = None.
Proof.
  induction n as [|n IH]; intros fuel cnt pd g Hcnt Hfuel Hrej.
  - replace fuel with O by lia. reflexivity.
  - destruct fuel as [|fuel]; [reflexivity|].
    rewrite loop_step.
    destruct (Z.geb_spec cnt num_points) as [Hge'|Hlt']; [lia|].
    rewrite rejects_S in Hrej. apply andb_true_iff in Hrej as [Hr Hrest].
    cbv zeta. rewrite Hr. apply IH; [assumption|lia|assumption].
Qed.

(** If acceptable samples keep occurring, the loop ends. *)
Lemma loop_ends_after_accept (k : nat) :
  forall cnt pd g,
    (0 <= cnt < num_points)%Z ->
    accepts_within k camera gt g = true ->
    (forall pd1 g1, exists fuel, is_Some (loop fuel (cnt + 1)%Z pd1 g1).1) ->
    exists fuel, is_Some (loop fuel cnt pd g).1.
Proof.
  induction k as [|k IH]; intros cnt pd g Hcnt Hacc Hnext; [discriminate|].
  rewrite accepts_within_S in Hacc.
  destruct (rejected camera (SampleCandidate camera gt g).1) eqn:Er.
  - destruct (IH cnt pd _ Hcnt Hacc Hnext) as [fuel Hf].
    exists (S fuel). rewrite loop_step.
    destruct (Z.geb_spec cnt num_points) as [Hge'|Hlt']; [lia|].
    cbv zeta. now rewrite Er.
  - set (n := noised (stddev_of noise_level num_inliers cnt)
                     (project_candidate camera (SampleCandidate camera gt g).1)
                     (SampleCandidate camera gt g).2).
    destruct (Hnext (push_sample pd n.1) n.2) as [fuel Hf].
    exists (S fuel). rewrite loop_step.
    destruct (Z.geb_spec cnt num_points) as [Hge'|Hlt']; [lia|].
    cbv zeta. rewrite Er. fold n. now rewrite wrap_succ by lia.
Qed.

Lemma loop_ends :
  keeps_accepting camera gt ->
  forall (m : nat) cnt pd g,
    (0 <= cnt)%Z -> (num_points - cnt <= Z.of_nat m)%Z ->
    exists fuel, is_Some (loop fuel cnt pd g).1.
Proof.
  intros Hk. induction m as [|m IH]; intros cnt pd g Hcnt Hm.
  - exists 1%nat. rewrite loop_step.
    destruct (Z.geb_spec cnt num_points) as [Hge'|Hlt']; [simpl; eauto|lia].
  - destruct (Z_lt_le_dec cnt num_points) as [Hlt|Hge].
    + destruct (Hk g) as [k Hacc].
      apply (loop_ends_after_accept k); [lia|assumption|].
      intros pd1 g1. apply IH; lia.
    + exists 1%nat. rewrite loop_step.
      destruct (Z.geb_spec cnt num_points) as [Hge'|Hlt']; [simpl; eauto|lia].
Qed.

End GenerationFacts.

Section GenerationTheorems.
Context {F : Type} {SF : Scalar F} {MF : Models F} {PF : PRNG F}.

Lemma generate_returned (fuel : nat) (camera : Camera F) (num_points : Z)
    (gt : Rigid3d F) (pd : PointsData F) (noise_level inlier_ratio : F)
    (g : rng) (pd' : PointsData F) (g' : rng) :
  GenerateRandom2D2DPoints fuel camera num_points gt pd noise_level
                           inlier_ratio g = (Returned pd', g') ->
  exists pd1,
    GenerateLoop fuel camera num_points gt noise_level
                 (NumInliers num_points inlier_ratio) 0
                 (reset_points pd gt) g = (Some pd1, g') /\
    compute_virtuals camera pd1 = Returned pd'.
Proof.
  unfold GenerateRandom2D2DPoints, rbind.
  destruct (GenerateLoop _ _ _ _ _ _ _ _ g) as [[pd1|] g1]; cbn.
  - unfold rret. intros [= Hc <-]. eauto.
  - discriminate.
Qed.

Lemma compute_virtuals_points (camera : Camera F) (pd pd' : PointsData F) :
  compute_virtuals camera pd = Returned pd' ->
  points2D1 pd' = points2D1 pd /\ points2D2 pd' = points2D2 pd /\
  points2D1_refrac pd' = points2D1_refrac pd /\
  points2D2_refrac pd' = points2D2_refrac pd /\
  cam2_from_cam1_gt pd' = cam2_from_cam1_gt pd.
Proof.
  unfold compute_virtuals.
  destruct (ComputeVirtuals _ _ _ _) as [v1|]; [|discriminate].
  destruct (ComputeVirtuals _ _ _ _) as [v2|]; [|discriminate].
  intros [= <-]. simpl. auto.
Qed.

Lemma generate_well_generated (fuel : nat) (camera : Camera F) (num_points : Z)
    (gt : Rigid3d F) (pd : PointsData F) (noise_level inlier_ratio : F)
    (g : rng) (pd' : PointsData F) (g' : rng) :
  (0 <= num_points < size_t_max)%Z ->
  GenerateRandom2D2DPoints fuel camera num_points gt pd noise_level
                           inlier_ratio g = (Returned pd', g') ->
  well_generated camera num_points gt noise_level inlier_ratio g pd' g'.
Proof.
  intros Hn Hg. apply generate_returned in Hg as (pd1 & Hloop & Hcv).
  apply loop_collects in Hloop as (l & Hc & He); [|assumption|lia].
  destruct He as (E1 & E2 & E3 & E4 & _ & _ & _ & _ & E5). simpl in *.
  apply compute_virtuals_points in Hcv as (C1 & C2 & C3 & C4 & C5).
  exists l. split; [exact Hc|].
  split; [rewrite (collects_length _ _ _ _ _ _ _ _ _ Hc); lia|].
  rewrite C1, C2, C3, C4, C5. repeat split; try assumption.
  intros i s Hi.
  destruct (collects_lookup _ _ _ _ _ _ _ _ _ Hc i s Hi)
    as (g0 & c & g1 & H1 & H2 & H3).
  exists g0, c, g1. now rewrite Z.add_0_l in H3.
Qed.

Lemma generate_ends (camera : Camera F) (num_points : Z) (gt : Rigid3d F)
    (pd : PointsData F) (noise_level inlier_ratio : F) (g : rng) :
  (0 <= num_points < size_t_max)%Z ->
  keeps_accepting camera gt ->
  exists fuel,
    (GenerateRandom2D2DPoints fuel camera num_points gt pd noise_level
                              inlier_ratio g).1 <> OutOfFuel.
Proof.
  intros Hn Hk.
  destruct (loop_ends camera num_points gt noise_level
              (NumInliers num_points inlier_ratio) Hn Hk
              (Z.to_nat num_points) 0%Z (reset_points pd gt) g)
    as [fuel [pd1 Hf]]; [lia|lia|].
  exists fuel. unfold GenerateRandom2D2DPoints, rbind.
  rewrite Hf. unfold rret, compute_virtuals. simpl.
  repeat destruct (ComputeVirtuals _ _ _ _); discriminate.
Qed.

Lemma generate_never_ends (camera : Camera F) (num_points : Z) (gt : Rigid3d F)
    (pd : PointsData F) (noise_level inlier_ratio : F) :
  (0 < num_points)%Z ->
  (forall g, rejected camera (SampleCandidate camera gt g).1 = true) ->
  forall fuel g,
    (GenerateRandom2D2DPoints fuel camera num_points gt pd noise_level
                              inlier_ratio g).1 = OutOfFuel.
Proof.
  intros Hn Hrej fuel g.
  assert (Hall : forall n g0, rejects n camera gt g0 = true).
  { induction n as [|n IH]; intros g0; [reflexivity|].
    rewrite rejects_S, Hrej, IH. reflexivity. }
  unfold GenerateRandom2D2DPoints, rbind.
  rewrite (loop_rejects camera num_points gt noise_level _ fuel fuel 0%Z
             (reset_points pd gt) g Hn (Nat.le_refl _) (Hall _ _)).
  reflexivity.
Qed.

End GenerationTheorems.

Section NumInliersReal.
Import RealScalar.

(** Over the reals the number of inliers is the floor of
    [num_points * inlier_ratio], the ratio being non-negative. *)
Lemma NumInliers_floor (num_points : Z) (inlier_ratio : R) :
  (0 <= IZR num_points * inlier_ratio)%R ->
  (IZR (NumInliers num_points inlier_ratio) <= IZR num_points * inlier_ratio
   < IZR (NumInliers num_points inlier_ratio) + 1)%R.
Proof.
  intros Hpos. unfold NumInliers. simpl. unfold Rtrunc.
  destruct (Rle_dec 0 (IZR num_points * inlier_ratio)) as [_|Hn];
    [|contradiction].
  destruct (base_Int_part (IZR num_points * inlier_ratio)) as [H1 H2].
  split; lra.
Qed.

End NumInliersReal.

Section GenerationRefinement.
Context {F : Type} {SF : Scalar F} {MF : Models F} {PF : PRNG F}.

Lemma SampleCandidate_is_spec (camera : Camera F) (gt : Rigid3d F) (g : rng) :
  SampleCandidate camera gt g = spec_candidate camera gt g.
Proof. reflexivity. Qed.

Lemma rejected_is_spec (camera : Camera F) (c : Candidate F) :
  rejected camera c = spec_unacceptable camera (cand_point2D2_refrac c).
Proof.
  unfold rejected, is_nan_pixel, out_of_image, spec_unacceptable.
  now rewrite !orb_assoc.
Qed.

Lemma stddev_of_is_spec (noise_level : F) (num_inliers i : Z) :
  stddev_of noise_level num_inliers i = spec_stddev noise_level num_inliers i.
Proof. reflexivity. Qed.

Lemma noised_is_spec (stddev : option F) (camera : Camera F)
    (c : Candidate F) (g : rng) :
  noised stddev (project_candidate camera c) g =
  spec_noise stddev (spec_sample camera c) g.
Proof. destruct stddev; reflexivity. Qed.

Lemma collects_is_spec (camera : Camera F) (num_points : Z) (gt : Rigid3d F)
    (noise_level : F) (num_inliers : Z) cnt g l g' :
  collects camera num_points gt noise_level num_inliers cnt g l g' ->
  spec_collects camera num_points gt noise_level num_inliers cnt g l g'.
Proof.
  induction 1 as [cnt g Hle|cnt g c g1 l g' Hlt Hs Hr _ IH
                 |cnt g c g1 s g2 l g' Hlt Hs Hr Hn _ IH].
  - now constructor.
  - rewrite SampleCandidate_is_spec in Hs. rewrite rejected_is_spec in Hr.
    apply spec_collects_reject; [assumption|now rewrite Hs|now rewrite Hs].
  - rewrite SampleCandidate_is_spec in Hs. rewrite rejected_is_spec in Hr.
    rewrite stddev_of_is_spec, noised_is_spec in Hn.
    assert (E1 : s = (spec_noise (spec_stddev noise_level num_inliers cnt)
                        (spec_sample camera (spec_candidate camera gt g).1)
                        (spec_candidate camera gt g).2).1)
      by now rewrite Hs; cbn [fst snd]; rewrite Hn.
    rewrite E1. apply spec_collects_accept; [assumption|now rewrite Hs|].
    rewrite Hs. cbn [fst snd]. now rewrite Hn.
Qed.

Lemma accepts_within_is_spec (k : nat) (camera : Camera F) (gt : Rigid3d F) :
  forall g, accepts_within k camera gt g = spec_accepts_within k camera gt g.
Proof.
  induction k as [|k IH]; intros g; [reflexivity|].
  cbn [accepts_within spec_accepts_within]. cbv zeta.
  rewrite rejected_is_spec, SampleCandidate_is_spec.
  destruct (spec_unacceptable _ _); [apply IH|reflexivity].
Qed.

(** What a returning call leaves, in the words of the specification. *)
Lemma generate_as_specified (fuel : nat) (camera : Camera F) (num_points : Z)
    (gt : Rigid3d F) (pd : PointsData F) (noise_level inlier_ratio : F)
    (g : rng) (pd' : PointsData F) (g' : rng) :
  (0 <= num_points < size_t_max)%Z ->
  GenerateRandom2D2DPoints fuel camera num_points gt pd noise_level
                           inlier_ratio g = (Returned pd', g') ->
  let num_inliers := to_Z (fmul (of_Z num_points) inlier_ratio) in
  exists l : list (Sample F),
    spec_collects camera num_points gt noise_level num_inliers 0 g l g' /\
    Z.of_nat (length l) = num_points /\
    points2D1 pd' = map s_point2D1 l /\
    points2D2 pd' = map s_point2D2 l /\
    points2D1_refrac pd' = map s_point2D1_refrac l /\
    points2D2_refrac pd' = map s_point2D2_refrac l /\
    cam2_from_cam1_gt pd' = gt /\
    forall (i : nat) (s : Sample F), l !! i = Some s ->
      exists g0,
        let c := spec_candidate camera gt g0 in
        spec_unacceptable camera (cand_point2D2_refrac c.1) = false /\
        s = (spec_noise (spec_stddev noise_level num_inliers (Z.of_nat i))
                        (spec_sample camera c.1) c.2).1.
Proof.
  intros Hn Hg num_inliers.
  destruct (generate_well_generated _ _ _ _ _ _ _ _ _ _ Hn Hg)
    as (l & Hc & Hlen & E1 & E2 & E3 & E4 & E5 & Hl).
  exists l. split; [now apply collects_is_spec|].
  repeat (split; [assumption|]).
  intros i s Hi. destruct (Hl i s Hi) as (g0 & c & g1 & Hs & Hr & Es).
  exists g0. cbv zeta. rewrite SampleCandidate_is_spec in Hs.
  rewrite Hs. cbn [fst snd]. rewrite rejected_is_spec in Hr.
  split; [exact Hr|]. now rewrite <- noised_is_spec.
Qed.

End GenerationRefinement.

Section NumInliersMachine.
Import Binary64.

(** Truncation is the floor on the doubles that are not negative. *)
Lemma b64_trunc_floor (x : double) :
  finite_nonneg x = true -> b64_trunc x = Qfloor (to_Q x).
Proof.
  destruct x as [s| | |s m e]; try discriminate; [reflexivity|].
  destruct s; [discriminate|]. intros _. unfold b64_trunc, to_Q.
  destruct (Z.leb_spec 0 e) as [He|He].
  - now rewrite Qfloor_Z.
  - unfold Qfloor. rewrite Z2Pos.id; [reflexivity|].
    apply Z.pow_pos_nonneg; lia.
Qed.

End NumInliersMachine.

Section GenerationStatement.
Import RealScalar Binary64.

(** C2: what a returning call of GenerateRandom2D2DPoints leaves is what the
    rejection sampling of the specification collects.  Each candidate is a
    pixel drawn uniformly in the image of view 1 with a depth drawn uniformly
    in [0.5, 10]; it is dropped, and another one drawn, when its refractive
    projection into view 2 has a NaN coordinate or lies outside
    [0, width] x [0, height]; the call returns with exactly num_points
    accepted samples, in the order of acceptance, in each of its four point
    vectors.  The accepted sample of index i carries, on each of its eight
    coordinates, a Gaussian draw of its own: of the configured deviation if i
    is below the number of inliers (no noise at all if that deviation is not
    positive), of deviation 200 otherwise.  The number of inliers is the
    product of num_points and inlier_ratio, computed in the arithmetic of
    the program and then truncated: over the reals the floor of the product,
    in binary64 the floor of the rounded product.  The call returns (or
    aborts in ComputeVirtuals) whenever acceptable candidates keep
    occurring. *)
Theorem GenerateRandom2D2DPoints_samples :
  (forall (F : Type) (SF : Scalar F) (MF : Models F) (PF : PRNG F)
          (camera : Camera F) (num_points : Z) (gt : Rigid3d F)
          (noise_level inlier_ratio : F),
     (0 <= num_points < size_t_max)%Z ->
     let num_inliers := to_Z (fmul (of_Z num_points) inlier_ratio) in
     (forall fuel pd g pd' g',
        GenerateRandom2D2DPoints fuel camera num_points gt pd noise_level
                                 inlier_ratio g = (Returned pd', g') ->
        (exists l : list (Sample F),
           spec_collects camera num_points gt noise_level num_inliers 0 g l g' /\
           Z.of_nat (length l) = num_points /\
           points2D1 pd' = map s_point2D1 l /\
           points2D2 pd' = map s_point2D2 l /\
           points2D1_refrac pd' = map s_point2D1_refrac l /\
           points2D2_refrac pd' = map s_point2D2_refrac l /\
           cam2_from_cam1_gt pd' = gt /\
           forall (i : nat) (s : Sample F), l !! i = Some s ->
             exists g0,
               let c := spec_candidate camera gt g0 in
               spec_unacceptable camera (cand_point2D2_refrac c.1) = false /\
               s = (spec_noise
                      (spec_stddev noise_level num_inliers (Z.of_nat i))
                      (spec_sample camera c.1) c.2).1) /\
        length (points2D1 pd') = Z.to_nat num_points /\
        length (points2D2 pd') = Z.to_nat num_points /\
        length (points2D1_refrac pd') = Z.to_nat num_points /\
        length (points2D2_refrac pd') = Z.to_nat num_points) /\
     (spec_keeps_accepting camera gt ->
      forall pd g, exists fuel,
        (GenerateRandom2D2DPoints fuel camera num_points gt pd noise_level
                                  inlier_ratio g).1 <> OutOfFuel)) /\
  (forall (num_points : Z) (inlier_ratio : R),
     (0 <= IZR num_points * inlier_ratio)%R ->
     (IZR (to_Z (fmul (of_Z num_points) inlier_ratio))
      <= IZR num_points * inlier_ratio
      < IZR (to_Z (fmul (of_Z num_points) inlier_ratio)) + 1)%R) /\
  (forall libm_acos libm_atan2 (num_points : Z) (inlier_ratio : double),
     let product :=
       fmul (Scalar := B64_Scalar libm_acos libm_atan2)
            (of_Z (Scalar := B64_Scalar libm_acos libm_atan2) num_points)
            inlier_ratio in
     finite_nonneg product = true ->
     to_Z (Scalar := B64_Scalar libm_acos libm_atan2) product =
     Qfloor (to_Q product)).
Proof.
  split; [|split].
  - intros F SF MF PF camera num_points gt noise_level inlier_ratio Hn
           num_inliers.
    split.
    + intros fuel pd g pd' g' Hg.
      pose proof (generate_as_specified _ _ _ _ _ _ _ _ _ _ Hn Hg) as Hw.
      split; [exact Hw|].
      destruct Hw as (l & _ & Hlen & E1 & E2 & E3 & E4 & _).
      rewrite E1, E2, E3, E4, !length_map. lia.
    + intros Hk pd g. apply generate_ends; [exact Hn|].
      intros g0. destruct (Hk g0) as [k Hacc]. exists k.
      now rewrite accepts_within_is_spec.
  - exact NumInliers_floor.
  - intros libm_acos libm_atan2 num_points inlier_ratio product Hp.
    now apply b64_trunc_floor.
Qed.

End GenerationStatement.

(** C3: the rejection loop of GenerateRandom2D2DPoints has no bound on its
    attempts.  As long as candidates are rejected it keeps running, with the
    count unchanged: after any number n of rejections in a row it has not
    ended.  So for a configuration in which no candidate passes the two
    tests, the call never returns, whatever the fuel.  When the loop ends it
    has accepted exactly num_points samples, and it does end whenever
    acceptable candidates keep occurring. *)
Theorem GenerateRandom2D2DPoints_loop_unbounded
    {F : Type} {SF : Scalar F} {MF : Models F} {PF : PRNG F}
    (camera : Camera F) (num_points : Z) (gt : Rigid3d F)
    (noise_level inlier_ratio : F) :
  (0 < num_points < size_t_max)%Z ->
  (forall n fuel cnt pd g,
     (cnt < num_points)%Z -> (fuel <= n)%nat ->
     rejects n camera gt g = true ->
     (GenerateLoop fuel camera num_points gt noise_level
                   (NumInliers num_points inlier_ratio) cnt pd g).1 = None) /\
  ((forall g, rejected camera (SampleCandidate camera gt g).1 = true) ->
   forall fuel pd g,
     (GenerateRandom2D2DPoints fuel camera num_points gt pd noise_level
                               inlier_ratio g).1 = OutOfFuel) /\
  (forall fuel pd g pd' g',
     GenerateLoop fuel camera num_points gt noise_level
                  (NumInliers num_points inlier_ratio) 0 pd g = (Some pd', g') ->
     exists l,
       collects camera num_points gt noise_level
                (NumInliers num_points inlier_ratio) 0 g l g' /\
       Z.of_nat (length l) = num_points /\ extends pd pd' l) /\
  (keeps_accepting camera gt ->
   forall pd g, exists fuel,
     (GenerateRandom2D2DPoints fuel camera num_points gt pd noise_level
                               inlier_ratio g).1 <> OutOfFuel).
Proof.
  intros Hn. split; [|split; [|split]].
  - intros n fuel cnt pd g Hcnt Hfuel Hrej. now apply (loop_rejects _ _ _ _ _ n).
  - intros Hrej fuel pd g. apply generate_never_ends; [lia|exact Hrej].
  - intros fuel pd g pd' g' Hl.
    apply loop_collects in Hl as (l & Hc & He); [|lia|lia].
    exists l. split; [exact Hc|]. split; [|exact He].
    rewrite (collects_length _ _ _ _ _ _ _ _ _ Hc); lia.
  - intros Hk pd g. apply generate_ends; [lia|exact Hk].
Qed.

(** ** Refraction switched off *)

Section NoRefraction.
Context {F : Type} {SF : Scalar F} {MF : Models F}.

Lemma no_refraction_id (c : Camera F) :
  IsCameraRefractive c = false ->
  (refrac_model_id c =? kInvalidRefractiveCameraModelId)%Z = true.
Proof. unfold IsCameraRefractive. now destruct (_ =? _)%Z. Qed.

(** Without a refraction model the refractive unprojection is the plain
    ray through the nominal centre, and both refractive maps are the
    intrinsic ones. *)
Lemma no_refraction_plain (c : Camera F) :
  IsCameraRefractive c = false ->
  (forall p, CamFromImgRefrac c p =
             MkRay3D Zero3 (CameraModelCamFromImg (model_id c) (params c) p)) /\
  (forall p, hnormalized (dir (CamFromImgRefrac c p)) = CamFromImg c p) /\
  (forall X, ImgFromCamRefrac c X =
             CameraModelImgFromCam (model_id c) (params c) X) /\
  (forall x, ImgFromCamRefrac c (homogeneous x) = ImgFromCam c x).
Proof.
  intros Hn. apply no_refraction_id in Hn.
  unfold CamFromImgRefrac, ImgFromCamRefrac, CameraRefracModelCamFromImg,
    CameraRefracModelImgFromCam, CamFromImg, ImgFromCam.
  rewrite Hn. auto.
Qed.

End NoRefraction.

Section NoRefractionReal.
Import RealScalar.

Lemma close2_refl (eps : R) (a : Vector2d R) : (0 <= eps)%R -> close2 eps a a.
Proof.
  intros He. unfold close2.
  rewrite !Rminus_diag, Rabs_R0. auto.
Qed.

(** C8: for a camera with no refraction model selected, CamFromImgRefrac
    returns the plain unprojected ray (origin at the nominal centre,
    direction the intrinsic unprojection of the pixel), and the refractive
    maps agree with the intrinsic ones: exactly, whatever the arithmetic,
    and so, over the reals, within 1e-9. *)
Theorem refraction_disabled_is_noop :
  (forall (F : Type) (SF : Scalar F) (MF : Models F) (c : Camera F),
     IsCameraRefractive c = false ->
     (forall p, CamFromImgRefrac c p =
                MkRay3D Zero3
                        (CameraModelCamFromImg (model_id c) (params c) p)) /\
     (forall p, hnormalized (dir (CamFromImgRefrac c p)) = CamFromImg c p) /\
     (forall x, ImgFromCamRefrac c (homogeneous x) = ImgFromCam c x)) /\
  (forall (MF : Models R) (c : Camera R),
     IsCameraRefractive c = false ->
     (forall p, close2 (/ 1000000000)
                       (hnormalized (dir (CamFromImgRefrac c p)))
                       (CamFromImg c p)) /\
     (forall x, close2 (/ 1000000000)
                       (ImgFromCamRefrac c (homogeneous x))
                       (ImgFromCam c x))).
Proof.
  split.
  - intros F SF MF c Hn.
    destruct (no_refraction_plain c Hn) as (H1 & H2 & _ & H4). auto.
  - intros MF c Hn.
    destruct (no_refraction_plain c Hn) as (_ & H2 & _ & H4).
    split; intros p; [rewrite H2|rewrite H4]; apply close2_refl; lra.
Qed.

End NoRefractionReal.

(** ** The virtual camera of one ray *)

Section VirtualCameraReal.
Import RealScalar.
Context {MF : Models R}.
Local Open Scope R_scope.

Lemma lit_0 : lit (F := R) 0 = 0.
Proof. unfold lit. simpl. unfold Q2R. simpl. lra. Qed.

Lemma lit_1 : lit (F := R) 1 = 1.
Proof. unfold lit. simpl. unfold Q2R. simpl. lra. Qed.

Lemma lit_2 : lit (F := R) 2 = 2.
Proof. unfold lit. simpl. unfold Q2R. simpl. lra. Qed.

Lemma lit_half : lit (F := R) (1 # 2) = / 2.
Proof. unfold lit. simpl. unfold Q2R. simpl. lra. Qed.

Lemma new_simple_pinhole (c : Camera R) :
  simple_pinhole_in_catalogue ->
  exists vc,
    SetModelIdFromName Camera_new "SIMPLE_PINHOLE" = Some vc /\
    model_id vc = CameraModelNameToId "SIMPLE_PINHOLE" /\
    width vc = 0%Z /\ height vc = 0%Z.
Proof.
  intros [Hex _]. unfold SetModelIdFromName. rewrite Hex. simpl. eauto.
Qed.

Lemma mean_of_one (i0 : nat) (a : R) (c : Camera R) :
  FocalLengthIdxs c = [i0] -> params c !! i0 = Some a ->
  MeanFocalLength c = Some a.
Proof.
  intros Hi Ha. unfold MeanFocalLength. rewrite Hi. simpl.
  unfold vget. rewrite Ha. simpl. f_equal. unfold lit, Q2R. simpl. field.
Qed.

Lemma mean_of_two (i0 i1 : nat) (a b : R) (c : Camera R) :
  FocalLengthIdxs c = [i0; i1] ->
  params c !! i0 = Some a -> params c !! i1 = Some b ->
  MeanFocalLength c = Some ((a + b) / 2).
Proof.
  intros Hi Ha Hb. unfold MeanFocalLength. rewrite Hi. simpl.
  unfold vget. rewrite Ha. simpl. rewrite Hb. simpl. f_equal.
  unfold lit, Q2R. simpl. field.
Qed.

Lemma VirtualCamera_spec (c : Camera R) (image_point cam_point : Vector2d R) :
  simple_pinhole_in_catalogue ->
  one_or_two_focal_lengths c ->
  (forall f, MeanFocalLength c = Some f ->
     CameraModelVerifyParams (CameraModelNameToId "SIMPLE_PINHOLE")
                             (virtual_params f image_point cam_point) = true) ->
  exists vc f,
    VirtualCamera c image_point cam_point = Some vc /\
    MeanFocalLength c = Some f /\
    model_id vc = CameraModelNameToId "SIMPLE_PINHOLE" /\
    width vc = width c /\ height vc = height c /\
    params vc = virtual_params f image_point cam_point /\
    ImgFromCam vc cam_point = image_point.
Proof.
  intros Hcat Hfoc Hver.
  destruct (new_simple_pinhole c Hcat) as (vc0 & Hvc0 & Hm0 & _).
  destruct Hcat as [_ Hproj].
  unfold VirtualCamera. rewrite Hvc0. cbn [mbind option_bind].
  assert (Hf : exists f, MeanFocalLength c = Some f /\
            match FocalLengthIdxs c with
            | [i0] => vget (params c) i0
            | [i0; i1] =>
                a ← vget (params c) i0; b ← vget (params c) i1;
                Some (fdiv (fadd a b) (lit 2))
            | _ => None
            end = Some f).
  { unfold one_or_two_focal_lengths in Hfoc. unfold vget.
    destruct (FocalLengthIdxs c) as [|i0 [|i1 [|? ?]]] eqn:Ei;
      try contradiction.
    - destruct Hfoc as [a Ha]. exists a. split; [|exact Ha].
      now apply (mean_of_one i0).
    - destruct Hfoc as [[a Ha] [b Hb]]. exists ((a + b) / 2). split.
      + now apply (mean_of_two i0 i1).
      + rewrite Ha, Hb. simpl. f_equal. unfold lit, Q2R. simpl. field. }
  destruct Hf as (f & Hmean & ->). cbn [mbind option_bind].
  specialize (Hver f Hmean). unfold virtual_params in Hver.
  eexists _, f. split; [reflexivity|]. split; [exact Hmean|].
  unfold SetParams. simpl. rewrite Hm0. simpl in Hver. rewrite Hver. simpl.
  repeat split; try assumption.
  unfold ImgFromCam. simpl. rewrite Hm0, Hproj. simpl.
  destruct image_point as [u v]. simpl. unfold lit, Q2R. simpl.
  f_equal; field.
Qed.

End VirtualCameraReal.

Section VirtualCameraAny.
Context {F : Type} {SF : Scalar F} {MF : Models F}.
Local Open Scope scalar_scope.

(** What [VirtualCamera] returns when it takes the focal length [f]: the
    SIMPLE_PINHOLE camera of parameters f, u - f x, v - f y, whose projection
    of the camera point is (f x / 1 + (u - f x), f y / 1 + (v - f y)). *)
Lemma VirtualCamera_with_focal (c : Camera F)
    (image_point cam_point : Vector2d F) (f : F) :
  simple_pinhole_projects ->
  match FocalLengthIdxs c with
  | [i0] => vget (params c) i0
  | [i0; i1] =>
      a ← vget (params c) i0; b ← vget (params c) i1; Some ((a + b) / lit 2)
  | _ => None
  end = Some f ->
  let cx := v2x image_point - f * v2x cam_point in
  let cy := v2y image_point - f * v2y cam_point in
  CameraModelVerifyParams (CameraModelNameToId "SIMPLE_PINHOLE") [f; cx; cy]
    = true ->
  exists vc,
    VirtualCamera c image_point cam_point = Some vc /\
    model_id vc = CameraModelNameToId "SIMPLE_PINHOLE" /\
    width vc = width c /\ height vc = height c /\
    params vc = [f; cx; cy] /\
    IsCameraRefractive vc = false /\
    ImgFromCam vc cam_point =
      Vec2 (f * v2x cam_point / lit 1 + cx) (f * v2y cam_point / lit 1 + cy).
Proof.
  intros [Hex Hproj] Hf cx cy Hver.
  unfold VirtualCamera, SetModelIdFromName. rewrite Hex.
  cbn [CHECK mbind option_bind]. rewrite Hf. cbn [mbind option_bind].
  fold cx cy. unfold SetParams. cbn [model_id with_params with_model_id
    SetWidth SetHeight Camera_new]. rewrite Hver.
  eexists. split; [reflexivity|]. cbn.
  repeat split; try reflexivity.
  - unfold IsCameraRefractive. cbn. now rewrite Z.eqb_refl.
  - unfold ImgFromCam. cbn. now rewrite Hproj.
Qed.

End VirtualCameraAny.

Section VirtualCameraStatement.
Import RealScalar.


End VirtualCameraStatement.

(** ** The rotation onto the canonical axis *)

Section RotationReal.
Import RealScalar.
Context {MF : Models R}.
Local Open Scope R_scope.

Lemma Rltb_true (a b : R) : a < b -> Rltb a b = true.
Proof. intros Hab. unfold Rltb. destruct (Rlt_dec a b); [reflexivity|lra]. Qed.

Lemma Rltb_false (a b : R) : b <= a -> Rltb a b = false.
Proof. intros Hab. unfold Rltb. destruct (Rlt_dec a b); [lra|reflexivity]. Qed.

Lemma normalized_unit (a : Vector3d R) : dot a a = 1 -> normalized a = a.
Proof.
  intros Ha. unfold normalized, squaredNorm. rewrite Ha.
  change (flt (lit 0) 1) with (Rltb (Q2R 0) 1).
  rewrite Rltb_true by (unfold Q2R; simpl; lra).
  change (fsqrt 1) with (sqrt 1). rewrite sqrt_1.
  destruct a as [x y z]. unfold vdivs. simpl. f_equal; field.
Qed.

Lemma UnitZ_real : UnitZ (F := R) = Vec3 0 0 1.
Proof. unfold UnitZ, lit. simpl. unfold Q2R. simpl. f_equal; field. Qed.

Lemma qnormalized_unit (q : Quaterniond R) :
  qsquaredNorm q = 1 -> qnormalized q = q.
Proof.
  intros Hq. unfold qnormalized. rewrite Hq.
  change (flt (lit 0) 1) with (Rltb (Q2R 0) 1).
  rewrite Rltb_true by (unfold Q2R; simpl; lra).
  change (fsqrt 1) with (sqrt 1). rewrite sqrt_1.
  destruct q as [w x y z]. simpl. f_equal; field.
Qed.

(** The general case: the axis is at least 1e-12 away from -Z. *)
Lemma rotation_direct (x y z s : R) :
  x * x + y * y + z * z = 1 -> 0 < s -> s * s = (1 + z) * 2 ->
  let q := Quat (s * / 2) (y * (1 / s)) (- x * (1 / s)) 0 in
  qsquaredNorm q = 1 /\ qrot q (Vec3 x y z) = Vec3 0 0 1.
Proof.
  intros Hu Hs Hss q. subst q.
  assert (Hz : 1 + z <> 0) by nra.
  assert (Hs0 : s <> 0) by lra.
  split.
  - unfold qsquaredNorm. simpl.
    assert (E : (y * (1 / s)) * (y * (1 / s)) + (- x * (1 / s)) * (- x * (1 / s))
                + 0 * 0 + (s * / 2) * (s * / 2)
                = (x * x + y * y) / (s * s) + (s * s) / 4) by (field; lra).
    rewrite E, Hss. replace (x * x + y * y) with ((1 - z) * (1 + z)) by nra.
    field. lra.
  - unfold qrot, cross, vadd, vscale, qvec. simpl.
    f_equal.
    + assert (E : forall t, t = x * (1 - z - (2 * (x * x + y * y)) / (s * s))
                  -> t = 0).
      { intros t ->. rewrite Hss.
        replace (x * x + y * y) with ((1 - z) * (1 + z)) by nra.
        field. lra. }
      apply E. field. lra.
    + assert (E : forall t, t = y * (1 - z - (2 * (x * x + y * y)) / (s * s))
                  -> t = 0).
      { intros t ->. rewrite Hss.
        replace (x * x + y * y) with ((1 - z) * (1 + z)) by nra.
        field. lra. }
      apply E. field. lra.
    + assert (E : forall t,
                t = z + (x * x + y * y) - (2 * z * (x * x + y * y)) / (s * s)
                -> t = 1).
      { intros t ->. rewrite Hss.
        replace (x * x + y * y) with ((1 - z) * (1 + z)) by nra.
        field. lra. }
      apply E. field. lra.
Qed.

(** The nearly opposite case: the rotation is about an axis orthogonal to
    both vectors. *)
Lemma rotation_about_null_axis (x y z nx ny nz w s : R) :
  x * x + y * y + z * z = 1 ->
  nx * x + ny * y + nz * z = 0 -> nz = 0 ->
  nx * nx + ny * ny + nz * nz = 1 ->
  0 <= w -> 0 <= s -> w * w = (1 + z) / 2 -> s * s = (1 - z) / 2 ->
  let q := Quat w (nx * s) (ny * s) (nz * s) in
  qsquaredNorm q = 1 /\ 2 * z * z - 1 <= v3z (qrot q (Vec3 x y z)) <= 1.
Proof.
  intros Hu Hn0 Hnz Hn1 Hw Hs Hww Hss q. subst q nz.
  split.
  - unfold qsquaredNorm. simpl.
    replace (nx * s * (nx * s) + ny * s * (ny * s) + 0 * s * (0 * s) + w * w)
      with ((nx * nx + ny * ny + 0 * 0) * (s * s) + w * w) by ring.
    rewrite Hn1, Hww, Hss. field.
  - set (t := nx * y - ny * x).
    assert (Ht : t * t = 1 - z * z).
    { unfold t.
      replace ((nx * y - ny * x) * (nx * y - ny * x))
        with ((nx * nx + ny * ny) * (x * x + y * y)
              - (nx * x + ny * y) * (nx * x + ny * y)) by ring.
      replace (nx * x + ny * y) with 0 by lra.
      replace (nx * nx + ny * ny) with 1 by lra. nra. }
    assert (Hp : (2 * w * s) * (2 * w * s) = 1 - z * z).
    { replace (2 * w * s * (2 * w * s)) with (4 * (w * w) * (s * s)) by ring.
      rewrite Hww, Hss. field. }
    assert (Hrz : v3z (qrot (Quat w (nx * s) (ny * s) (0 * s)) (Vec3 x y z))
                  = z + 2 * w * s * t
                    - 2 * (s * s) * z * (nx * nx + ny * ny)).
    { unfold qrot, cross, vadd, vscale, qvec, t. simpl. ring. }
    rewrite Hrz, Hss.
    replace (nx * nx + ny * ny) with 1 by lra.
    assert (Hsq : 0 <= (2 * w * s + t) * (2 * w * s + t)) by nra.
    assert (Hsq' : 0 <= (2 * w * s - t) * (2 * w * s - t)) by nra.
    split; nra.
Qed.

Lemma dot_UnitZ (a : Vector3d R) : dot a UnitZ = v3z a.
Proof.
  destruct a as [x y z]. unfold dot, UnitZ, lit. simpl. unfold Q2R. simpl.
  field.
Qed.

Lemma UnitZ_dot (a : Vector3d R) : dot UnitZ a = v3z a.
Proof.
  destruct a as [x y z]. unfold dot, UnitZ, lit. simpl. unfold Q2R. simpl.
  field.
Qed.

Lemma UnitZ_unit : dot (F := R) UnitZ UnitZ = 1.
Proof. rewrite dot_UnitZ. unfold UnitZ, lit. simpl. unfold Q2R. simpl. field. Qed.

Lemma threshold_real :
  fadd (fneg (lit 1)) (dummy_precision (F := R)) = -1 + / 1000000000000.
Proof. unfold dummy_precision, lit. simpl. unfold Q2R. simpl. field. Qed.

Lemma unit_z_range (x y z : R) : x * x + y * y + z * z = 1 -> -1 <= z <= 1.
Proof. intros Hu. split; nra. Qed.

Lemma FromTwoVectors_onto_UnitZ (null_axis : Vector3d R -> Vector3d R -> Vector3d R)
    (a : Vector3d R) :
  dot a a = 1 ->
  (v3z a < -1 + / 1000000000000 ->
   dot (null_axis a UnitZ) a = 0 /\ dot (null_axis a UnitZ) UnitZ = 0 /\
   dot (null_axis a UnitZ) (null_axis a UnitZ) = 1) ->
  let q := FromTwoVectors null_axis a UnitZ in
  qsquaredNorm q = 1 /\
  1 - 4 / 1000000000000 <= v3z (qrot q a) <= 1 /\
  (-1 + / 1000000000000 <= v3z a -> qrot q a = Vec3 0 0 1).
Proof.
  intros Hu Hsvd. unfold FromTwoVectors. cbv zeta.
  rewrite (normalized_unit a Hu).
  rewrite (normalized_unit UnitZ UnitZ_unit).
  rewrite UnitZ_dot, threshold_real.
  destruct a as [x y z]. cbn [v3x v3y v3z] in *.
  assert (Hxyz : x * x + y * y + z * z = 1) by exact Hu.
  pose proof (unit_z_range x y z Hxyz) as Hz.
  change (flt z (-1 + / 1000000000000)) with (Rltb z (-1 + / 1000000000000)).
  destruct (Rlt_dec z (-1 + / 1000000000000)) as [Hlt|Hge].
  - (* nearly opposite to +Z *)
    rewrite (Rltb_true _ _ Hlt).
    change (flt z (fneg (lit 1))) with (Rltb z (- lit 1)).
    rewrite lit_1, lit_half. rewrite Rltb_false by lra.
    destruct (Hsvd Hlt) as (Hn0 & HnZ & Hn1).
    rewrite dot_UnitZ in HnZ.
    destruct (null_axis (Vec3 x y z) UnitZ) as [nx ny nz].
    cbn [v3x v3y v3z] in *.
    set (w := sqrt ((1 + z) * / 2)).
    set (s := sqrt (1 - (1 + z) * / 2)).
    assert (Hw : 0 <= w) by apply sqrt_pos.
    assert (Hs : 0 <= s) by apply sqrt_pos.
    assert (Hww : w * w = (1 + z) / 2)
      by (unfold w; rewrite sqrt_sqrt; lra).
    assert (Hss : s * s = (1 - z) / 2)
      by (unfold s; rewrite sqrt_sqrt; lra).
    destruct (rotation_about_null_axis x y z nx ny nz w s Hxyz Hn0 HnZ Hn1
                Hw Hs Hww Hss) as [Hq Hrz].
    split; [exact Hq|]. split; [|intros; lra].
    change (fsqrt ?t) with (sqrt t). fold w s.
    split; [|apply Hrz]. eapply Rle_trans; [|apply Hrz]. nra.
  - (* the general case *)
    rewrite Rltb_false by lra.
    rewrite lit_1, lit_2, lit_half.
    change (fsqrt ?t) with (sqrt t).
    set (s := sqrt ((1 + z) * 2)).
    assert (Hs : 0 < s) by (unfold s; apply sqrt_lt_R0; lra).
    assert (Hss : s * s = (1 + z) * 2)
      by (unfold s; rewrite sqrt_sqrt; lra).
    destruct (rotation_direct x y z s Hxyz Hs Hss) as [Hq Hr].
    match goal with
    | |- qsquaredNorm ?q = 1 /\ _ =>
        assert (Eq : q = Quat (s * / 2) (y * (1 / s)) (- x * (1 / s)) 0)
    end.
    { unfold cross, UnitZ, lit. simpl. unfold Q2R. simpl. fold s.
      f_equal; field; lra. }
    rewrite Eq. split; [exact Hq|]. rewrite Hr. simpl.
    split; [lra|reflexivity].
Qed.

Lemma VirtualFromRealRotation_spec (c : Camera R) :
  dot (RefractionAxis c) (RefractionAxis c) = 1 ->
  svd_axis_is_null (RefractionAxis c) ->
  qsquaredNorm (VirtualFromRealRotation c) = 1 /\
  1 - 4 / 1000000000000
    <= dot (qrot (VirtualFromRealRotation c) (RefractionAxis c)) UnitZ <= 1 /\
  (-1 + / 1000000000000 <= v3z (RefractionAxis c) ->
   qrot (VirtualFromRealRotation c) (RefractionAxis c) = UnitZ).
Proof.
  unfold VirtualFromRealRotation, svd_axis_is_null.
  set (a := RefractionAxis c). intros Hu Hsvd. cbv zeta in Hsvd.
  rewrite (normalized_unit a Hu) in Hsvd.
  rewrite (normalized_unit UnitZ UnitZ_unit) in Hsvd.
  rewrite UnitZ_dot in Hsvd.
  destruct (FromTwoVectors_onto_UnitZ svd_null_axis a Hu Hsvd)
    as (Hq & Hz & Hexact).
  rewrite <- UnitZ_real in Hexact.
  rewrite (qnormalized_unit _ Hq), dot_UnitZ. auto.
Qed.

Lemma VirtualFromRealRotation_of_configuration (c c' : Camera R) :
  refrac_model_id c' = refrac_model_id c ->
  refrac_params c' = refrac_params c ->
  VirtualFromRealRotation c' = VirtualFromRealRotation c.
Proof.
  intros Hm Hp. unfold VirtualFromRealRotation, RefractionAxis.
  now rewrite Hm, Hp.
Qed.

Lemma ComputeVirtual_rotation (c : Camera R) (p : Vector2d R)
    (vc : Camera R) (vfr : Rigid3d R) :
  ComputeVirtual c p = Some (vc, vfr) ->
  rotation vfr = VirtualFromRealRotation c.
Proof.
  unfold ComputeVirtual. cbv zeta. intros Hc.
  apply bind_Some in Hc as (vc' & _ & [= _ <-]). reflexivity.
Qed.

End RotationReal.

(** ** Error computation of the evaluation harness *)

Section ErrorFacts.
Context {F : Type} {SF : Scalar F}.

(** The rotation error is the angle, in degrees, of the relative rotation,
    whatever the branch and whether or not translations were normalised. *)
Lemma rotation_error_is_angle (gt est : Rigid3d F) :
  (forall b, (PoseError gt est b).1 =
             RadToDeg (AngleAxis_angle (relative_rotation gt est))) /\
  (forall b, e_rotation_error (RelativePoseError gt est b) =
             RadToDeg (AngleAxis_angle (relative_rotation gt est))) /\
  e_rotation_error (Evaluate1_refrac_errors gt est) =
    RadToDeg (AngleAxis_angle (relative_rotation gt est)) /\
  (Evaluate2_refrac_errors gt est).1 =
    RadToDeg (AngleAxis_angle (relative_rotation gt est)).
Proof.
  repeat split; try (intros []); reflexivity.
Qed.

(** The other errors, by mode. *)
Lemma errors_by_mode (gt est : Rigid3d F) :
  (PoseError gt est true).2 =
    fmul (norm (vsub (camera_center gt) (camera_center est))) (lit 1000) /\
  (PoseError gt est false).2 =
    fmul (norm (vsub (camera_center (normalize_translation gt))
                     (camera_center est))) (lit 1000) /\
  (Evaluate2_refrac_errors gt est).2 =
    fmul (norm (vsub (camera_center (normalize_translation gt))
                     (camera_center (normalize_translation est))))
         (lit 1000) /\
  e_scale_error (RelativePoseError gt est true) =
    fabs (fsub (norm (camera_center gt)) (norm (camera_center est))) /\
  e_scale_error (RelativePoseError gt est false) = lit 0 /\
  e_scale_error (Evaluate1_refrac_errors gt est) =
    fabs (fsub (norm (camera_center gt)) (norm (camera_center est))).
Proof. repeat split. Qed.

End ErrorFacts.

Section ErrorFactsReal.
Import RealScalar.
Local Open Scope R_scope.

Lemma zero_lt_lit_0 (r : R) : 0 < r -> flt (lit (F := R) 0) r = true.
Proof.
  intros Hr. change (Rltb (Q2R 0) r = true). apply Rltb_true.
  unfold Q2R. simpl. lra.
Qed.

Lemma qinverse_unit (q : Quaterniond R) :
  qsquaredNorm q = 1 -> qinverse q = qconjugate q.
Proof.
  intros Hq. unfold qinverse. cbv zeta. rewrite Hq, zero_lt_lit_0 by lra.
  destruct q as [w x y z]. unfold qconjugate. simpl. f_equal; field.
Qed.

Ltac real_components :=
  cbv [qsquaredNorm qrot qconjugate cross vadd vsub vneg vscale vdivs qvec dot
       squaredNorm v3x v3y v3z qw qx qy qz fadd fsub fmul fdiv fneg R_Scalar].

(** Rotating by the conjugate and back: the identity up to a term that
    vanishes for unit quaternions. *)
Lemma qrot_conjugate (q : Quaterniond R) (v : Vector3d R) :
  qrot q (qrot (qconjugate q) v) =
  vadd v (vscale (cross (qvec q) (cross (qvec q) v))
                 (4 * (1 - qsquaredNorm q))).
Proof.
  destruct q as [w x y z], v as [a b c]. real_components. f_equal; ring.
Qed.

(** The pose maps its camera centre to the origin. *)
Lemma camera_center_is_center (p : Rigid3d R) :
  qsquaredNorm (rotation p) = 1 ->
  rigid_apply p (camera_center p) = Vec3 0 0 0.
Proof.
  intros Hq. unfold rigid_apply, camera_center.
  rewrite (qinverse_unit _ Hq), qrot_conjugate, Hq.
  destruct p as [[w x y z] [a b c]]. real_components. f_equal; ring.
Qed.

Lemma camera_center_identity (t : Vector3d R) :
  camera_center (MkRigid3d identity_rotation t) = vneg t.
Proof.
  unfold camera_center. cbn [rotation translation].
  rewrite qinverse_unit by (unfold identity_rotation; real_components; ring).
  destruct t as [a b c]. unfold identity_rotation. real_components.
  f_equal; ring.
Qed.

Lemma normalized_along_x (x : R) :
  0 < x -> normalized (Vec3 x 0 0) = Vec3 1 0 0.
Proof.
  intros Hx. unfold normalized. cbv zeta.
  assert (Hsq : squaredNorm (Vec3 x 0 0) = x * x)
    by (real_components; ring).
  rewrite Hsq, zero_lt_lit_0 by nra.
  change (fsqrt (x * x)) with (sqrt (x * x)).
  rewrite sqrt_square by lra. real_components. f_equal; field; lra.
Qed.

Lemma norm_along_x (x : R) : 0 <= x -> norm (Vec3 x 0 0) = x.
Proof.
  intros Hx. unfold norm.
  assert (Hsq : squaredNorm (Vec3 x 0 0) = x * x)
    by (real_components; ring).
  rewrite Hsq. change (fsqrt (x * x)) with (sqrt (x * x)).
  now apply sqrt_square.
Qed.


(** C1, as the code has it.  On every path the rotation error is the angle,
    in degrees, of the relative rotation between ground truth and estimate.
    PoseError in its refractive mode returns the distance between the camera
    centres of the two poses, in millimetres (times 1000), with no
    normalisation; the refractive loop of the second program normalises the
    translation of the estimate and calls PoseError in its other mode, so
    that the position error it records is the distance, times 1000, between
    the camera centres of the two poses with translations of unit length.
    A scale error, the absolute difference of the two baseline lengths, is
    computed by RelativePoseError in refractive mode, in the first program
    only.  The camera centre of a pose is the point the pose maps to the
    origin. *)
Theorem pose_errors_computed :
  (forall (F : Type) (SF : Scalar F) (gt est : Rigid3d F),
     (forall b, (PoseError gt est b).1 =
                RadToDeg (AngleAxis_angle (relative_rotation gt est))) /\
     (forall b, e_rotation_error (RelativePoseError gt est b) =
                RadToDeg (AngleAxis_angle (relative_rotation gt est))) /\
     (Evaluate2_refrac_errors gt est).1 =
       RadToDeg (AngleAxis_angle (relative_rotation gt est)) /\
     (PoseError gt est true).2 =
       fmul (norm (vsub (camera_center gt) (camera_center est))) (lit 1000) /\
     (Evaluate2_refrac_errors gt est).2 =
       fmul (norm (vsub (camera_center (normalize_translation gt))
                        (camera_center (normalize_translation est))))
            (lit 1000) /\
     e_scale_error (Evaluate1_refrac_errors gt est) =
       fabs (fsub (norm (camera_center gt)) (norm (camera_center est)))) /\
  (forall p : Rigid3d R,
     qsquaredNorm (rotation p) = 1 ->
     rigid_apply p (camera_center p) = Vec3 0 0 0).
Proof.
  split; [|exact camera_center_is_center].
  intros F SF gt est.
  destruct (rotation_error_is_angle gt est) as (H1 & H2 & _ & H4).
  destruct (errors_by_mode gt est) as (E1 & _ & E3 & _ & _ & E6).
  auto 10.
Qed.

(** C1, as stated, fails on the refractive loop of the second program: for
    a ground truth and an estimate without rotation and with baselines 2 and
    4 along x, the camera centres are 2 apart (2000 in millimetres), and the
    position error recorded is 0, the translation of the estimate having
    been normalised before the error is computed. *)
Lemma refractive_position_error_is_normalised :
  norm (vsub (camera_center gt_2) (camera_center est_4)) = 2 /\
  (Evaluate2_refrac_errors gt_2 est_4).2 = 0 /\
  (Evaluate2_refrac_errors gt_2 est_4).2
    <> norm (vsub (camera_center gt_2) (camera_center est_4)) /\
  (Evaluate2_refrac_errors gt_2 est_4).2
    <> fmul (norm (vsub (camera_center gt_2) (camera_center est_4))) (lit 1000).
Proof.
  assert (Hd : norm (vsub (camera_center gt_2) (camera_center est_4)) = 2).
  { unfold gt_2, est_4. rewrite !camera_center_identity.
    assert (E : vsub (vneg (Vec3 2 0 0)) (vneg (Vec3 4 0 0)) = Vec3 2 0 0)
      by (real_components; f_equal; ring).
    rewrite E. apply norm_along_x. lra. }
  assert (He : (Evaluate2_refrac_errors gt_2 est_4).2 = 0).
  { destruct (errors_by_mode gt_2 est_4) as (_ & _ & -> & _).
    unfold gt_2, est_4, normalize_translation. cbn [rotation translation].
    rewrite !normalized_along_x by lra. rewrite !camera_center_identity.
    assert (E : vsub (vneg (Vec3 1 0 0)) (vneg (Vec3 1 0 0)) = Vec3 0 0 0)
      by (real_components; f_equal; ring).
    rewrite E, norm_along_x by lra. change (0 * lit 1000 = 0). ring. }
  split; [exact Hd|]. split; [exact He|].
  rewrite He, Hd. split; [lra|].
  change (0 <> 2 * Q2R 1000). unfold Q2R. simpl. lra.
Qed.

End ErrorFactsReal.


(** ** Normalisation, over the reals *)

Section NormalisationReal.
Import RealScalar.
Local Open Scope R_scope.

Ltac comps :=
  cbv [qsquaredNorm qrot qconjugate qmul cross vadd vsub vneg vscale vdivs
       qvec dot squaredNorm v3x v3y v3z qw qx qy qz fadd fsub fmul fdiv fneg
       R_Scalar].

Lemma squaredNorm_nonneg (a : Vector3d R) : 0 <= squaredNorm a.
Proof. destruct a as [x y z]. comps. nra. Qed.

Lemma squaredNorm_zero (a : Vector3d R) :
  squaredNorm a <= 0 -> a = Vec3 0 0 0.
Proof.
  destruct a as [x y z]. comps. intros H.
  assert (x = 0) by nra. assert (y = 0) by nra. assert (z = 0) by nra.
  now subst.
Qed.

Lemma lit_0_lt (r : R) : flt (lit (F := R) 0) r = if Rlt_dec 0 r then true else false.
Proof.
  change (Rltb (Q2R 0) r = if Rlt_dec 0 r then true else false).
  unfold Rltb, Q2R. simpl. rewrite Rmult_0_l. reflexivity.
Qed.

(** The two cases of [normalized]. *)
Lemma normalized_cases (a : Vector3d R) :
  0 < squaredNorm a /\ normalized a = vdivs a (sqrt (squaredNorm a)) \/
  a = Vec3 0 0 0 /\ normalized a = Vec3 0 0 0.
Proof.
  unfold normalized. cbv zeta. rewrite lit_0_lt.
  destruct (Rlt_dec 0 (squaredNorm a)) as [Hp|Hn].
  - left. split; [exact Hp|reflexivity].
  - right. assert (E : a = Vec3 0 0 0) by (apply squaredNorm_zero; lra).
    split; exact E.
Qed.

Lemma normalized_squaredNorm (a : Vector3d R) :
  0 < squaredNorm a -> squaredNorm (normalized a) = 1.
Proof.
  intros Hp. destruct (normalized_cases a) as [[_ ->]|[-> _]].
  - assert (Hs : sqrt (squaredNorm a) * sqrt (squaredNorm a) = squaredNorm a)
      by (apply sqrt_sqrt; lra).
    assert (Hs0 : sqrt (squaredNorm a) <> 0)
      by (apply Rgt_not_eq, sqrt_lt_R0, Hp).
    set (s := sqrt (squaredNorm a)) in *.
    destruct a as [x y z]. revert Hs. comps. intros Hs.
    replace (x / s * (x / s) + y / s * (y / s) + z / s * (z / s))
      with ((x * x + y * y + z * z) / (s * s)) by (field; exact Hs0).
    rewrite Hs. field. rewrite <- Hs. nra.
  - revert Hp. comps. lra.
Qed.

Lemma norm_zero : norm (F := R) (Vec3 0 0 0) = 0.
Proof.
  unfold norm. replace (squaredNorm (Vec3 0 0 0)) with 0 by (comps; ring).
  apply sqrt_0.
Qed.

End NormalisationReal.

(** ** The rotation onto the canonical axis, for any axis *)

Section RotationAnyAxis.
Import RealScalar.
Context {MF : Models R}.
Local Open Scope R_scope.

Ltac vcomps :=
  cbv [qsquaredNorm qrot qconjugate qmul cross vadd vsub vneg vscale vdivs
       qvec dot squaredNorm v3x v3y v3z qw qx qy qz fadd fsub fmul fdiv fneg
       R_Scalar].

Ltac real_ops :=
  try change (@fadd R R_Scalar) with Rplus;
  try change (@fsub R R_Scalar) with Rminus;
  try change (@fmul R R_Scalar) with Rmult;
  try change (@fdiv R R_Scalar) with Rdiv;
  try change (@fneg R R_Scalar) with Ropp;
  try change (@fsqrt R R_Scalar) with sqrt.

(** A rotation is linear: it commutes with scaling. *)
Lemma qrot_vscale (q : Quaterniond R) (v : Vector3d R) (k : R) :
  qrot q (vscale v k) = vscale (qrot q v) k.
Proof. destruct q as [w x y z], v as [a b c]. vcomps. f_equal; ring. Qed.

(** A vector that is not zero is its direction times its length. *)
Lemma direction_times_norm (a : Vector3d R) :
  0 < squaredNorm a -> a = vscale (normalized a) (norm a).
Proof.
  intros Hp. destruct (normalized_cases a) as [[_ ->]|[-> _]].
  - unfold norm. change (fsqrt (squaredNorm a)) with (sqrt (squaredNorm a)).
    assert (Hs0 : sqrt (squaredNorm a) <> 0)
      by (apply Rgt_not_eq, sqrt_lt_R0, Hp).
    set (s := sqrt (squaredNorm a)) in *.
    destruct a as [x y z]. vcomps. f_equal; field; exact Hs0.
  - revert Hp. vcomps. lra.
Qed.

(** [FromTwoVectors] normalises its arguments first: it depends on the
    direction of the first one only. *)
Lemma FromTwoVectors_of_direction
    (null_axis : Vector3d R -> Vector3d R -> Vector3d R) (a b : Vector3d R) :
  FromTwoVectors null_axis a b = FromTwoVectors null_axis (normalized a) b.
Proof.
  assert (E : normalized (normalized a) = normalized a).
  { destruct (normalized_cases a) as [[Hp _]|[_ ->]].
    - apply normalized_unit. now apply normalized_squaredNorm.
    - destruct (normalized_cases (Vec3 0 0 0)) as [[Hp _]|[_ E]];
        [|exact E]. revert Hp. vcomps. lra. }
  unfold FromTwoVectors. cbv zeta. now rewrite E.
Qed.

(** The rotation computed for the zero vector is the identity. *)
Lemma rotation_of_zero_axis (c : Camera R) :
  RefractionAxis c = Vec3 0 0 0 ->
  VirtualFromRealRotation c = Quat 1 0 0 0 /\
  qsquaredNorm (VirtualFromRealRotation c) = 1 /\
  qrot (VirtualFromRealRotation c) (RefractionAxis c) = Vec3 0 0 0.
Proof.
  intros Ha.
  assert (Hq : VirtualFromRealRotation c = Quat 1 0 0 0).
  { unfold VirtualFromRealRotation. rewrite Ha.
    unfold FromTwoVectors. cbv zeta.
    assert (E0 : normalized (Vec3 0 0 0) = Vec3 0 0 0).
    { destruct (normalized_cases (Vec3 0 0 0)) as [[Hp _]|[_ E]];
        [|exact E]. revert Hp. vcomps. lra. }
    rewrite E0, (normalized_unit UnitZ UnitZ_unit), UnitZ_dot, threshold_real.
    cbn [v3z]. change (flt 0 (-1 + / 1000000000000))
      with (Rltb 0 (-1 + / 1000000000000)).
    rewrite Rltb_false by lra.
    rewrite lit_1, lit_2, lit_half.
    assert (Hs : 0 < sqrt 2) by (apply sqrt_lt_R0; lra).
    assert (Hss : sqrt 2 * sqrt 2 = 2) by (apply sqrt_sqrt; lra).
    assert (Ec : cross (Vec3 0 0 0) UnitZ = Vec3 0 0 0).
    { rewrite UnitZ_real. vcomps. f_equal; ring. }
    rewrite Ec. cbn [v3x v3y v3z].
    unfold qnormalized. cbv zeta.
    real_ops. replace ((1 + 0) * 2) with 2 by ring.
    assert (En : qsquaredNorm
                   (Quat (sqrt 2 * / 2) (0 * (1 / sqrt 2))
                         (0 * (1 / sqrt 2)) (0 * (1 / sqrt 2))) = / 2).
    { vcomps. replace (0 * (1 / sqrt 2)) with 0 by (field; lra).
      replace (0 * 0 + 0 * 0 + 0 * 0 + sqrt 2 * / 2 * (sqrt 2 * / 2))
        with (sqrt 2 * sqrt 2 / 4) by field.
      rewrite Hss. field. }
    rewrite En, zero_lt_lit_0 by lra.
    change (fsqrt (/ 2)) with (sqrt (/ 2)).
    assert (Eh : sqrt (/ 2) = sqrt 2 * / 2).
    { apply sqrt_lem_1; [lra|nra|].
      replace (sqrt 2 * / 2 * (sqrt 2 * / 2)) with (sqrt 2 * sqrt 2 / 4)
        by field. rewrite Hss. field. }
    rewrite Eh. cbn [qw qx qy qz]. real_ops.
    f_equal; field; lra. }
  rewrite Hq, Ha. split; [reflexivity|]. split; vcomps; [ring|f_equal; ring].
Qed.

(** The rotation computed for any axis, through the one for its
    direction. *)
Lemma VirtualFromRealRotation_any_axis (c : Camera R) :
  svd_axis_is_null (RefractionAxis c) ->
  qsquaredNorm (VirtualFromRealRotation c) = 1 /\
  norm (RefractionAxis c) * (1 - 4 / 1000000000000)
    <= dot (qrot (VirtualFromRealRotation c) (RefractionAxis c)) UnitZ
    <= norm (RefractionAxis c) /\
  (-1 + / 1000000000000 <= v3z (normalized (RefractionAxis c)) ->
   qrot (VirtualFromRealRotation c) (RefractionAxis c) =
   vscale UnitZ (norm (RefractionAxis c))).
Proof.
  intros Hsvd. set (a := RefractionAxis c) in *.
  destruct (normalized_cases a) as [[Hp _]|[Ha Hna]].
  - (* an axis that is not zero *)
    pose proof (normalized_squaredNorm a Hp) as Hu.
    assert (Hsvd' : v3z (normalized a) < -1 + / 1000000000000 ->
              dot (svd_null_axis (normalized a) UnitZ) (normalized a) = 0 /\
              dot (svd_null_axis (normalized a) UnitZ) UnitZ = 0 /\
              dot (svd_null_axis (normalized a) UnitZ)
                  (svd_null_axis (normalized a) UnitZ) = 1).
    { unfold svd_axis_is_null in Hsvd. cbv zeta in Hsvd.
      rewrite (normalized_unit UnitZ UnitZ_unit), UnitZ_dot in Hsvd.
      exact Hsvd. }
    destruct (FromTwoVectors_onto_UnitZ svd_null_axis (normalized a) Hu Hsvd')
      as (Hq & Hz & Hexact).
    assert (Eq : VirtualFromRealRotation c =
                 FromTwoVectors svd_null_axis (normalized a) UnitZ).
    { unfold VirtualFromRealRotation. fold a.
      rewrite FromTwoVectors_of_direction. now apply qnormalized_unit. }
    rewrite Eq. split; [exact Hq|].
    assert (Hn : 0 < norm a) by (apply sqrt_lt_R0; exact Hp).
    assert (Er : qrot (FromTwoVectors svd_null_axis (normalized a) UnitZ) a =
                 vscale (qrot (FromTwoVectors svd_null_axis (normalized a)
                                              UnitZ) (normalized a)) (norm a))
      by now rewrite <- qrot_vscale, <- direction_times_norm.
    rewrite Er, dot_UnitZ.
    split.
    + destruct (qrot _ (normalized a)) as [rx ry rz].
      cbn [vscale v3z] in *. change (fmul rz (norm a)) with (rz * norm a).
      split; nra.
    + intros Hge. rewrite (Hexact Hge), UnitZ_real. reflexivity.
  - (* the zero axis *)
    destruct (rotation_of_zero_axis c Ha) as (_ & Hq & Hr).
    fold a in Hr. split; [exact Hq|]. rewrite Hr.
    assert (En : norm a = 0) by (rewrite Ha; apply norm_zero).
    rewrite En, dot_UnitZ. cbn [v3z]. split; [lra|].
    intros _. rewrite UnitZ_real. vcomps. f_equal; ring.
Qed.


End RotationAnyAxis.

(** ** The statements at concrete inputs *)

Section Witnesses.
Import RatScalar Examples.

Lemma assignment_is_validated_witness :
  assign (MF := qmodels) qcamera (ParamsFromString "1,2") = (false, qcamera) /\
  assign (MF := qmodels) qcamera (ParamsFromVector [qnum 1; qnum 2; qnum 3; qnum 4])
  = (true, with_params qcamera [qnum 1; qnum 2; qnum 3; qnum 4]).
Proof.
  split.
  - apply (assignment_is_validated (MF := qmodels) qcamera
             (ParamsFromString "1,2")).
    vm_compute. reflexivity.
  - apply (assignment_is_validated (MF := qmodels) qcamera
             (ParamsFromVector [qnum 1; qnum 2; qnum 3; qnum 4])).
    vm_compute. reflexivity.
Defined.

Lemma toy_validators_check_length (blind : bool) :
  validators_check_length (MF := Toy.models (SF := Q_Scalar) blind).
Proof.
  split; intros id v Hv; simpl in Hv; now apply Nat.eqb_eq in Hv.
Qed.

Lemma toy_initializers_sized (blind : bool) :
  initializers_sized (MF := Toy.models (SF := Q_Scalar) blind).
Proof.
  intros id f w h. simpl. unfold Toy.initial_params, Toy.num_params.
  destruct (id =? Toy.SIMPLE_PINHOLE)%Z; [reflexivity|].
  destruct (id =? Toy.PINHOLE)%Z; reflexivity.
Qed.



Lemma Rescale_changes_only_size_and_intrinsics_witness :
  exists c',
    Rescale (MF := qmodels) qcamera (qnum 2) = Some c' /\
    width c' = 2226%Z /\ height c' = 1670%Z /\
    refrac_params c' = refrac_params qcamera /\
    params c' = [qnum 680; qnum 680; qnum 1113; qnum 835].
Proof.
  eexists. split; [vm_compute; reflexivity|].
  match goal with
  | |- width ?c' = _ /\ _ =>
      destruct (proj1 (Rescale_changes_only_size_and_intrinsics
                         (MF := qmodels) qcamera) (qnum 2) c')
        as (Hw & Hh & (_ & _ & _ & _ & Hrp & _) & _)
  end.
  - vm_compute. reflexivity.
  - split; [rewrite Hw; vm_compute; reflexivity|].
    split; [rewrite Hh; vm_compute; reflexivity|].
    split; [exact Hrp|]. vm_compute. reflexivity.
Defined.

Lemma ComputeVirtuals_appends_witness :
  exists vcs' vfrs',
    ComputeVirtuals (MF := qmodels) qcamera [qpixel 100 200; qpixel 300 400]
                    [qold.1] [qold.2] = Some (vcs', vfrs') /\
    length vcs' = 3%nat /\ length vfrs' = 3%nat /\
    vcs' !! 0%nat = Some qold.1.
Proof.
  eexists _, _. split; [vm_compute; reflexivity|].
  match goal with
  | |- length ?a = _ /\ length ?b = _ /\ _ =>
      destruct (proj1 (ComputeVirtuals_appends (MF := qmodels) qcamera)
                  [qpixel 100 200; qpixel 300 400] [qold.1] a [qold.2] b)
        as ((l & _ & Hv & _) & Hl1 & Hl2 & _)
  end.
  - vm_compute. reflexivity.
  - split; [exact Hl1|]. split; [exact Hl2|]. rewrite Hv. reflexivity.
Defined.

Lemma refraction_disabled_is_noop_witness :
  CamFromImgRefrac (MF := qmodels) qcamera_plain (qpixel 10 20) =
  MkRay3D Zero3 (CameraModelCamFromImg (Models := qmodels)
                   (model_id qcamera_plain) (params qcamera_plain)
                   (qpixel 10 20)) /\
  ImgFromCamRefrac (MF := qmodels) qcamera_plain (homogeneous (qpixel 1 2)) =
  ImgFromCam (MF := qmodels) qcamera_plain (qpixel 1 2).
Proof.
  destruct (proj1 refraction_disabled_is_noop _ Q_Scalar qmodels qcamera_plain)
    as (H1 & _ & H3).
  - vm_compute. reflexivity.
  - split; [apply H1|apply H3].
Defined.

Lemma GenerateRandom2D2DPoints_loop_unbounded_witness :
  (GenerateRandom2D2DPoints (MF := qblind) (PF := qprng) 50 qcamera 3 qpose
                            qempty (qnum 0) (qnum 1) 0%nat).1 = OutOfFuel.
Proof.
  apply (proj1 (proj2 (GenerateRandom2D2DPoints_loop_unbounded
                         (MF := qblind) (PF := qprng) qcamera 3 qpose
                         (qnum 0) (qnum 1) ltac:(unfold size_t_max; lia)))).
  intros g. vm_compute. reflexivity.
Defined.

End Witnesses.

Section WitnessesReal.
Import RealScalar Examples.
Local Open Scope R_scope.

Lemma pose_errors_computed_witness :
  rigid_apply gt_2 (camera_center gt_2) = Vec3 0 0 0.
Proof.
  apply (proj2 pose_errors_computed gt_2).
  cbv [gt_2 rotation identity_rotation qsquaredNorm qw qx qy qz
       fadd fmul R_Scalar].
  ring.
Defined.

Lemma toy_simple_pinhole : simple_pinhole_in_catalogue (MF := rmodels).
Proof. split; [reflexivity|]. intros f cx cy X. reflexivity. Qed.

End WitnessesReal.

Section GenerationWitness.
Import RatScalar Binary64 Examples MachineExamples.

Lemma mid_spec_keeps_accepting :
  spec_keeps_accepting (MF := qmodels) (PF := qprng_mid) qcamera qpose.
Proof. intros g. exists 1%nat. vm_compute. reflexivity. Qed.

Lemma GenerateRandom2D2DPoints_samples_witness :
  (exists pd' g' l,
     GenerateRandom2D2DPoints (MF := qmodels) (PF := qprng) 20 qcamera 3 qpose
                              qempty (qnum 1) (Some (2 # 3)) 0%nat
     = (Returned pd', g') /\
     spec_collects (MF := qmodels) (PF := qprng) qcamera 3 qpose (qnum 1) 2
                   0 0%nat l g' /\
     points2D2_refrac pd' = map s_point2D2_refrac l /\
     length (points2D2_refrac pd') = 3%nat) /\
  (exists fuel,
     (GenerateRandom2D2DPoints (MF := qmodels) (PF := qprng_mid) fuel qcamera
                               3 qpose qempty (qnum 1) (Some (2 # 3)) 0%nat).1
     <> OutOfFuel).
Proof.
  assert (Hn : (0 <= 3 < size_t_max)%Z) by (unfold size_t_max; lia).
  split.
  - assert (Hr : exists pd' g',
              GenerateRandom2D2DPoints (MF := qmodels) (PF := qprng) 20
                qcamera 3 qpose qempty (qnum 1) (Some (2 # 3)) 0%nat
              = (Returned pd', g'))
      by (eexists _, _; vm_compute; reflexivity).
    destruct Hr as (pd' & g' & Hr).
    destruct (proj1 (proj1 GenerateRandom2D2DPoints_samples _ Q_Scalar qmodels
                       qprng qcamera 3%Z qpose (qnum 1) (Some (2 # 3)) Hn)
                20%nat qempty 0%nat pd' g' Hr)
      as ((l & Hc & _ & _ & _ & _ & E4 & _) & _ & _ & _ & Hl).
    exists pd', g', l. split; [exact Hr|]. split; [exact Hc|].
    split; [exact E4|exact Hl].
  - apply (proj2 (proj1 GenerateRandom2D2DPoints_samples _ Q_Scalar qmodels
                    qprng_mid qcamera 3%Z qpose (qnum 1) (Some (2 # 3)) Hn)).
    exact mid_spec_keeps_accepting.
Defined.

(** C2, the claim as stated fails in the arithmetic of the machine: the
    number of inliers is not the floor of num_points * inlier_ratio.  With
    100 points and the ratio 0.57 the first 56 samples are inliers, and the
    floor of 100 * 0.57 is 57: the product is rounded to
    56.99999999999999289 before it is truncated.  Nor is it the floor of
    the product of num_points and the double that stands for the ratio:
    with 10 points and the ratio 0.7 the first 7 samples are inliers, and
    the double nearest to 0.7 is below 0.7, so that the floor of the exact
    product is 6; here the product is rounded up to 7. *)
Lemma inliers_are_not_the_floor :
  (forall libm_acos libm_atan2,
     NumInliers (SF := bscalar libm_acos libm_atan2) 100 (bnum (57 # 100))
     = 56%Z /\
     NumInliers (SF := bscalar libm_acos libm_atan2) 10 (bnum (7 # 10))
     = 7%Z) /\
  Qfloor (100 * (57 # 100)) = 57%Z /\
  Qfloor (10 * to_Q (bnum (7 # 10))) = 6%Z /\
  (to_Q (bnum (7 # 10)) < 7 # 10)%Q.
Proof.
  split; [intros libm_acos libm_atan2; split; vm_compute; reflexivity|].
  split; [vm_compute; reflexivity|]. split; vm_compute; reflexivity.
Qed.

End GenerationWitness.

Section VirtualCameraWitness.
Import RealScalar Binary64 Examples MachineExamples.

Lemma toy_simple_pinhole_projects {F : Type} {SF : Scalar F} (blind : bool) :
  simple_pinhole_projects (MF := Toy.models (SF := SF) blind).
Proof. split; [reflexivity|]. intros f cx cy X. reflexivity. Qed.



End VirtualCameraWitness.

Section RotationWitness.
Import RealScalar Examples PortExamples.
Local Open Scope R_scope.

Ltac wcomps7 :=
  cbv [qsquaredNorm qrot qconjugate qmul cross vadd vsub vneg vscale vdivs
       qvec dot squaredNorm v3x v3y v3z qw qx qy qz fadd fsub fmul fdiv fneg
       R_Scalar].

Lemma tilted_axis :
  RefractionAxis (MF := rmodels) rcamera_tilted = Vec3 (24 / 25) 0 (7 / 25).
Proof.
  change (RefractionAxis (MF := rmodels) rcamera_tilted)
    with (normalized (Vec3 24 0 7)).
  destruct (normalized_cases (Vec3 24 0 7)) as [[_ ->]|[E _]];
    [|exfalso; injection E; lra].
  assert (E : squaredNorm (Vec3 24 0 7) = 25 * 25) by (wcomps7; ring).
  rewrite E, sqrt_square by lra. wcomps7. f_equal; field.
Qed.

Lemma back_axis :
  RefractionAxis (MF := rmodels) rcamera_back = Vec3 0 0 (-1).
Proof. reflexivity. Qed.



End RotationWitness.

(** * Further properties of the camera *)

(** ** The scalar accessors *)

Section EntryFacts.
Context {F : Type} {SF : Scalar F} {MF : Models F}.

Lemma get_entry_index (c : Camera F) (e : Entry) :
  get_entry c e = i ← entry_index c e; params c !! i.
Proof.
  destruct e; simpl;
    unfold FocalLengthX, FocalLengthY, PrincipalPointX, PrincipalPointY, vget;
    destruct (FocalLengthIdxs c) as [|? [|? [|? ?]]];
    destruct (PrincipalPointIdxs c) as [|? [|? [|? ?]]]; reflexivity.
Qed.

Lemma set_entry_index (c : Camera F) (e : Entry) (x : F) :
  set_entry c e x =
  i ← entry_index c e; p ← vset (params c) i x; Some (with_params c p).
Proof.
  destruct e; simpl;
    unfold SetFocalLengthX, SetFocalLengthY, SetPrincipalPointX,
      SetPrincipalPointY;
    destruct (FocalLengthIdxs c) as [|? [|? [|? ?]]];
    destruct (PrincipalPointIdxs c) as [|? [|? [|? ?]]]; reflexivity.
Qed.

Lemma entry_index_with_params (c : Camera F) (p : list F) (e : Entry) :
  entry_index (with_params c p) e = entry_index c e.
Proof. destruct e; reflexivity. Qed.

(** Distinct entries live at distinct indices when no index is listed
    twice. *)
Lemma entry_index_inj (c : Camera F) (e e' : Entry) (i : nat) :
  NoDup (FocalLengthIdxs c ++ PrincipalPointIdxs c) ->
  entry_index c e = Some i -> entry_index c e' = Some i -> e = e'.
Proof.
  intros Hnd He He'.
  apply NoDup_app in Hnd as (Hf & Hfp & Hp).
  destruct e, e'; try reflexivity; exfalso; simpl in He, He';
    destruct (FocalLengthIdxs c) as [|f0 [|f1 [|? ?]]]; try discriminate;
    destruct (PrincipalPointIdxs c) as [|p0 [|p1 [|? ?]]]; try discriminate;
    injection He as <-; injection He' as E; subst.
  all: try (apply NoDup_cons in Hf as [Hf _]; apply Hf; solve [repeat constructor]).
  all: try (apply NoDup_cons in Hp as [Hp _]; apply Hp; solve [repeat constructor]).
  all: match goal with
       | H : forall x, x ∈ [?a; ?b] -> _ |- _ =>
           first [ solve [apply (H a); repeat constructor]
                 | solve [apply (H b); repeat constructor] ]
       end.
Qed.

(** X1: a setter of one of the four scalar entries (focal length x and y,
    principal point x and y) aborts exactly when the getter of the same
    entry aborts.  When it returns, the getter reads back the value that was
    set, a second write to the same entry replaces the first, nothing but
    the parameter vector changes, and the vector keeps its length; if no
    index is listed twice by the model, the three other entries read as
    before. *)
Theorem entry_set_then_get (c : Camera F) (e : Entry) (x : F) :
  (is_Some (set_entry c e x) <-> is_Some (get_entry c e)) /\
  (forall c', set_entry c e x = Some c' ->
     get_entry c' e = Some x /\
     (forall y, set_entry c' e y = set_entry c e y) /\
     camera_id c' = camera_id c /\ model_id c' = model_id c /\
     width c' = width c /\ height c' = height c /\
     prior_focal_length c' = prior_focal_length c /\
     refrac_model_id c' = refrac_model_id c /\
     refrac_params c' = refrac_params c /\
     length (params c') = length (params c) /\
     (NoDup (FocalLengthIdxs c ++ PrincipalPointIdxs c) ->
      forall e', e' <> e -> get_entry c' e' = get_entry c e')).
Proof.
  rewrite get_entry_index. split.
  - rewrite set_entry_index.
    destruct (entry_index c e) as [i|]; simpl;
      [|split; intros [? [=]]].
    unfold vset. rewrite lookup_lt_is_Some.
    destruct (decide (i < length (params c))%nat) as [Hi|Hi]; simpl.
    + split; [intros _; exact Hi|intros _; eauto].
    + split; [intros [? [=]]|intros Hlt; contradiction].
  - intros c'. rewrite set_entry_index. intros Hs.
    apply bind_Some in Hs as (i & Hi & Hs).
    apply bind_Some in Hs as (p & Hp & [= <-]).
    unfold vset in Hp.
    destruct (decide (i < length (params c))%nat) as [Hlt|]; [|discriminate].
    injection Hp as <-.
    split.
    { rewrite get_entry_index, entry_index_with_params, Hi. simpl.
      now apply list_lookup_insert_eq. }
    split.
    { intros y. rewrite !set_entry_index, entry_index_with_params, Hi. simpl.
      unfold vset. rewrite length_insert.
      destruct (decide _); [|reflexivity]. simpl.
      rewrite list_insert_insert_eq. reflexivity. }
    repeat (split; [reflexivity|]).
    split; [simpl; apply length_insert|].
    intros Hnd e' Hne.
    rewrite !get_entry_index, entry_index_with_params.
    destruct (entry_index c e') as [j|] eqn:Hj; [|reflexivity]. simpl.
    apply list_lookup_insert_ne. intros ->.
    apply Hne. symmetry. now apply (entry_index_inj c e e' j).
Qed.

End EntryFacts.

(** ** The calibration matrix *)

Section CalibrationFacts.
Context {F : Type} {SF : Scalar F} {MF : Models F}.

(** X2: CalibrationMatrix is assembled from the getters: it is the upper
    triangular matrix of rows (fx, 0, cx), (0, fy, cy), (0, 0, 1), where
    (cx, cy) is the principal point and fx = fy is the focal length of a
    model with one focal length, (fx, fy) the two focal lengths of a model
    with two.  It aborts exactly when a getter it relies on aborts: when the
    model lists neither one nor two focal lengths, or not two principal point
    indices, or an index outside the parameter vector. *)
Theorem CalibrationMatrix_entries (c : Camera F) :
  (is_Some (CalibrationMatrix c) <->
   is_Some (PrincipalPointX c) /\ is_Some (PrincipalPointY c) /\
   (is_Some (FocalLength c) \/
    is_Some (FocalLengthX c) /\ is_Some (FocalLengthY c))) /\
  (forall K, CalibrationMatrix c = Some K ->
     exists fx fy cx cy,
       K = Mat3 fx (lit 0) cx (lit 0) fy cy (lit 0) (lit 0) (lit 1) /\
       PrincipalPointX c = Some cx /\ PrincipalPointY c = Some cy /\
       (FocalLength c = Some fx /\ fy = fx \/
        FocalLengthX c = Some fx /\ FocalLengthY c = Some fy)).
Proof.
  unfold CalibrationMatrix, FocalLength, FocalLengthX, FocalLengthY. cbv zeta.
  destruct (PrincipalPointX c) as [cx|], (PrincipalPointY c) as [cy|];
    destruct (FocalLengthIdxs c) as [|i0 [|i1 [|? ?]]]; simpl;
    try destruct (vget (params c) i0) as [a|]; simpl;
    try destruct (vget (params c) i1) as [b|]; simpl;
    (split;
     [split;
      [intros [K HK]; try discriminate;
       (split; [eexists; reflexivity|]); (split; [eexists; reflexivity|]);
       first [left; eexists; reflexivity
             |right; split; eexists; reflexivity]
      |intros (H1 & H2 & [H3|[H3 H4]]);
       try (destruct H1 as [? [=]]); try (destruct H2 as [? [=]]);
       try (destruct H3 as [? [=]]); try (destruct H4 as [? [=]]); eauto]
     |intros K [=]; subst; eauto 10]).
Qed.

End CalibrationFacts.

(** ** The distortion test *)

Section UndistortedFacts.
Context {F : Type} {SF : Scalar F} {MF : Models F}.

(** The loop reads the listed entries only. *)
Lemma all_below_threshold_ext (v v' : list F) (idxs : list nat) :
  (forall i, i ∈ idxs -> v' !! i = v !! i) ->
  all_below_threshold v' idxs = all_below_threshold v idxs.
Proof.
  induction idxs as [|idx rest IH]; intros Hv; [reflexivity|].
  simpl. unfold vget. rewrite (Hv idx) by constructor.
  destruct (v !! idx) as [x|]; simpl; [|reflexivity].
  destruct (flt _ _); [reflexivity|].
  apply IH. intros i Hi. apply Hv. now constructor.
Qed.

(** X3: rescaling does not change the verdict of IsUndistorted, for a
    model whose extra (distortion) parameters are stored apart from the focal
    lengths and the principal point: both overloads of Rescale write to the
    latter only. *)
Theorem IsUndistorted_after_Rescale (c : Camera F) :
  (forall i, i ∈ ExtraParamsIdxs c ->
             (i ∉ FocalLengthIdxs c) /\ (i ∉ PrincipalPointIdxs c)) ->
  (forall scale c', Rescale c scale = Some c' ->
                    IsUndistorted c' = IsUndistorted c) /\
  (forall new_width new_height c',
     RescaleTo c new_width new_height = Some c' ->
     IsUndistorted c' = IsUndistorted c).
Proof.
  intros Hapart.
  assert (Hframe : forall c', rescale_frame c c' ->
                              IsUndistorted c' = IsUndistorted c).
  { intros c' (_ & Hm & _ & _ & _ & _ & Hother).
    unfold IsUndistorted, ExtraParamsIdxs. rewrite Hm.
    apply all_below_threshold_ext. intros i Hi.
    destruct (Hapart i Hi) as [Hf Hp]. now apply Hother. }
  destruct (Rescale_spec c) as [H1 H2]. split.
  - intros scale c' Hr. apply Hframe.
    now destruct (H1 scale c' Hr) as (_ & _ & Hres & _).
  - intros w h c' Hr. apply Hframe.
    now destruct (H2 w h c' Hr) as (_ & _ & Hres & _).
Qed.

End UndistortedFacts.

Section UndistortedReal.
Import RealScalar.
Context {MF : Models R}.
Local Open Scope R_scope.

Lemma threshold_test (x : R) :
  flt (lit (F := R) (1 # 100000000)) (fabs x) =
  if Rlt_dec (/ 100000000) (Rabs x) then true else false.
Proof.
  change (Rltb (Q2R (1 # 100000000)) (Rabs x) =
          if Rlt_dec (/ 100000000) (Rabs x) then true else false).
  unfold Rltb, Q2R. simpl. rewrite Rmult_1_l. reflexivity.
Qed.

Lemma all_below_threshold_true (v : list R) (idxs : list nat) :
  all_below_threshold v idxs = Some true <->
  Forall (fun i => exists x, v !! i = Some x /\ Rabs x <= / 100000000) idxs.
Proof.
  induction idxs as [|idx rest IH]; simpl.
  - split; [constructor|reflexivity].
  - unfold vget. destruct (v !! idx) as [x|] eqn:Ex; simpl.
    + rewrite threshold_test. destruct (Rlt_dec _ _) as [Hlt|Hge].
      * split; [discriminate|].
        intros Hall. apply Forall_cons in Hall as [(y & Hy & Hb) _].
        rewrite Ex in Hy. injection Hy as <-. lra.
      * rewrite IH. split.
        -- intros Hall. constructor; [|exact Hall]. exists x. split; [auto|lra].
        -- intros Hall. now apply Forall_cons in Hall as [_ Hall].
    + split; [discriminate|].
      intros Hall. apply Forall_cons in Hall as [(y & Hy & _) _].
      rewrite Ex in Hy. discriminate.
Qed.

Lemma all_below_threshold_false (v : list R) (idxs : list nat) :
  all_below_threshold v idxs = Some false <->
  exists l1 idx l2 x,
    idxs = l1 ++ idx :: l2 /\ v !! idx = Some x /\ / 100000000 < Rabs x /\
    Forall (fun i => exists y, v !! i = Some y /\ Rabs y <= / 100000000) l1.
Proof.
  induction idxs as [|idx rest IH]; simpl.
  - split; [discriminate|]. intros (l1 & i & l2 & x & E & _).
    now destruct l1.
  - unfold vget. destruct (v !! idx) as [x|] eqn:Ex; simpl.
    + rewrite threshold_test. destruct (Rlt_dec _ _) as [Hlt|Hge].
      * split; [intros _|reflexivity].
        exists [], idx, rest, x. repeat split; auto.
      * rewrite IH. split.
        -- intros (l1 & i & l2 & y & -> & Hy & Hbig & Hall).
           exists (idx :: l1), i, l2, y. repeat split; auto.
           constructor; [|exact Hall]. exists x. split; [auto|lra].
        -- intros (l1 & i & l2 & y & E & Hy & Hbig & Hall).
           destruct l1 as [|j l1]; simpl in E; injection E as -> ->.
           ++ rewrite Ex in Hy. injection Hy as <-. lra.
           ++ apply Forall_cons in Hall as [_ Hall].
              exists l1, i, l2, y. auto.
    + split; [discriminate|].
      intros (l1 & i & l2 & y & E & Hy & Hbig & Hall).
      destruct l1 as [|j l1]; simpl in E; injection E as -> ->.
      * rewrite Ex in Hy. discriminate.
      * apply Forall_cons in Hall as [(z & Hz & _) _].
        rewrite Ex in Hz. discriminate.
Qed.

(** X4: over the reals, IsUndistorted answers true exactly when every extra
    parameter of the model is at most 1e-8 in absolute value, in particular
    for a model without extra parameters; it answers false exactly when some
    extra parameter is larger and the ones listed before it are not, whatever
    comes after the first large one, which the loop never reads. *)
Theorem IsUndistorted_cases (c : Camera R) :
  (IsUndistorted c = Some true <->
   Forall (fun i => exists x, params c !! i = Some x /\ Rabs x <= / 100000000)
          (ExtraParamsIdxs c)) /\
  (IsUndistorted c = Some false <->
   exists l1 idx l2 x,
     ExtraParamsIdxs c = l1 ++ idx :: l2 /\
     params c !! idx = Some x /\ / 100000000 < Rabs x /\
     Forall (fun i => exists y, params c !! i = Some y /\
                                Rabs y <= / 100000000) l1) /\
  (ExtraParamsIdxs c = [] -> IsUndistorted c = Some true).
Proof.
  unfold IsUndistorted. split; [apply all_below_threshold_true|].
  split; [apply all_below_threshold_false|].
  intros ->. reflexivity.
Qed.

(** X5: over the reals, a camera whose model has just been selected on a
    default-constructed camera is undistorted: the selection fills the
    parameter vector with zeros.  The extra parameters of the model have to
    lie inside its parameter vector. *)
Theorem fresh_model_is_undistorted (id : Z) (c : Camera R) :
  (forall i, i ∈ CameraModelExtraParamsIdxs id ->
             (i < CameraModelNumParams id)%nat) ->
  SetModelId Camera_new id = Some c ->
  IsUndistorted c = Some true /\
  params c = replicate (CameraModelNumParams id) 0.
Proof.
  intros Hin Hs. unfold SetModelId in Hs.
  apply bind_Some in Hs as ([] & _ & [= <-]).
  assert (Hp : params (with_params (with_model_id Camera_new id)
                 (resize (CameraModelNumParams id) [])) =
               replicate (CameraModelNumParams id) 0).
  { simpl. rewrite resize_nil. f_equal. unfold lit. simpl. unfold Q2R. simpl.
    lra. }
  split; [|exact Hp].
  apply all_below_threshold_true. rewrite Hp.
  apply Forall_forall. intros i Hi. exists 0. split.
  - apply lookup_replicate_2. apply Hin. exact Hi.
  - rewrite Rabs_R0. lra.
Qed.

End UndistortedReal.

(** ** A model without focal length *)

Section NoFocalLength.
Import RatScalar.
Context {MF : Models qd}.

(** X6: for a camera whose model lists no focal length index, over the
    arithmetic with NaN: MeanFocalLength does not abort but divides zero by
    zero and returns NaN, and SetFocalLength returns without changing
    anything; FocalLength, FocalLengthX, FocalLengthY, CalibrationMatrix,
    both overloads of Rescale and VirtualCamera abort. *)
Theorem no_focal_length_index (c : Camera qd) :
  FocalLengthIdxs c = [] ->
  MeanFocalLength c = Some None /\
  (forall x, SetFocalLength c x = Some c) /\
  FocalLength c = None /\ FocalLengthX c = None /\ FocalLengthY c = None /\
  CalibrationMatrix c = None /\
  (forall scale, Rescale c scale = None) /\
  (forall new_width new_height, RescaleTo c new_width new_height = None) /\
  (forall image_point cam_point, VirtualCamera c image_point cam_point = None).
Proof.
  intros Hi.
  assert (Hres : forall c0 sx sy, FocalLengthIdxs c0 = [] ->
                                  rescale_params c0 sx sy = None).
  { intros c0 sx sy H0. unfold rescale_params.
    destruct (PrincipalPointX c0) as [ppx|]; simpl; [|reflexivity].
    destruct (SetPrincipalPointX c0 _) as [c1|] eqn:E1; simpl; [|reflexivity].
    apply SetPrincipalPointX_Some in E1 as (? & ? & _ & _ & ->).
    destruct (PrincipalPointY _) as [ppy|]; simpl; [|reflexivity].
    destruct (SetPrincipalPointY _ _) as [c2|] eqn:E2; simpl; [|reflexivity].
    apply SetPrincipalPointY_Some in E2 as (? & ? & _ & _ & ->).
    change (FocalLengthIdxs (with_params (with_params c0 _) _))
      with (FocalLengthIdxs c0).
    rewrite H0. reflexivity. }
  split; [unfold MeanFocalLength; rewrite Hi; reflexivity|].
  split.
  { intros x. unfold SetFocalLength. rewrite Hi. simpl. now destruct c. }
  unfold FocalLength, FocalLengthX, FocalLengthY, CalibrationMatrix.
  rewrite Hi. repeat (split; [reflexivity|]).
  split; [|split].
  - intros scale. unfold Rescale.
    destruct (CHECK _); simpl; [|reflexivity]. now apply Hres.
  - intros w h. unfold RescaleTo. now apply Hres.
  - intros p q. unfold VirtualCamera.
    destruct (SetModelIdFromName _ _); simpl; [|reflexivity].
    rewrite Hi. reflexivity.
Qed.

End NoFocalLength.

(** ** Selection of the two models *)

Section SelectionFacts.
Context {F : Type} {SF : Scalar F} {MF : Models F}.

Lemma resize_resize (n : nat) (v : list F) : resize n (resize n v) = resize n v.
Proof.
  unfold resize at 1. rewrite take_ge by (rewrite resize_length; lia).
  rewrite resize_length, Nat.sub_diag. simpl. apply app_nil_r.
Qed.

(** X7: the selection of the intrinsic model and the selection of the
    refraction model do not interfere: in either order they leave the same
    camera, and abort in the same cases.  Selecting the same model twice is
    the same as selecting it once: parameters set in between are kept. *)
Theorem model_selections_commute (c : Camera F) (id refrac_id : Z) :
  (c1 ← SetModelId c id; SetRefracModelId c1 refrac_id) =
  (c1 ← SetRefracModelId c refrac_id; SetModelId c1 id) /\
  (c1 ← SetModelId c id; SetModelId c1 id) = SetModelId c id /\
  (c1 ← SetRefracModelId c refrac_id; SetRefracModelId c1 refrac_id) =
  SetRefracModelId c refrac_id /\
  (forall c1 v c2,
     SetModelId c id = Some c1 ->
     length v = CameraModelNumParams id ->
     SetModelId (with_params c1 v) id = Some c2 ->
     params c2 = v).
Proof.
  unfold SetModelId, SetRefracModelId.
  destruct (ExistsCameraModelWithId id) eqn:E1;
    destruct (ExistsCameraRefracModelWithId refrac_id) eqn:E2; simpl;
    rewrite ?E1, ?E2; simpl; rewrite ?resize_resize;
    repeat split; try reflexivity; try discriminate.
  all: intros c1 v c2 [= <-] Hv [= <-]; simpl.
  all: unfold resize; rewrite take_ge by lia.
  all: rewrite Hv, Nat.sub_diag; simpl; apply app_nil_r.
Qed.

End SelectionFacts.

(** ** Rescaling, once more *)

Section RescaleMore.
Context {F : Type} {SF : Scalar F} {MF : Models F}.
Local Open Scope scalar_scope.

Lemma with_params_id (c : Camera F) : with_params c (params c) = c.
Proof. now destruct c. Qed.

Lemma frame_idxs (c c' : Camera F) :
  rescale_frame c c' ->
  FocalLengthIdxs c' = FocalLengthIdxs c /\
  PrincipalPointIdxs c' = PrincipalPointIdxs c.
Proof.
  intros (_ & Hm & _). unfold FocalLengthIdxs, PrincipalPointIdxs.
  now rewrite Hm.
Qed.

(** Two cameras with the same fields are the same camera. *)
Lemma camera_eq (c c' : Camera F) :
  camera_id c' = camera_id c -> model_id c' = model_id c ->
  width c' = width c -> height c' = height c ->
  params c' = params c -> prior_focal_length c' = prior_focal_length c ->
  refrac_model_id c' = refrac_model_id c ->
  refrac_params c' = refrac_params c -> c' = c.
Proof. destruct c, c'; simpl; intros; subst; reflexivity. Qed.

(** What [rescaled] says entry by entry, for a model with two principal
    point indices and one or two focal length indices. *)
Lemma rescaled_lookups (c c' : Camera F) (sx sy : F) :
  NoDup (FocalLengthIdxs c ++ PrincipalPointIdxs c) ->
  rescaled c c' sx sy ->
  exists p0 p1 ppx ppy,
    PrincipalPointIdxs c = [p0; p1] /\
    params c !! p0 = Some ppx /\ params c !! p1 = Some ppy /\
    params c' !! p0 = Some (sx * ppx) /\ params c' !! p1 = Some (sy * ppy) /\
    ((exists f0 f,
        FocalLengthIdxs c = [f0] /\ params c !! f0 = Some f /\
        params c' !! f0 = Some ((sx + sy) / lit 2 * f)) \/
     (exists f0 f1 fx fy,
        FocalLengthIdxs c = [f0; f1] /\
        params c !! f0 = Some fx /\ params c !! f1 = Some fy /\
        params c' !! f0 = Some (sx * fx) /\ params c' !! f1 = Some (sy * fy))).
Proof.
  intros Hnd [Hfr Hsc]. destruct (Hsc Hnd) as [Hpp Hf].
  destruct (frame_idxs c c' Hfr) as [EF EP].
  destruct Hpp as (ppx & ppy & H1 & H2 & H3 & H4).
  unfold PrincipalPointX, PrincipalPointY in H1, H2, H3, H4.
  rewrite EP in H3, H4.
  destruct (PrincipalPointIdxs c) as [|p0 [|p1 [|? ?]]]; try discriminate.
  exists p0, p1, ppx, ppy. repeat (split; [assumption || reflexivity|]).
  unfold focal_scaled, FocalLength, FocalLengthX, FocalLengthY in Hf.
  rewrite EF in Hf.
  destruct (FocalLengthIdxs c) as [|f0 [|f1 [|? ?]]]; try contradiction.
  - left. destruct Hf as (f & Hf1 & Hf2). exists f0, f. auto.
  - right. destruct Hf as (fx & fy & Hf1 & Hf2 & Hf3 & Hf4).
    exists f0, f1, fx, fy. auto.
Qed.

(** X8: rescaling scales the calibration matrix.  If no parameter index is
    listed twice by the model and the camera has a calibration matrix K,
    then after either overload of Rescale, with horizontal factor sx and
    vertical factor sy, the camera has the calibration matrix whose entries
    (0, 2) and (1, 2) are sx K(0, 2) and sy K(1, 2), and whose focal entries
    are sx K(0, 0) and sy K(1, 1) for a model with two focal lengths, both
    (sx + sy) / 2 times the old ones for a model with one. *)
Theorem CalibrationMatrix_after_Rescale (c : Camera F) (K : Matrix3d F) :
  NoDup (FocalLengthIdxs c ++ PrincipalPointIdxs c) ->
  CalibrationMatrix c = Some K ->
  let scaled (c' : Camera F) (sx sy : F) :=
    exists fx fy,
      CalibrationMatrix c' =
        Some (Mat3 fx (lit 0) (sx * m02 K)
                   (lit 0) fy (sy * m12 K)
                   (lit 0) (lit 0) (lit 1)) /\
      match FocalLengthIdxs c with
      | [_] => fx = (sx + sy) / lit 2 * m00 K /\
               fy = (sx + sy) / lit 2 * m11 K
      | _ => fx = sx * m00 K /\ fy = sy * m11 K
      end in
  (forall scale c', Rescale c scale = Some c' ->
     scaled c' (fround (scale * of_Z (width c)) / of_Z (width c))
               (fround (scale * of_Z (height c)) / of_Z (height c))) /\
  (forall new_width new_height c',
     RescaleTo c new_width new_height = Some c' ->
     scaled c' (of_Z new_width / of_Z (width c))
               (of_Z new_height / of_Z (height c))).
Proof.
  intros Hnd HK scaled.
  assert (Hres : forall c' sx sy, rescaled c c' sx sy -> scaled c' sx sy).
  { intros c' sx sy Hres.
    destruct (frame_idxs c c' (proj1 Hres)) as [EF EP].
    destruct (rescaled_lookups c c' sx sy Hnd Hres)
      as (p0 & p1 & ppx & ppy & Epp & Hp0 & Hp1 & Hp0' & Hp1' & Hfoc).
    unfold scaled, CalibrationMatrix, PrincipalPointX, PrincipalPointY, vget
      in HK |- *.
    rewrite EF, EP. rewrite Epp in HK |- *.
    destruct Hfoc as [(f0 & f & Ef & Hf & Hf')
                     |(f0 & f1 & fx & fy & Ef & Hfx & Hfy & Hfx' & Hfy')];
      rewrite Ef in HK |- *; cbv zeta in HK |- *.
    - rewrite Hf, Hp0, Hp1 in HK. rewrite Hf', Hp0', Hp1'.
      injection HK as <-. simpl. eauto.
    - rewrite Hfx, Hfy, Hp0, Hp1 in HK. rewrite Hfx', Hfy', Hp0', Hp1'.
      injection HK as <-. simpl. eauto. }
  destruct (Rescale_spec c) as [H1 H2]. split.
  - intros scale c' Hr. apply Hres. now destruct (H1 scale c' Hr) as (_ & _ & ?).
  - intros w h c' Hr. apply Hres. now destruct (H2 w h c' Hr) as (_ & _ & ?).
Qed.

End RescaleMore.

Section RescaleReal.
Import RealScalar.
Context {MF : Models R}.
Local Open Scope R_scope.

Lemma Rtrunc_IZR (k : Z) : Rtrunc (IZR k) = k.
Proof.
  unfold Rtrunc. destruct (Rle_dec 0 (IZR k)).
  - symmetry. apply Int_part_spec. lra.
  - rewrite <- opp_IZR.
    rewrite <- (Int_part_spec (IZR (- k)) (- k)) by lra. lia.
Qed.

Lemma Rround_IZR (k : Z) : Rround (IZR k) = IZR k.
Proof.
  unfold Rround. destruct (Rle_dec 0 (IZR k)).
  - f_equal. symmetry. apply Int_part_spec. lra.
  - rewrite <- (Int_part_spec (- IZR k + / 2) (- k)).
    + rewrite opp_IZR. lra.
    + rewrite opp_IZR. lra.
Qed.

(** A rounded value is an integer: converting it to [size_t] and back
    gives it again. *)
Lemma of_Z_to_Z_round (x : R) : IZR (Rtrunc (Rround x)) = Rround x.
Proof.
  assert (Hk : exists k, Rround x = IZR k).
  { unfold Rround. destruct (Rle_dec 0 x); [eauto|].
    eexists. rewrite <- opp_IZR. reflexivity. }
  destruct Hk as [k ->]. now rewrite Rtrunc_IZR.
Qed.

(** X9: over the reals, the overload of Rescale that takes a factor is the
    overload that takes a size, called with the rounded products of the
    factor and the old width and height: for a positive factor the two calls
    have the same result, and abort in the same cases. *)
Theorem Rescale_as_RescaleTo (c : Camera R) (scale : R) :
  0 < scale ->
  Rescale c scale =
  RescaleTo c (to_Z (fround (scale * of_Z (width c))))
              (to_Z (fround (scale * of_Z (height c)))).
Proof.
  intros Hs. unfold Rescale, RescaleTo.
  rewrite zero_lt_lit_0 by exact Hs. cbn [CHECK mbind option_bind].
  change (rescale_params
            (SetHeight (SetWidth c (Rtrunc (Rround (scale * IZR (width c)))))
                       (Rtrunc (Rround (scale * IZR (height c)))))
            (Rround (scale * IZR (width c)) / IZR (width c))
            (Rround (scale * IZR (height c)) / IZR (height c)) =
          rescale_params
            (SetHeight (SetWidth c (Rtrunc (Rround (scale * IZR (width c)))))
                       (Rtrunc (Rround (scale * IZR (height c)))))
            (IZR (Rtrunc (Rround (scale * IZR (width c)))) / IZR (width c))
            (IZR (Rtrunc (Rround (scale * IZR (height c)))) / IZR (height c))).
  now rewrite !of_Z_to_Z_round.
Qed.

(** With both factors equal to one the parameters are written back as they
    were. *)
Lemma rescale_params_unit (c c' : Camera R) :
  rescale_params c 1 1 = Some c' -> c' = c.
Proof.
  unfold rescale_params. intros Hr.
  apply bind_Some in Hr as (ppx & Hppx & Hr).
  apply bind_Some in Hr as (c1 & H1 & Hr).
  assert (E1 : c1 = c).
  { apply SetPrincipalPointX_Some in H1 as (p0 & p1 & Epp & _ & ->).
    unfold PrincipalPointX, vget in Hppx. rewrite Epp in Hppx.
    change (fmul 1 ppx) with (1 * ppx). rewrite Rmult_1_l.
    rewrite list_insert_id by exact Hppx. apply with_params_id. }
  subst c1.
  apply bind_Some in Hr as (ppy & Hppy & Hr).
  apply bind_Some in Hr as (c2 & H2 & Hr).
  assert (E2 : c2 = c).
  { apply SetPrincipalPointY_Some in H2 as (p0 & p1 & Epp & _ & ->).
    unfold PrincipalPointY, vget in Hppy. rewrite Epp in Hppy.
    change (fmul 1 ppy) with (1 * ppy). rewrite Rmult_1_l.
    rewrite list_insert_id by exact Hppy. apply with_params_id. }
  subst c2.
  destruct (FocalLengthIdxs c) as [|f0 [|f1 [|? ?]]] eqn:Ef;
    simpl in Hr; try discriminate.
  - apply bind_Some in Hr as (f & Hf & Hr).
    apply (SetFocalLength_single _ _ _ f0 Ef) in Hr as [_ ->].
    unfold FocalLength, vget in Hf. rewrite Ef in Hf.
    replace ((1 + 1) / Q2R 2 * f) with f by (unfold Q2R; simpl; field).
    rewrite list_insert_id by exact Hf. apply with_params_id.
  - apply bind_Some in Hr as (fx & Hfx & Hr).
    apply bind_Some in Hr as (c3 & H3 & Hr).
    assert (E3 : c3 = c).
    { apply SetFocalLengthX_Some in H3 as (g0 & g1 & Eg & _ & ->).
      rewrite Ef in Eg. injection Eg as <- <-.
      unfold FocalLengthX, vget in Hfx. rewrite Ef in Hfx.
      change (fmul 1 fx) with (1 * fx). rewrite Rmult_1_l.
      rewrite list_insert_id by exact Hfx. apply with_params_id. }
    subst c3.
    apply bind_Some in Hr as (fy & Hfy & Hr).
    apply SetFocalLengthY_Some in Hr as (g0 & g1 & Eg & _ & ->).
    rewrite Ef in Eg. injection Eg as <- <-.
    unfold FocalLengthY, vget in Hfy. rewrite Ef in Hfy.
    change (fmul 1 fy) with (1 * fy). rewrite Rmult_1_l.
    rewrite list_insert_id by exact Hfy. apply with_params_id.
Qed.

(** X10: over the reals, rescaling a camera to the size it has changes
    nothing: if the call with the camera's own (non-zero) width and height
    returns, it returns the camera as it was, and so does a rescaling by the
    factor 1. *)
Theorem Rescale_to_same_size (c c' : Camera R) :
  width c <> 0%Z -> height c <> 0%Z ->
  RescaleTo c (width c) (height c) = Some c' ->
  c' = c /\ Rescale c 1 = Some c.
Proof.
  intros Hw Hh Hr.
  assert (Hsame : SetHeight (SetWidth c (width c)) (height c) = c)
    by now destruct c.
  assert (Hone : forall k : Z, k <> 0%Z -> IZR k / IZR k = 1).
  { intros k Hk. field. now apply not_0_IZR. }
  assert (Hto : RescaleTo c (width c) (height c) = rescale_params c 1 1).
  { unfold RescaleTo. rewrite Hsame.
    change (rescale_params c (IZR (width c) / IZR (width c))
                             (IZR (height c) / IZR (height c)) =
            rescale_params c 1 1).
    now rewrite !Hone. }
  rewrite Hto in Hr. apply rescale_params_unit in Hr as Hc. subst c'.
  split; [reflexivity|].
  unfold Rescale. rewrite zero_lt_lit_0 by lra. cbn [CHECK mbind option_bind].
  change (rescale_params
            (SetHeight (SetWidth c (Rtrunc (Rround (1 * IZR (width c)))))
                       (Rtrunc (Rround (1 * IZR (height c)))))
            (Rround (1 * IZR (width c)) / IZR (width c))
            (Rround (1 * IZR (height c)) / IZR (height c)) = Some c).
  rewrite !Rmult_1_l, !Rround_IZR, !Rtrunc_IZR, Hsame, !Hone by assumption.
  exact Hr.
Qed.

(** X11: over the reals, rescaling to another size and back to the first
    one restores the camera: always for a model with two focal lengths, and
    for a model with one focal length when the other size has the same
    aspect ratio.  No parameter index may be listed twice by the model, and
    none of the four widths and heights may be zero. *)
Theorem RescaleTo_and_back (c c1 c2 : Camera R) (w h : Z) :
  NoDup (FocalLengthIdxs c ++ PrincipalPointIdxs c) ->
  width c <> 0%Z -> height c <> 0%Z -> w <> 0%Z -> h <> 0%Z ->
  (length (FocalLengthIdxs c) = 2%nat \/
   IZR w * IZR (height c) = IZR h * IZR (width c)) ->
  RescaleTo c w h = Some c1 ->
  RescaleTo c1 (width c) (height c) = Some c2 ->
  c2 = c.
Proof.
  intros Hnd Hw0 Hh0 Hw Hh Hcase H1 H2.
  apply not_0_IZR in Hw0, Hh0, Hw, Hh.
  destruct (Rescale_spec c) as [_ HA].
  destruct (HA w h c1 H1) as (Hw1 & Hh1 & Hres1).
  destruct (Rescale_spec c1) as [_ HB].
  destruct (HB _ _ c2 H2) as (Hw2 & Hh2 & Hres2).
  rewrite Hw1, Hh1 in Hres2.
  pose proof (proj1 Hres1) as Hfr1. pose proof (proj1 Hres2) as Hfr2.
  destruct (frame_idxs c c1 Hfr1) as [EF EP].
  assert (Hnd1 : NoDup (FocalLengthIdxs c1 ++ PrincipalPointIdxs c1))
    by now rewrite EF, EP.
  destruct (rescaled_lookups c c1 _ _ Hnd Hres1)
    as (p0 & p1 & ppx & ppy & Epp & Hp0 & Hp1 & Hp0' & Hp1' & Hfoc).
  destruct (rescaled_lookups c1 c2 _ _ Hnd1 Hres2)
    as (q0 & q1 & ppx' & ppy' & Eqq & Hq0 & Hq1 & Hq0' & Hq1' & Hfoc').
  rewrite EP, Epp in Eqq. injection Eqq as <- <-.
  rewrite Hp0' in Hq0. injection Hq0 as <-.
  rewrite Hp1' in Hq1. injection Hq1 as <-.
  destruct Hfr1 as (Hid1 & Hm1 & Hpf1 & Hrm1 & Hrp1 & Hlen1 & Hoth1).
  destruct Hfr2 as (Hid2 & Hm2 & Hpf2 & Hrm2 & Hrp2 & Hlen2 & Hoth2).
  rewrite EF, EP in Hoth2.
  apply camera_eq; try congruence.
  apply list_eq. intros i.
  destruct (decide (i = p0)) as [->|Hip0].
  { rewrite Hq0', Hp0. f_equal.
    change (IZR (width c) / IZR w * (IZR w / IZR (width c) * ppx) = ppx).
    now field. }
  destruct (decide (i = p1)) as [->|Hip1].
  { rewrite Hq1', Hp1. f_equal.
    change (IZR (height c) / IZR h * (IZR h / IZR (height c) * ppy) = ppy).
    now field. }
  assert (Hip : i ∉ PrincipalPointIdxs c).
  { rewrite Epp. intros Hi. apply elem_of_cons in Hi as [->|Hi]; [easy|].
    apply elem_of_cons in Hi as [->|Hi]; [easy|]. inversion Hi. }
  destruct Hfoc as [(f0 & f & Ef & Hf & Hf')
                   |(f0 & f1 & fx & fy & Ef & Hfx & Hfy & Hfx' & Hfy')].
  - destruct Hfoc' as [(g0 & g & Eg & Hg & Hg')
                      |(g0 & g1 & gx & gy & Eg & _)];
      rewrite EF, Ef in Eg; [|discriminate].
    injection Eg as <-. rewrite Hf' in Hg. injection Hg as <-.
    destruct Hcase as [Hlen|Hasp]; [rewrite Ef in Hlen; discriminate|].
    destruct (decide (i = f0)) as [->|Hif0].
    + rewrite Hg', Hf. f_equal.
      change ((IZR (width c) / IZR w + IZR (height c) / IZR h) / lit 2 *
              ((IZR w / IZR (width c) + IZR h / IZR (height c)) / lit 2 * f)
              = f).
      rewrite lit_2.
      assert (Eh : IZR h = IZR w * IZR (height c) / IZR (width c))
        by (field_simplify_eq; [lra|assumption]).
      rewrite Eh. field. repeat split; assumption.
    + rewrite Hoth2, Hoth1; try assumption; try reflexivity;
        rewrite Ef; intros Hi; apply elem_of_cons in Hi as [->|Hi];
        try easy; inversion Hi.
  - destruct Hfoc' as [(g0 & g & Eg & _)
                      |(g0 & g1 & gx & gy & Eg & Hgx & Hgy & Hgx' & Hgy')];
      rewrite EF, Ef in Eg; [discriminate|].
    injection Eg as <- <-.
    rewrite Hfx' in Hgx. injection Hgx as <-.
    rewrite Hfy' in Hgy. injection Hgy as <-.
    destruct (decide (i = f0)) as [->|Hif0].
    { rewrite Hgx', Hfx. f_equal.
      change (IZR (width c) / IZR w * (IZR w / IZR (width c) * fx) = fx).
      now field. }
    destruct (decide (i = f1)) as [->|Hif1].
    { rewrite Hgy', Hfy. f_equal.
      change (IZR (height c) / IZR h * (IZR h / IZR (height c) * fy) = fy).
      now field. }
    rewrite Hoth2, Hoth1; try assumption; try reflexivity;
      rewrite Ef; intros Hi; apply elem_of_cons in Hi as [->|Hi];
      try easy; apply elem_of_cons in Hi as [->|Hi]; try easy; inversion Hi.
Qed.

End RescaleReal.

(** ** Setting every focal length at once *)

Section SetFocalLengthFacts.
Context {F : Type} {SF : Scalar F} {MF : Models F}.

Lemma set_params_at_spec (idxs : list nat) (x : F) :
  forall v v', set_params_at v idxs x = Some v' ->
    length v' = length v /\
    (forall i, i ∈ idxs -> (i < length v)%nat /\ v' !! i = Some x) /\
    (forall i, i ∉ idxs -> v' !! i = v !! i).
Proof.
  induction idxs as [|idx rest IH]; intros v v' Hs; simpl in Hs.
  - injection Hs as <-. split; [reflexivity|]. split; [|reflexivity].
    intros i Hi. inversion Hi.
  - apply bind_Some in Hs as (v1 & H1 & Hs).
    apply vset_Some in H1 as [-> Hlt].
    destruct (IH _ _ Hs) as (Hlen & Hin & Hout).
    rewrite length_insert in Hlen, Hin.
    split; [exact Hlen|]. split.
    + intros i Hi. destruct (decide (i ∈ rest)) as [Hr|Hr]; [now apply Hin|].
      apply elem_of_cons in Hi as [->|Hi]; [|contradiction].
      split; [exact Hlt|]. rewrite Hout by exact Hr.
      now apply list_lookup_insert_eq.
    + intros i Hi. apply not_elem_of_cons in Hi as [Hne Hr].
      rewrite Hout by exact Hr. now apply list_lookup_insert_ne.
Qed.

Lemma set_params_at_is_Some (idxs : list nat) (x : F) :
  forall v, Forall (fun i => (i < length v)%nat) idxs ->
            is_Some (set_params_at v idxs x).
Proof.
  induction idxs as [|idx rest IH]; intros v Hall; simpl; [eauto|].
  apply Forall_cons in Hall as [Hlt Hall]. unfold vset.
  destruct (decide _); [|contradiction]. simpl.
  apply IH. now rewrite length_insert.
Qed.

End SetFocalLengthFacts.

Section SetFocalLengthReal.
Import RealScalar.
Context {MF : Models R}.
Local Open Scope R_scope.

Lemma sum_params_const (v : list R) (idxs : list nat) (x : R) :
  (forall i, i ∈ idxs -> v !! i = Some x) ->
  forall acc, sum_params v idxs acc =
              Some (acc + IZR (Z.of_nat (length idxs)) * x).
Proof.
  induction idxs as [|idx rest IH]; intros Hv acc; cbn [sum_params length].
  - f_equal. change (Z.of_nat 0) with 0%Z. ring.
  - unfold vget. rewrite (Hv idx) by constructor. cbn [mbind option_bind].
    rewrite IH by (intros i Hi; apply Hv; now constructor).
    f_equal. rewrite Nat2Z.inj_succ, succ_IZR.
    change (fadd acc x) with (acc + x). ring.
Qed.

(** X12: SetFocalLength writes the value to every focal length index of the
    model.  It aborts exactly when one of these indices lies outside the
    parameter vector.  When it returns, every focal length entry holds the
    value, the other entries and the length of the vector are as before,
    and, over the reals, for a model with at least one focal length,
    MeanFocalLength returns the value that was set. *)
Theorem SetFocalLength_sets_mean (c : Camera R) (f : R) :
  (is_Some (SetFocalLength c f) <->
   Forall (fun i => (i < length (params c))%nat) (FocalLengthIdxs c)) /\
  (forall c', SetFocalLength c f = Some c' ->
     (forall i, i ∈ FocalLengthIdxs c -> params c' !! i = Some f) /\
     (forall i, i ∉ FocalLengthIdxs c -> params c' !! i = params c !! i) /\
     length (params c') = length (params c) /\
     model_id c' = model_id c /\ width c' = width c /\ height c' = height c /\
     (FocalLengthIdxs c <> [] -> MeanFocalLength c' = Some f)).
Proof.
  split.
  - unfold SetFocalLength. split.
    + intros [c' Hs]. apply bind_Some in Hs as (p & Hp & _).
      apply set_params_at_spec in Hp as (_ & Hin & _).
      apply Forall_forall. intros i Hi. now apply Hin.
    + intros Hall.
      destruct (set_params_at_is_Some (FocalLengthIdxs c) f _ Hall)
        as [p ->].
      simpl. eauto.
  - intros c' Hs. unfold SetFocalLength in Hs.
    apply bind_Some in Hs as (p & Hp & [= <-]).
    apply set_params_at_spec in Hp as (Hlen & Hin & Hout).
    split; [intros i Hi; now apply Hin|]. split; [exact Hout|].
    split; [exact Hlen|]. repeat (split; [reflexivity|]).
    intros Hne. unfold MeanFocalLength.
    change (FocalLengthIdxs (with_params c p)) with (FocalLengthIdxs c).
    cbn [params with_params].
    rewrite (sum_params_const p (FocalLengthIdxs c) f)
      by (intros i Hi; now apply Hin).
    cbn [mbind option_bind]. f_equal. rewrite lit_0.
    change (fdiv ?a ?b) with (a / b).
    change (of_Z ?z) with (IZR z).
    set (n := IZR (Z.of_nat (length (FocalLengthIdxs c)))).
    assert (Hn : n <> 0).
    { unfold n. apply not_0_IZR.
      destruct (FocalLengthIdxs c); [contradiction|]. simpl. lia. }
    field. exact Hn.
Qed.

End SetFocalLengthReal.

(** ** Virtual cameras, once more *)

Section VirtualMore.
Context {F : Type} {SF : Scalar F} {MF : Models F}.

(** A virtual camera is built on a default-constructed camera: it has no
    identifier and no refraction model. *)
Lemma VirtualCamera_is_plain (c vc : Camera F) (p q : Vector2d F) :
  VirtualCamera c p q = Some vc ->
  camera_id vc = kInvalidCameraId /\
  width vc = width c /\ height vc = height c /\
  prior_focal_length vc = false /\
  refrac_model_id vc = kInvalidRefractiveCameraModelId /\
  refrac_params vc = [] /\
  IsCameraRefractive vc = false.
Proof.
  unfold VirtualCamera. intros Hv.
  apply bind_Some in Hv as (vc0 & H0 & Hv).
  unfold SetModelIdFromName in H0.
  apply bind_Some in H0 as ([] & _ & [= <-]).
  apply bind_Some in Hv as (f & _ & [= <-]).
  unfold SetParams, IsCameraRefractive.
  destruct (CameraModelVerifyParams _ _); simpl; rewrite Z.eqb_refl; auto 10.
Qed.

(** X13: ComputeVirtuals splits over concatenation: processing two batches
    of pixels one after the other, the second on the vectors the first one
    left, is processing their concatenation; and if ComputeVirtual aborts on
    one pixel of the batch, the whole call aborts. *)
Theorem ComputeVirtuals_app (c : Camera F) (l1 l2 : list (Vector2d F))
    (vcs : list (Camera F)) (vfrs : list (Rigid3d F)) :
  ComputeVirtuals c (l1 ++ l2) vcs vfrs =
    (r ← ComputeVirtuals c l1 vcs vfrs; ComputeVirtuals c l2 r.1 r.2) /\
  (forall p, p ∈ l1 -> ComputeVirtual c p = None ->
             ComputeVirtuals c (l1 ++ l2) vcs vfrs = None).
Proof.
  revert vcs vfrs. induction l1 as [|p l1 IH]; intros vcs vfrs.
  - split; [reflexivity|]. intros p Hp. inversion Hp.
  - simpl. destruct (ComputeVirtual c p) as [r|] eqn:Er; simpl.
    + destruct (IH (vcs ++ [r.1]) (vfrs ++ [r.2])) as [H1 H2].
      split; [exact H1|].
      intros p' Hp' Hnone. apply elem_of_cons in Hp' as [->|Hp'].
      * rewrite Er in Hnone. discriminate.
      * now apply (H2 p').
    + split; reflexivity.
Qed.

End VirtualMore.

Section VirtualMoreReal.
Import RealScalar.
Context {MF : Models R}.
Local Open Scope R_scope.

Ltac components :=
  cbv [qsquaredNorm qrot qconjugate cross vadd vsub vneg vscale vdivs qvec dot
       squaredNorm v3x v3y v3z qw qx qy qz fadd fsub fmul fdiv fneg R_Scalar
       rigid_apply rotation translation].

(** X14: over the reals, ComputeVirtual returns a virtual camera and a
    transform such that the transform sends the virtual camera centre (the
    point VirtualCameraCenter computes for the refracted ray of the pixel)
    to the origin, and the virtual camera projects the direction of the
    refracted ray, rotated into the virtual frame, back to the pixel.  The
    virtual camera has the size of the real one and is not refractive.  The
    catalogue has to hold SIMPLE_PINHOLE, the model one or two focal
    lengths, and the validator has to accept the parameters. *)
Theorem ComputeVirtual_centre_and_pixel (c : Camera R) (point2D : Vector2d R) :
  simple_pinhole_in_catalogue ->
  one_or_two_focal_lengths c ->
  (forall f q, MeanFocalLength c = Some f ->
     CameraModelVerifyParams (CameraModelNameToId "SIMPLE_PINHOLE")
                             (virtual_params f point2D q) = true) ->
  exists vc vfr,
    ComputeVirtual c point2D = Some (vc, vfr) /\
    rigid_apply vfr (VirtualCameraCenter c (CamFromImgRefrac c point2D)) =
      Vec3 0 0 0 /\
    ImgFromCam vc (hnormalized (qrot (rotation vfr)
                                     (dir (CamFromImgRefrac c point2D)))) =
      point2D /\
    width vc = width c /\ height vc = height c /\
    IsCameraRefractive vc = false.
Proof.
  intros Hcat Hfoc Hver.
  set (q := hnormalized (qrot (VirtualFromRealRotation c)
                              (dir (CamFromImgRefrac c point2D)))).
  destruct (VirtualCamera_spec c point2D q Hcat Hfoc
              (fun f Hf => Hver f q Hf))
    as (vc & f & Hvc & _ & _ & Hw & Hh & _ & Hproj).
  exists vc. eexists. unfold ComputeVirtual. cbv zeta. fold q.
  rewrite Hvc. cbn [mbind option_bind]. split; [reflexivity|].
  cbn [rotation]. fold q. split; [|split; [exact Hproj|]].
  - destruct (VirtualCameraCenter c _) as [a b d].
    destruct (VirtualFromRealRotation c) as [w x y z].
    components. f_equal; ring.
  - split; [exact Hw|]. split; [exact Hh|].
    now destruct (VirtualCamera_is_plain c vc point2D q Hvc)
      as (_ & _ & _ & _ & _ & _ & ?).
Qed.

Lemma FromTwoVectors_shortest
    (null_axis : Vector3d R -> Vector3d R -> Vector3d R) (a : Vector3d R) :
  dot a a = 1 ->
  (v3z a < -1 + / 1000000000000 ->
   dot (null_axis a UnitZ) a = 0 /\ dot (null_axis a UnitZ) UnitZ = 0 /\
   dot (null_axis a UnitZ) (null_axis a UnitZ) = 1) ->
  let q := FromTwoVectors null_axis a UnitZ in
  qz q = 0 /\ 0 <= qw q /\ dot (qvec q) a = 0 /\
  (a = Vec3 0 0 1 -> q = Quat 1 0 0 0).
Proof.
  intros Hu Hsvd. unfold FromTwoVectors. cbv zeta.
  rewrite (normalized_unit a Hu).
  rewrite (normalized_unit UnitZ UnitZ_unit).
  rewrite UnitZ_dot, threshold_real.
  destruct a as [x y z]. cbn [v3x v3y v3z] in *.
  assert (Hxyz : x * x + y * y + z * z = 1) by exact Hu.
  pose proof (unit_z_range x y z Hxyz) as Hz.
  change (flt z (-1 + / 1000000000000)) with (Rltb z (-1 + / 1000000000000)).
  destruct (Rlt_dec z (-1 + / 1000000000000)) as [Hlt|Hge].
  - rewrite (Rltb_true _ _ Hlt).
    change (flt z (fneg (lit 1))) with (Rltb z (- lit 1)).
    rewrite lit_1, lit_half. rewrite Rltb_false by lra.
    destruct (Hsvd Hlt) as (Hn0 & HnZ & Hn1).
    rewrite dot_UnitZ in HnZ.
    destruct (null_axis (Vec3 x y z) UnitZ) as [nx ny nz].
    cbn [v3x v3y v3z] in *. subst nz.
    change (fsqrt ?t) with (sqrt t).
    cbn [qz qw qvec]. split; [change (0 * sqrt (1 - (1 + z) * / 2) = 0); ring|].
    split; [apply sqrt_pos|]. split.
    + unfold dot in Hn0 |- *. cbn [v3x v3y v3z] in Hn0 |- *.
      change (nx * x + ny * y + 0 * z = 0) in Hn0.
      set (s := sqrt (1 - (1 + z) * / 2)).
      change (nx * s * x + ny * s * y + 0 * s * z = 0).
      replace (nx * s * x + ny * s * y + 0 * s * z)
        with (s * (nx * x + ny * y + 0 * z)) by ring.
      rewrite Hn0. ring.
    + intros [= -> -> ->]. lra.
  - rewrite Rltb_false by lra.
    rewrite lit_1, lit_2, lit_half.
    change (fsqrt ?t) with (sqrt t).
    set (s := sqrt ((1 + z) * 2)).
    assert (Hs : 0 < s) by (unfold s; apply sqrt_lt_R0; lra).
    match goal with
    | |- qz ?q = 0 /\ _ =>
        assert (Eq : q = Quat (s * / 2) (y * (1 / s)) (- x * (1 / s)) 0)
    end.
    { unfold cross, UnitZ, lit. simpl. unfold Q2R. simpl. fold s.
      f_equal; field; lra. }
    rewrite Eq. cbn [qz qw qvec]. split; [reflexivity|].
    split; [lra|]. split.
    + unfold dot. cbn [v3x v3y v3z].
      change (y * (1 / s) * x + - x * (1 / s) * y + 0 * z = 0). field. lra.
    + intros [= -> -> ->].
      assert (E2 : s = 2).
      { unfold s. replace ((1 + 1) * 2) with (2 * 2) by ring.
        apply sqrt_square. lra. }
      rewrite E2. f_equal; field.
Qed.

(** X15: over the reals, for a refraction axis of unit length, the rotation
    VirtualFromRealRotation is the shortest one: it has no component about
    the optical axis (the z coefficient of the quaternion is zero), its
    axis is orthogonal to the refraction axis, its scalar part is not
    negative, and when the refraction axis already is +Z it is the identity
    quaternion, which leaves every vector as it is. *)
Theorem VirtualFromRealRotation_is_shortest (c : Camera R) :
  dot (RefractionAxis c) (RefractionAxis c) = 1 ->
  svd_axis_is_null (RefractionAxis c) ->
  qz (VirtualFromRealRotation c) = 0 /\
  0 <= qw (VirtualFromRealRotation c) /\
  dot (qvec (VirtualFromRealRotation c)) (RefractionAxis c) = 0 /\
  (RefractionAxis c = Vec3 0 0 1 ->
   VirtualFromRealRotation c = Quat 1 0 0 0 /\
   forall v, qrot (VirtualFromRealRotation c) v = v).
Proof.
  unfold VirtualFromRealRotation, svd_axis_is_null.
  set (a := RefractionAxis c). intros Hu Hsvd. cbv zeta in Hsvd.
  rewrite (normalized_unit a Hu) in Hsvd.
  rewrite (normalized_unit UnitZ UnitZ_unit) in Hsvd.
  rewrite UnitZ_dot in Hsvd.
  destruct (FromTwoVectors_onto_UnitZ svd_null_axis a Hu Hsvd) as (Hq & _).
  destruct (FromTwoVectors_shortest svd_null_axis a Hu Hsvd)
    as (H1 & H2 & H3 & H4).
  rewrite (qnormalized_unit _ Hq).
  split; [exact H1|]. split; [exact H2|]. split; [exact H3|].
  intros Ha. rewrite (H4 Ha). split; [reflexivity|].
  intros [x y z]. components. f_equal; ring.
Qed.

End VirtualMoreReal.

(** ** Generation of synthetic correspondences, once more *)

Section GenerationMore.
Context {F : Type} {SF : Scalar F} {MF : Models F} {PF : PRNG F}.

(** X16: without noise the generated samples are exact correspondences
    inside the image.  When the noise level is not positive and every sample
    is an inlier, each stored sample comes from one pixel p of view 1 and one
    depth d: the point X at distance d on the refracted ray of p is
    projected without refraction into view 1 and, after the ground-truth
    motion, with and without refraction into view 2; the four stored pixels
    are these, unperturbed, and the refractive pixel (x, y) of view 2 has no
    NaN coordinate and satisfies none of x < 0, width < x, y < 0,
    height < y. *)
Theorem noise_free_samples_are_exact (camera : Camera F) (num_points : Z)
    (gt : Rigid3d F) (noise_level inlier_ratio : F) (fuel : nat)
    (pd pd' : PointsData F) (g g' : rng) :
  (0 <= num_points < size_t_max)%Z ->
  flt (lit 0) noise_level = false ->
  (num_points <= to_Z (fmul (of_Z num_points) inlier_ratio))%Z ->
  GenerateRandom2D2DPoints fuel camera num_points gt pd noise_level
                           inlier_ratio g = (Returned pd', g') ->
  forall (i : nat) (p2r : Vector2d F),
    points2D2_refrac pd' !! i = Some p2r ->
    fisnan (v2x p2r) = false /\ fisnan (v2y p2r) = false /\
    flt (v2x p2r) (lit 0) = false /\
    flt (of_Z (width camera)) (v2x p2r) = false /\
    flt (v2y p2r) (lit 0) = false /\
    flt (of_Z (height camera)) (v2y p2r) = false /\
    exists (p : Vector2d F) (d : F),
      let X := At (CamFromImgRefrac camera p) d in
      points2D1_refrac pd' !! i = Some p /\
      points2D1 pd' !! i = Some (ImgFromCam camera (hnormalized X)) /\
      points2D2 pd' !! i =
        Some (ImgFromCam camera (hnormalized (rigid_apply gt X))) /\
      p2r = ImgFromCamRefrac camera (rigid_apply gt X).
Proof.
  intros Hn Hnoise Hinl Hg i p2r Hi.
  destruct (generate_as_specified _ _ _ _ _ _ _ _ _ _ Hn Hg)
    as (l & _ & Hlen & E1 & E2 & E3 & E4 & _ & Hl).
  rewrite E4 in Hi.
  change (map s_point2D2_refrac l) with (s_point2D2_refrac <$> l) in Hi.
  rewrite list_lookup_fmap in Hi.
  destruct (l !! i) as [s|] eqn:Hs; [|discriminate]. injection Hi as <-.
  destruct (Hl i s Hs) as (g0 & Hacc & Es). cbv zeta in Hacc, Es.
  assert (Hi : (Z.of_nat i < to_Z (fmul (of_Z num_points) inlier_ratio))%Z).
  { apply lookup_lt_Some in Hs. lia. }
  unfold spec_stddev in Es. apply Z.ltb_lt in Hi. rewrite Hi, Hnoise in Es.
  cbn [spec_noise fst] in Es. subst s.
  unfold spec_unacceptable in Hacc.
  cbn [spec_sample s_point2D2_refrac].
  repeat (apply orb_false_elim in Hacc as [Hacc ?]).
  repeat (split; [assumption|]).
  eexists _, _. cbv zeta.
  rewrite E1, E2, E3.
  change (map s_point2D1 l) with (s_point2D1 <$> l).
  change (map s_point2D2 l) with (s_point2D2 <$> l).
  change (map s_point2D1_refrac l) with (s_point2D1_refrac <$> l).
  rewrite !list_lookup_fmap, Hs. cbn [fmap option_fmap option_map].
  cbn [spec_sample spec_candidate s_point2D1 s_point2D2 s_point2D1_refrac
       s_point2D2_refrac cand_point2D1_refrac cand_point3D1 cand_point3D2
       cand_point2D2_refrac fst].
  repeat split; reflexivity.
Qed.

(** X17: a data set that is passed to GenerateRandom2D2DPoints a second time
    gets its four point vectors replaced but its vectors of virtual cameras
    and transforms extended: after the second call each point vector holds
    num_points pixels, each virtual vector twice as many entries, and the
    first num_points virtual cameras are still those of the first call, so
    that entry i no longer belongs to pixel i. *)
Theorem reused_data_set_keeps_old_virtuals (camera : Camera F)
    (num_points : Z) (gt gt' : Rigid3d F)
    (noise_level inlier_ratio noise_level' inlier_ratio' : F)
    (fuel fuel' : nat) (pd0 pd1 pd2 : PointsData F) (g g1 g2 : rng) :
  (0 <= num_points < size_t_max)%Z ->
  virtual_cameras1 pd0 = [] -> virtual_cameras2 pd0 = [] ->
  virtual_from_reals1 pd0 = [] -> virtual_from_reals2 pd0 = [] ->
  GenerateRandom2D2DPoints fuel camera num_points gt pd0 noise_level
                           inlier_ratio g = (Returned pd1, g1) ->
  GenerateRandom2D2DPoints fuel' camera num_points gt' pd1 noise_level'
                           inlier_ratio' g1 = (Returned pd2, g2) ->
  length (points2D1_refrac pd2) = Z.to_nat num_points /\
  length (points2D2_refrac pd2) = Z.to_nat num_points /\
  length (virtual_cameras1 pd2) = (2 * Z.to_nat num_points)%nat /\
  length (virtual_cameras2 pd2) = (2 * Z.to_nat num_points)%nat /\
  length (virtual_from_reals1 pd2) = (2 * Z.to_nat num_points)%nat /\
  length (virtual_from_reals2 pd2) = (2 * Z.to_nat num_points)%nat /\
  take (Z.to_nat num_points) (virtual_cameras1 pd2) = virtual_cameras1 pd1 /\
  take (Z.to_nat num_points) (virtual_cameras2 pd2) = virtual_cameras2 pd1 /\
  take (Z.to_nat num_points) (virtual_from_reals1 pd2) =
    virtual_from_reals1 pd1 /\
  take (Z.to_nat num_points) (virtual_from_reals2 pd2) =
    virtual_from_reals2 pd1.
Proof.
  intros Hn V1 V2 V3 V4 Hg1 Hg2.
  assert (Hrun : forall fuel gt nl ir pd g pd' g',
            GenerateRandom2D2DPoints fuel camera num_points gt pd nl ir g
              = (Returned pd', g') ->
            length (points2D1_refrac pd') = Z.to_nat num_points /\
            length (points2D2_refrac pd') = Z.to_nat num_points /\
            (exists a, virtual_cameras1 pd' = virtual_cameras1 pd ++ a /\
                       length a = Z.to_nat num_points) /\
            (exists a, virtual_cameras2 pd' = virtual_cameras2 pd ++ a /\
                       length a = Z.to_nat num_points) /\
            (exists a, virtual_from_reals1 pd' = virtual_from_reals1 pd ++ a /\
                       length a = Z.to_nat num_points) /\
            (exists a, virtual_from_reals2 pd' = virtual_from_reals2 pd ++ a /\
                       length a = Z.to_nat num_points)).
  { clear - Hn. intros fuel gt nl ir pd g pd' g' Hg.
    pose proof (generate_well_generated _ _ _ _ _ _ _ _ _ _ Hn Hg) as Hw.
    destruct Hw as (l & _ & Hlen & _ & _ & E3 & E4 & _).
    assert (L3 : length (points2D1_refrac pd') = Z.to_nat num_points)
      by (rewrite E3, length_map; lia).
    assert (L4 : length (points2D2_refrac pd') = Z.to_nat num_points)
      by (rewrite E4, length_map; lia).
    split; [exact L3|]. split; [exact L4|].
    apply generate_returned in Hg as (pdm & Hloop & Hcv).
    apply loop_collects in Hloop as (l' & _ & He); [|assumption|lia].
    destruct He as (_ & _ & _ & _ & W1 & W2 & W3 & W4 & _). simpl in *.
    pose proof (compute_virtuals_points _ _ _ Hcv) as (_ & _ & P3 & P4 & _).
    unfold compute_virtuals in Hcv.
    destruct (ComputeVirtuals camera (points2D1_refrac pdm) _ _)
      as [[a1 b1]|] eqn:C1; [|discriminate].
    destruct (ComputeVirtuals camera (points2D2_refrac pdm) _ _)
      as [[a2 b2]|] eqn:C2; [|discriminate].
    injection Hcv as <-. simpl in *.
    apply ComputeVirtuals_Some in C1 as ((r1 & Hr1 & -> & ->) & _).
    apply ComputeVirtuals_Some in C2 as ((r2 & Hr2 & -> & ->) & _).
    apply Forall2_length in Hr1, Hr2.
    rewrite W1, W2, W3, W4.
    repeat split; eexists; (split; [reflexivity|]);
      rewrite length_fmap; congruence. }
  destruct (Hrun _ _ _ _ _ _ _ _ Hg1)
    as (_ & _ & (a1 & A1 & La1) & (a2 & A2 & La2) & (a3 & A3 & La3)
        & (a4 & A4 & La4)).
  destruct (Hrun _ _ _ _ _ _ _ _ Hg2)
    as (L3 & L4 & (b1 & B1 & Lb1) & (b2 & B2 & Lb2) & (b3 & B3 & Lb3)
        & (b4 & B4 & Lb4)).
  rewrite V1 in A1. rewrite V2 in A2. rewrite V3 in A3. rewrite V4 in A4.
  simpl in A1, A2, A3, A4.
  assert (K1 : length (virtual_cameras1 pd1) = Z.to_nat num_points)
    by congruence.
  assert (K2 : length (virtual_cameras2 pd1) = Z.to_nat num_points)
    by congruence.
  assert (K3 : length (virtual_from_reals1 pd1) = Z.to_nat num_points)
    by congruence.
  assert (K4 : length (virtual_from_reals2 pd1) = Z.to_nat num_points)
    by congruence.
  rewrite B1, B2, B3, B4, !length_app.
  repeat split; try lia.
  all: rewrite take_app_le by lia; apply take_ge; lia.
Qed.

End GenerationMore.

(** ** Error computation, once more *)

Section ErrorsMoreReal.
Import RealScalar.
Local Open Scope R_scope.

Ltac comps :=
  cbv [qsquaredNorm qrot qconjugate qmul cross vadd vsub vneg vscale vdivs
       qvec dot squaredNorm v3x v3y v3z qw qx qy qz fadd fsub fmul fdiv fneg
       R_Scalar].

Lemma RadToDeg_factor : 0 < lit (F := R) (5729577951308232 # 100000000000000).
Proof. unfold lit. simpl. unfold Q2R. simpl. lra. Qed.

Lemma RadToDeg_0 : RadToDeg (F := R) 0 = 0.
Proof. unfold RadToDeg. change (0 * lit (5729577951308232 # 100000000000000) = 0). ring. Qed.

Lemma RadToDeg_le (x y : R) : x <= y -> RadToDeg x <= RadToDeg y.
Proof.
  intros Hxy. unfold RadToDeg.
  change (x * lit (5729577951308232 # 100000000000000)
          <= y * lit (5729577951308232 # 100000000000000)).
  pose proof RadToDeg_factor. nra.
Qed.

Lemma normalized_le_1 (a : Vector3d R) : squaredNorm (normalized a) <= 1.
Proof.
  destruct (normalized_cases a) as [[Hp _]|[_ ->]].
  - rewrite normalized_squaredNorm by exact Hp. lra.
  - comps. lra.
Qed.

(** Lagrange's identity, and the inequality of Cauchy and Schwarz for
    vectors of norm at most one. *)
Lemma dot_bound (a b : Vector3d R) :
  squaredNorm a <= 1 -> squaredNorm b <= 1 -> -1 <= dot a b <= 1.
Proof.
  intros Ha Hb.
  pose proof (squaredNorm_nonneg a) as Ha0.
  pose proof (squaredNorm_nonneg b) as Hb0.
  pose proof (squaredNorm_nonneg (cross a b)) as Hc.
  assert (L : dot a b * dot a b + squaredNorm (cross a b) =
              squaredNorm a * squaredNorm b).
  { destruct a as [x y z], b as [u v w]. comps. ring. }
  assert (Hd : dot a b * dot a b <= 1) by nra.
  split; nra.
Qed.

(** A rotation by a unit quaternion keeps lengths. *)
Lemma squaredNorm_qrot (q : Quaterniond R) (v : Vector3d R) :
  squaredNorm (qrot q v) =
  squaredNorm v + 4 * (qsquaredNorm q - 1) * squaredNorm (cross (qvec q) v).
Proof. destruct q as [w x y z], v as [a b c]. comps. ring. Qed.

Lemma norm_qrot (q : Quaterniond R) (v : Vector3d R) :
  qsquaredNorm q = 1 -> norm (qrot q v) = norm v.
Proof.
  intros Hq. unfold norm. rewrite squaredNorm_qrot, Hq. f_equal.
  change (squaredNorm v + 4 * (1 - 1) * squaredNorm (cross (qvec q) v) =
          squaredNorm v). ring.
Qed.

Lemma qsquaredNorm_conjugate (q : Quaterniond R) :
  qsquaredNorm (qconjugate q) = qsquaredNorm q.
Proof. destruct q as [w x y z]. comps. ring. Qed.

Lemma qrot_vsub (q : Quaterniond R) (a b : Vector3d R) :
  vsub (qrot q (vneg a)) (qrot q (vneg b)) = qrot q (vsub b a).
Proof. destruct q as [w x y z], a as [a1 a2 a3], b as [b1 b2 b3]. comps. f_equal; ring. Qed.

Lemma AngleAxis_identity : AngleAxis_angle (F := R) (Quat 1 0 0 0) = 0.
Proof.
  unfold AngleAxis_angle. cbv zeta.
  change (qvec (Quat 1 0 0 0)) with (Vec3 (F := R) 0 0 0).
  rewrite norm_zero.
  change (feqb 0 (lit 0)) with (Reqb 0 (lit 0)). rewrite lit_0.
  unfold Reqb. destruct (Req_dec_T 0 0); [|contradiction]. reflexivity.
Qed.

Lemma relative_rotation_self (p : Rigid3d R) :
  0 < qsquaredNorm (rotation p) ->
  relative_rotation p p = Quat 1 0 0 0.
Proof.
  intros Hp. unfold relative_rotation, qinverse. cbv zeta.
  rewrite zero_lt_lit_0 by exact Hp.
  assert (E : qmul (rotation p)
                (Quat (qw (qconjugate (rotation p)) / qsquaredNorm (rotation p))
                      (qx (qconjugate (rotation p)) / qsquaredNorm (rotation p))
                      (qy (qconjugate (rotation p)) / qsquaredNorm (rotation p))
                      (qz (qconjugate (rotation p)) / qsquaredNorm (rotation p)))
              = Quat 1 0 0 0).
  { destruct (rotation p) as [w x y z]. revert Hp. comps. intros Hp.
    f_equal; field; lra. }
  change (fdiv ?a ?b) with (a / b). rewrite E.
  apply qnormalized_unit. comps. ring.
Qed.

Lemma abs_branch (c : R) :
  (if flt c (lit 0) then fneg c else c) = Rabs c.
Proof.
  change (flt c (lit 0)) with (Rltb c (lit 0)). rewrite lit_0.
  unfold Rltb, Rabs. destruct (Rlt_dec c 0), (Rcase_abs c); try reflexivity; lra.
Qed.

Lemma angular_error_real (gt est : Rigid3d R) (b : bool) :
  e_angular_error (RelativePoseError gt est b) =
  RadToDeg (acos (Rabs (dot (normalized (translation gt))
                            (normalized (translation est))))).
Proof.
  unfold RelativePoseError. cbv zeta. cbn [e_angular_error].
  cbn [normalize_translation translation]. rewrite abs_branch. reflexivity.
Qed.

(** X18: a perfect estimate.  Over the reals, when the estimate equals the
    ground truth (a pose with a non-zero rotation quaternion and a non-zero
    translation), RelativePoseError reports a zero rotation error and a zero
    scale error in both modes, and PoseError in refractive mode reports two
    zeros.  PoseError in non-refractive mode reports a zero rotation error,
    but a position error of 1000 |1 - |t|| for a unit rotation: it is zero
    only for a translation t of unit length, because the ground truth is
    normalised and the estimate is not. *)
Theorem perfect_estimate_errors (p : Rigid3d R) :
  0 < qsquaredNorm (rotation p) ->
  0 < squaredNorm (translation p) ->
  (forall b, e_rotation_error (RelativePoseError p p b) = 0 /\
             e_scale_error (RelativePoseError p p b) = 0) /\
  PoseError p p true = (0, 0) /\
  (PoseError p p false).1 = 0 /\
  (qsquaredNorm (rotation p) = 1 ->
   (PoseError p p false).2 = Rabs (1 - norm (translation p)) * 1000).
Proof.
  intros Hq Ht.
  destruct (rotation_error_is_angle p p) as (R1 & R2 & _).
  destruct (errors_by_mode p p) as (E1 & E2 & _ & E4 & E5 & _).
  assert (Hrot : RadToDeg (AngleAxis_angle (relative_rotation p p)) = 0)
    by (rewrite relative_rotation_self, AngleAxis_identity by exact Hq;
        apply RadToDeg_0).
  assert (Hsame : forall a : Vector3d R, norm (vsub a a) = 0).
  { intros [x y z]. replace (vsub (Vec3 x y z) (Vec3 x y z)) with (Vec3 0 0 0)
      by (comps; f_equal; ring). apply norm_zero. }
  split; [|split; [|split]].
  - intros b.
    split; [now rewrite (R2 b)|].
    destruct b; [rewrite E4|rewrite E5; apply lit_0].
    change (Rabs (norm (camera_center p) - norm (camera_center p)) = 0).
    rewrite Rminus_diag. apply Rabs_R0.
  - rewrite (surjective_pairing (PoseError p p true)), (R1 true), E1, Hrot.
    f_equal. rewrite Hsame. change (0 * lit 1000 = 0). ring.
  - now rewrite (R1 false).
  - intros Hu. rewrite E2.
    unfold camera_center, normalize_translation. cbn [rotation translation].
    rewrite qinverse_unit by exact Hu. rewrite qrot_vsub.
    rewrite norm_qrot by (rewrite qsquaredNorm_conjugate; exact Hu).
    change (norm (vsub (translation p) (normalized (translation p)))
            * lit 1000 = Rabs (1 - norm (translation p)) * 1000).
    replace (lit (F := R) 1000) with 1000
      by (unfold lit; simpl; unfold Q2R; simpl; lra).
    f_equal.
    destruct (normalized_cases (translation p)) as [[_ ->]|[E _]];
      [|rewrite E in Ht; revert Ht; comps; lra].
    unfold norm.
    assert (Hs : sqrt (squaredNorm (translation p))
                 * sqrt (squaredNorm (translation p))
                 = squaredNorm (translation p)) by (apply sqrt_sqrt; lra).
    assert (Hs0 : 0 < sqrt (squaredNorm (translation p)))
      by (apply sqrt_lt_R0, Ht).
    change (fsqrt ?x) with (sqrt x).
    set (s := sqrt (squaredNorm (translation p))) in *.
    assert (Hsq : squaredNorm (vsub (translation p) (vdivs (translation p) s))
                  = (1 - s)²).
    { destruct (translation p) as [x y z]. revert Hs. comps. intros Hs.
      replace ((x - x / s) * (x - x / s) + (y - y / s) * (y - y / s)
               + (z - z / s) * (z - z / s))
        with ((x * x + y * y + z * z) * ((1 - / s) * (1 - / s)))
        by (field; lra).
      rewrite <- Hs. unfold Rsqr. field. lra. }
    rewrite Hsq. apply sqrt_Rsqr_abs.
Qed.

(** X19: a pose without translation.  Over the reals, when the ground
    truth or the estimate has the zero translation, RelativePoseError
    reports the angular error of a right angle (RadToDeg (pi / 2), about
    90 degrees), whatever the other pose is, even when the estimate equals
    the ground truth: the zero vector is left as it is by the
    normalisation, the dot product is zero. *)
Theorem zero_translation_angular_error (gt est : Rigid3d R) (b : bool) :
  translation gt = Vec3 0 0 0 \/ translation est = Vec3 0 0 0 ->
  e_angular_error (RelativePoseError gt est b) = RadToDeg (PI / 2).
Proof.
  intros Hz. rewrite angular_error_real.
  assert (E : dot (normalized (translation gt)) (normalized (translation est))
              = 0).
  { assert (Hn : normalized (Vec3 0 0 0) = Vec3 (F := R) 0 0 0).
    { destruct (normalized_cases (Vec3 0 0 0)) as [[Hp _]|[_ E]];
        [revert Hp; comps; lra|exact E]. }
    destruct Hz as [-> | ->]; rewrite Hn;
      destruct (normalized _) as [x y z]; comps; ring. }
  rewrite E, Rabs_R0, acos_0. reflexivity.
Qed.


Lemma normalized_vscale (t : Vector3d R) (k : R) :
  k <> 0 -> normalized (vscale t k) = vscale (normalized t) (k / Rabs k).
Proof.
  intros Hk.
  assert (Hak : 0 < Rabs k) by now apply Rabs_pos_lt.
  assert (Hsq : squaredNorm (vscale t k) = k * k * squaredNorm t)
    by (destruct t as [x y z]; comps; ring).
  destruct (normalized_cases t) as [[Hp ->]|[-> ->]].
  - destruct (normalized_cases (vscale t k)) as [[Hp' ->]|[E _]].
    + rewrite Hsq, sqrt_mult by nra.
      replace (sqrt (k * k)) with (Rabs k) by (symmetry; apply sqrt_Rsqr_abs).
      assert (Hs : 0 < sqrt (squaredNorm t)) by now apply sqrt_lt_R0.
      set (s := sqrt (squaredNorm t)) in *.
      destruct t as [x y z]. comps. f_equal; field; lra.
    + assert (H0 : squaredNorm (vscale t k) = 0) by (rewrite E; comps; ring).
      rewrite Hsq in H0. assert (0 < k * k) by nra. nra.
  - replace (vscale (Vec3 0 0 0) k) with (Vec3 (F := R) 0 0 0)
      by (comps; f_equal; ring).
    destruct (normalized_cases (Vec3 0 0 0)) as [[Hp _]|[_ ->]];
      [revert Hp; comps; lra|].
    comps. f_equal; ring.
Qed.

Lemma atan_nonneg (x : R) : 0 <= x -> 0 <= atan x.
Proof.
  intros [Hx|<-]; [|rewrite atan_0; lra].
  pose proof (atan_increasing 0 x Hx) as H. rewrite atan_0 in H. lra.
Qed.

Lemma Ratan2_range (y x : R) : 0 <= y -> 0 <= x -> 0 <= Ratan2 y x <= PI / 2.
Proof.
  intros Hy Hx. pose proof PI_RGT_0 as Hpi. unfold Ratan2.
  destruct (Rlt_dec 0 x) as [Hpos|Hnp].
  - pose proof (atan_bound (y / x)) as [_ Hb].
    assert (H0 : 0 <= y / x) by (apply Rmult_le_pos; [lra|];
                                 apply Rlt_le, Rinv_0_lt_compat, Hpos).
    pose proof (atan_nonneg _ H0). lra.
  - destruct (Rlt_dec x 0); [lra|].
    destruct (Rlt_dec 0 y); [lra|].
    destruct (Rlt_dec y 0); lra.
Qed.

Lemma AngleAxis_range (q : Quaterniond R) : 0 <= AngleAxis_angle q <= PI.
Proof.
  pose proof PI_RGT_0 as Hpi. unfold AngleAxis_angle. cbv zeta.
  destruct (negb _).
  - rewrite lit_2. change (fmul 2 ?a) with (2 * a).
    change (fatan2 ?a ?b) with (Ratan2 a b).
    assert (Hn : 0 <= norm (qvec q)) by apply sqrt_pos.
    pose proof (Ratan2_range (norm (qvec q)) (fabs (qw q)) Hn (Rabs_pos _)).
    lra.
  - rewrite lit_0. lra.
Qed.

(** X21: ranges.  Over the reals, whatever the two poses, the rotation
    error of RelativePoseError and of PoseError lies between 0 and
    RadToDeg pi (180 degrees), and the scale error and the position error
    are not negative. *)
Theorem pose_error_ranges (gt est : Rigid3d R) (b : bool) :
  0 <= e_rotation_error (RelativePoseError gt est b) <= RadToDeg PI /\
  0 <= e_scale_error (RelativePoseError gt est b) /\
  0 <= (PoseError gt est b).1 <= RadToDeg PI /\
  0 <= (PoseError gt est b).2.
Proof.
  destruct (rotation_error_is_angle gt est) as (R1 & R2 & _).
  assert (Hrot : 0 <= RadToDeg (AngleAxis_angle (relative_rotation gt est))
                 <= RadToDeg PI).
  { pose proof (AngleAxis_range (relative_rotation gt est)) as [H0 H1].
    split; [rewrite <- RadToDeg_0|]; now apply RadToDeg_le. }
  split; [rewrite R2; exact Hrot|].
  split.
  { destruct (errors_by_mode gt est) as (_ & _ & _ & E4 & E5 & _).
    destruct b; [rewrite E4; apply Rabs_pos|rewrite E5, lit_0; lra]. }
  split; [rewrite R1; exact Hrot|].
  assert (Hpos : forall v : Vector3d R, 0 <= fmul (norm v) (lit 1000)).
  { intros v. change (0 <= norm v * lit 1000).
    assert (0 <= norm v) by apply sqrt_pos.
    assert (0 < lit (F := R) 1000)
      by (unfold lit; simpl; unfold Q2R; simpl; lra).
    nra. }
  destruct (errors_by_mode gt est) as (E1 & E2 & _).
  destruct b; [rewrite E1|rewrite E2]; apply Hpos.
Qed.

Lemma qsquaredNorm_qmul (a b : Quaterniond R) :
  qsquaredNorm (qmul a b) = qsquaredNorm a * qsquaredNorm b.
Proof. destruct a as [w x y z], b as [w' x' y' z']. comps. ring. Qed.

Lemma qmul_conjugate (a b : Quaterniond R) :
  qmul b (qconjugate a) = qconjugate (qmul a (qconjugate b)).
Proof. destruct a as [w x y z], b as [w' x' y' z']. comps. f_equal; ring. Qed.

Lemma AngleAxis_conjugate (q : Quaterniond R) :
  AngleAxis_angle (qconjugate q) = AngleAxis_angle q.
Proof.
  unfold AngleAxis_angle. cbv zeta.
  assert (E : norm (qvec (qconjugate q)) = norm (qvec q)).
  { unfold norm. f_equal. destruct q as [w x y z]. comps. ring. }
  rewrite E. destruct q as [w x y z]. reflexivity.
Qed.

Lemma relative_rotation_unit (a b : Rigid3d R) :
  qsquaredNorm (rotation a) = 1 -> qsquaredNorm (rotation b) = 1 ->
  relative_rotation a b = qmul (rotation a) (qconjugate (rotation b)).
Proof.
  intros Ha Hb. unfold relative_rotation. rewrite (qinverse_unit _ Hb).
  apply qnormalized_unit.
  rewrite qsquaredNorm_qmul, qsquaredNorm_conjugate, Ha, Hb. ring.
Qed.

Lemma norm_vsub_sym (a b : Vector3d R) : norm (vsub a b) = norm (vsub b a).
Proof.
  unfold norm. f_equal. destruct a as [x y z], b as [u v w]. comps. ring.
Qed.

Lemma dot_sym (a b : Vector3d R) : dot a b = dot b a.
Proof. destruct a as [x y z], b as [u v w]. comps. ring. Qed.

(** X22: symmetry.  Over the reals and for rotations given by unit
    quaternions, exchanging the ground truth and the estimate changes none
    of the errors of RelativePoseError, in either mode, and none of the two
    errors of PoseError in refractive mode.  PoseError in non-refractive mode
    is not symmetric: for the poses without rotation of baselines 2 and 4
    it reports the position errors 3000 one way and 1000 the other way. *)
Theorem pose_errors_symmetric (a b : Rigid3d R) :
  qsquaredNorm (rotation a) = 1 -> qsquaredNorm (rotation b) = 1 ->
  (forall m, RelativePoseError a b m = RelativePoseError b a m) /\
  PoseError a b true = PoseError b a true /\
  (PoseError gt_2 est_4 false).2 = 3000 /\
  (PoseError est_4 gt_2 false).2 = 1000.
Proof.
  intros Ha Hb.
  assert (Hrot : AngleAxis_angle (relative_rotation a b) =
                 AngleAxis_angle (relative_rotation b a)).
  { rewrite (relative_rotation_unit a b Ha Hb).
    rewrite (relative_rotation_unit b a Hb Ha).
    rewrite qmul_conjugate. now rewrite AngleAxis_conjugate. }
  split; [|split].
  - intros m.
    destruct (rotation_error_is_angle a b) as (_ & R2 & _).
    destruct (rotation_error_is_angle b a) as (_ & R2' & _).
    pose proof (angular_error_real a b m) as A1.
    pose proof (angular_error_real b a m) as A2.
    rewrite (dot_sym (normalized (translation b))) in A2.
    assert (S : e_scale_error (RelativePoseError a b m) =
                e_scale_error (RelativePoseError b a m)).
    { destruct (errors_by_mode a b) as (_ & _ & _ & E4 & E5 & _).
      destruct (errors_by_mode b a) as (_ & _ & _ & E4' & E5' & _).
      destruct m; [rewrite E4, E4'|now rewrite E5, E5'].
      change (Rabs (norm (camera_center a) - norm (camera_center b)) =
              Rabs (norm (camera_center b) - norm (camera_center a))).
      apply Rabs_minus_sym. }
    specialize (R2 m). specialize (R2' m). rewrite <- Hrot in R2'.
    destruct (RelativePoseError a b m), (RelativePoseError b a m).
    simpl in *. congruence.
  - destruct (rotation_error_is_angle a b) as (R1 & _).
    destruct (rotation_error_is_angle b a) as (R1' & _).
    destruct (errors_by_mode a b) as (E1 & _).
    destruct (errors_by_mode b a) as (E1' & _).
    rewrite (surjective_pairing (PoseError a b true)).
    rewrite (surjective_pairing (PoseError b a true)).
    rewrite (R1 true), (R1' true), E1, E1', Hrot, norm_vsub_sym. reflexivity.
  - assert (L : lit (F := R) 1000 = 1000)
      by (unfold lit; simpl; unfold Q2R; simpl; lra).
    split.
    + destruct (errors_by_mode gt_2 est_4) as (_ & -> & _).
      unfold gt_2, est_4, normalize_translation. cbn [rotation translation].
      rewrite normalized_along_x by lra. rewrite !camera_center_identity.
      assert (E : vsub (vneg (Vec3 1 0 0)) (vneg (Vec3 4 0 0)) = Vec3 3 0 0)
        by (comps; f_equal; ring).
      rewrite E, norm_along_x, L by lra. change (3 * 1000 = 3000). ring.
    + destruct (errors_by_mode est_4 gt_2) as (_ & -> & _).
      unfold gt_2, est_4, normalize_translation. cbn [rotation translation].
      rewrite normalized_along_x by lra. rewrite !camera_center_identity.
      assert (E : vsub (vneg (Vec3 1 0 0)) (vneg (Vec3 2 0 0)) = Vec3 1 0 0)
        by (comps; f_equal; ring).
      rewrite E, norm_along_x, L by lra. change (1 * 1000 = 1000). ring.
Qed.

Lemma squaredNorm_vneg (a : Vector3d R) : squaredNorm (vneg a) = squaredNorm a.
Proof. destruct a as [x y z]. comps. ring. Qed.

Lemma camera_center_bound (p : Rigid3d R) :
  qsquaredNorm (rotation p) = 1 ->
  squaredNorm (camera_center (normalize_translation p)) <= 1.
Proof.
  intros Hq. unfold camera_center, normalize_translation.
  cbn [rotation translation].
  rewrite (qinverse_unit _ Hq), squaredNorm_qrot, qsquaredNorm_conjugate, Hq.
  rewrite squaredNorm_vneg.
  pose proof (normalized_le_1 (translation p)).
  replace (1 - 1) with 0 by ring. lra.
Qed.

(** X23: what the refractive loop of the second program records as a
    position error.  Over the reals, the value does not change when the
    translation of the estimated pose is multiplied by a positive factor,
    and, for rotations given by unit quaternions, it never exceeds 2000:
    both camera centres are taken from poses with translations of length
    at most one. *)
Theorem Evaluate2_position_error_saturates (gt est : Rigid3d R) :
  (forall k, 0 < k ->
     Evaluate2_refrac_errors gt (scale_translation est k) =
     Evaluate2_refrac_errors gt est) /\
  (qsquaredNorm (rotation gt) = 1 -> qsquaredNorm (rotation est) = 1 ->
   0 <= (Evaluate2_refrac_errors gt est).2 <= 2000).
Proof.
  split.
  - intros k Hk. unfold Evaluate2_refrac_errors. cbv zeta. f_equal.
    unfold normalize_translation, scale_translation.
    cbn [rotation translation]. f_equal.
    rewrite normalized_vscale by lra.
    rewrite Rabs_right by lra.
    replace (k / k) with 1 by (field; lra).
    destruct (normalized (translation est)) as [x y z]. comps. f_equal; ring.
  - intros Hg He.
    destruct (errors_by_mode gt est) as (_ & _ & -> & _).
    pose proof (camera_center_bound gt Hg) as HA.
    pose proof (camera_center_bound est He) as HB.
    set (A := camera_center (normalize_translation gt)) in *.
    set (B := camera_center (normalize_translation est)) in *.
    pose proof (dot_bound A B HA HB) as Hd.
    assert (Hsq : squaredNorm (vsub A B) =
                  squaredNorm A + squaredNorm B - 2 * dot A B).
    { destruct A as [x y z], B as [u v w]. comps. ring. }
    assert (Hn : 0 <= norm (vsub A B) <= 2).
    { split; [apply sqrt_pos|]. unfold norm.
      replace 2 with (sqrt (2 * 2)) by (apply sqrt_square; lra).
      apply sqrt_le_1_alt. rewrite Hsq. lra. }
    replace (lit (F := R) 1000) with 1000
      by (unfold lit; simpl; unfold Q2R; simpl; lra).
    change (0 <= norm (vsub A B) * 1000 <= 2000). lra.
Qed.

End ErrorsMoreReal.

(** ** The angular error in the arithmetic of the machine *)

Section AngularErrorMachine.
Import Binary64.

(** X20: the cosine that RelativePoseError passes to acos is not clamped.
    In binary64, with an acos as the C standard fixes it, whenever the
    absolute dot product of the two normalised translations, as computed,
    exceeds 1, the angular error is NaN.  This happens for a perfect
    estimate: when ground truth and estimate both have the translation
    (1, 1, 1), the dot product of the normalised translation with itself is
    1 + 2^-52 and the angular error is NaN; when the translation of the
    estimate is multiplied by 3 the product is 1 and the angular error is
    0.  (The three products that are added are equal here, so that the order
    in which the library adds them does not matter.) *)
Theorem angular_error_not_clamped
    (libm_acos : double -> double) (libm_atan2 : double -> double -> double) :
  acos_as_standard libm_acos ->
  let SF := B64_Scalar libm_acos libm_atan2 in
  (forall (gt est : Rigid3d double) (b : bool),
     let c := dot (normalized (translation gt))
                  (normalized (translation est)) in
     flt (b64_of_Z 1) (if flt c (lit 0) then fneg c else c) = true ->
     fisnan (e_angular_error (RelativePoseError gt est b)) = true) /\
  (forall b : bool,
     let t := Vec3 (b64_of_Z 1) (b64_of_Z 1) (b64_of_Z 1) in
     let p :=
       MkRigid3d (Quat (b64_of_Z 1) (b64_of_Z 0) (b64_of_Z 0) (b64_of_Z 0)) t in
     (to_Q (dot (normalized t) (normalized t)) == 1 + (1 # 2 ^ 52))%Q /\
     fisnan (e_angular_error (RelativePoseError p p b)) = true /\
     e_angular_error
       (RelativePoseError p (scale_translation p (b64_of_Z 3)) b)
     = S754_zero false).
Proof.
  intros (Hhigh & _ & Hone) SF. split.
  - intros gt est b c Hc.
    unfold RelativePoseError. cbv zeta. cbn [e_angular_error].
    cbn [normalize_translation translation]. fold c.
    change (facos ?x) with (libm_acos x).
    rewrite (Hhigh _ Hc). reflexivity.
  - intros b t p.
    assert (Hd : dot (normalized t) (normalized t)
                 = S754_finite false 4503599627370497 (-52))
      by (vm_compute; reflexivity).
    split; [rewrite Hd; vm_compute; reflexivity|]. split.
    + unfold RelativePoseError. cbv zeta. cbn [e_angular_error].
      cbn [normalize_translation translation p]. rewrite Hd.
      change (facos ?x) with (libm_acos x).
      rewrite Hhigh by (vm_compute; reflexivity). reflexivity.
    + unfold RelativePoseError. cbv zeta. cbn [e_angular_error].
      cbn [normalize_translation translation p scale_translation].
      assert (Hd3 : dot (normalized t) (normalized (vscale t (b64_of_Z 3)))
                    = b64_of_Z 1) by (vm_compute; reflexivity).
      rewrite Hd3. change (facos ?x) with (libm_acos x).
      change (if flt (b64_of_Z 1) (lit 0) then fneg (b64_of_Z 1)
              else b64_of_Z 1) with (b64_of_Z 1).
      rewrite Hone. vm_compute. reflexivity.
Qed.

End AngularErrorMachine.

(** * The test bed *)

Section TestbedFacts.
Context {F : Type} {SF : Scalar F} {RF : Reconstruction F}.

Lemma find_neighbour_none (r : recon) (extra_image_ids : list Z) :
  (forall id, id ∈ extra_image_ids ->
     exists_registered r (image_t_wrap (id - 1)) = false /\
     exists_registered r (image_t_wrap (id + 1)) = false) ->
  find_neighbour r extra_image_ids = (0, 0)%Z.
Proof.
  induction extra_image_ids as [|id rest IH]; intros Hno; [reflexivity|].
  simpl. destruct (Hno id) as [-> ->]; [constructor|].
  apply IH. intros i Hi. apply Hno. now constructor.
Qed.

Lemma find_neighbour_found (r : recon) (extra_image_ids : list Z) :
  find_neighbour r extra_image_ids = (0, 0)%Z \/
  exists reg ref,
    find_neighbour r extra_image_ids = (reg, ref) /\
    reg ∈ extra_image_ids /\
    (ref = image_t_wrap (reg - 1) \/ ref = image_t_wrap (reg + 1)) /\
    exists_registered r ref = true.
Proof.
  induction extra_image_ids as [|id rest IH]; [now left|]. simpl.
  destruct (exists_registered r (image_t_wrap (id - 1))) eqn:E1.
  { right. exists id, (image_t_wrap (id - 1)).
    repeat split; auto. constructor. }
  destruct (exists_registered r (image_t_wrap (id + 1))) eqn:E2.
  { right. exists id, (image_t_wrap (id + 1)).
    repeat split; auto. constructor. }
  destruct IH as [IH|(reg & ref & H1 & H2 & H3 & H4)]; [now left|].
  right. exists reg, ref. repeat split; auto. now constructor.
Qed.

Lemma pass_without_neighbour (r : recon) (extra_image_ids : list Z) :
  (find_neighbour r extra_image_ids).1 = 0%Z \/
  (find_neighbour r extra_image_ids).2 = 0%Z ->
  register_pass r extra_image_ids = Some (r, extra_image_ids).
Proof.
  intros Hz. unfold register_pass. cbv zeta.
  destruct Hz as [-> | ->]; simpl; rewrite ?orb_true_r; reflexivity.
Qed.

(** X24: the registration loop of the test bed can run forever.  A pass
    that finds no extra image with a registered neighbour (the image before
    or after it, by id) changes neither the reconstruction nor the set of
    extra images, so the loop, which ends only when the set is empty, never
    ends: this is the case whenever no image of a non-empty set has a
    registered neighbour.  The same happens when the neighbour that is found
    is the image 0, which the test after the search takes for "none
    found". *)
Theorem registration_loop_can_run_forever (r : recon)
    (extra_image_ids : list Z) :
  extra_image_ids <> [] ->
  ((find_neighbour r extra_image_ids).1 = 0%Z \/
   (find_neighbour r extra_image_ids).2 = 0%Z ->
   forall fuel, register_loop fuel r extra_image_ids = OutOfFuel) /\
  ((forall id, id ∈ extra_image_ids ->
      exists_registered r (image_t_wrap (id - 1)) = false /\
      exists_registered r (image_t_wrap (id + 1)) = false) ->
   forall fuel, register_loop fuel r extra_image_ids = OutOfFuel).
Proof.
  intros Hne.
  assert (Hstuck : (find_neighbour r extra_image_ids).1 = 0%Z \/
                   (find_neighbour r extra_image_ids).2 = 0%Z ->
                   forall fuel, register_loop fuel r extra_image_ids
                                = OutOfFuel).
  { intros Hz fuel. induction fuel as [|fuel IH]; [reflexivity|].
    simpl. destruct extra_image_ids as [|id rest]; [contradiction|].
    rewrite (pass_without_neighbour r (id :: rest) Hz). exact IH. }
  split; [exact Hstuck|].
  intros Hno. apply Hstuck. left.
  now rewrite (find_neighbour_none r extra_image_ids Hno).
Qed.

Lemma erase_spec (id : Z) (ids : list Z) :
  NoDup ids -> id ∈ ids ->
  (id ∉ erase id ids) /\ S (length (erase id ids)) = length ids /\
  (forall x, x ∈ erase id ids <-> x ∈ ids /\ x <> id).
Proof.
  intros Hnd Hin.
  assert (Hmem : forall x, x ∈ erase id ids <-> x ∈ ids /\ x <> id).
  { intros x. unfold erase. rewrite !list_elem_of_In, filter_In, <- !list_elem_of_In.
    rewrite negb_true_iff, Z.eqb_neq. reflexivity. }
  split; [intros H; apply Hmem in H as [_ H]; now apply H|].
  split; [|exact Hmem].
  clear Hmem. induction ids as [|x rest IH]; [inversion Hin|].
  apply NoDup_cons in Hnd as [Hx Hnd]. simpl.
  destruct (Z.eqb_spec x id) as [->|Hne]; simpl.
  - f_equal. unfold erase in *. clear IH Hin.
    induction rest as [|y rest IH]; [reflexivity|]. simpl.
    apply not_elem_of_cons in Hx as [Hy Hx].
    apply NoDup_cons in Hnd as [_ Hnd].
    destruct (Z.eqb_spec y id) as [->|_]; [contradiction|]. simpl.
    f_equal. now apply IH.
  - f_equal. apply elem_of_cons in Hin as [->|Hin]; [contradiction|].
    now apply IH.
Qed.

(** X25: a pass of the registration loop either changes nothing or
    registers exactly one extra image.  In the second case the image that is
    registered was in the set and is removed from it, the other images stay
    in the set in their order, one of its two neighbours by id is registered
    in the reconstruction before the pass and serves as the reference, and
    the image is added with the pose that [registration_pose] computes from
    the two priors and the pose of the reference. *)
Theorem register_pass_cases (r r' : recon) (extra extra' : list Z) :
  NoDup extra ->
  register_pass r extra = Some (r', extra') ->
  (r' = r /\ extra' = extra) \/
  (exists reg ref image_reg_db image_ref_db image_ref r1,
     reg ∈ extra /\
     (ref = image_t_wrap (reg - 1) \/ ref = image_t_wrap (reg + 1)) /\
     exists_registered r ref = true /\
     ReadImage reg = Some image_reg_db /\
     ReadImage ref = Some image_ref_db /\
     ReconImage r ref = Some image_ref /\
     AddImage r (MkImage (image_id image_reg_db)
                   (registration_pose image_reg_db image_ref_db image_ref)
                   (CamFromWorldPrior image_reg_db) true) = Some r1 /\
     RegisterImage r1 reg = Some r' /\
     extra' = erase reg extra /\
     (reg ∉ extra') /\ S (length extra') = length extra /\
     (forall x, x ∈ extra' <-> x ∈ extra /\ x <> reg)).
Proof.
  intros Hnd Hp. unfold register_pass in Hp. cbv zeta in Hp.
  destruct ((_ =? _)%Z || _ || _) eqn:Etest.
  { left. injection Hp as <- <-. auto. }
  right.
  destruct (find_neighbour_found r extra) as [E0|(reg & ref & E & Hin & Href & Hreg)].
  { rewrite E0 in Etest. discriminate. }
  rewrite E in Hp. cbn [fst snd] in Hp.
  apply bind_Some in Hp as (i1 & H1 & Hp).
  apply bind_Some in Hp as (i2 & H2 & Hp).
  apply bind_Some in Hp as (i3 & H3 & Hp).
  apply bind_Some in Hp as (r1 & H4 & Hp).
  apply bind_Some in Hp as (r2 & H5 & [= <- <-]).
  destruct (erase_spec reg extra Hnd Hin) as (Hout & Hlen & Hmem).
  exists reg, ref, i1, i2, i3, r1. auto 15.
Qed.

End TestbedFacts.

Section TestbedReal.
Import RealScalar.
Local Open Scope R_scope.

Ltac rcomps :=
  cbv [qsquaredNorm qrot qconjugate qmul cross vadd vsub vneg vscale vdivs
       qvec dot squaredNorm v3x v3y v3z qw qx qy qz fadd fsub fmul fdiv fneg
       R_Scalar].

(** The rotation of a vector by a product of quaternions, up to terms that
    vanish for unit quaternions. *)
Lemma qrot_qmul (a b : Quaterniond R) (v : Vector3d R) :
  qrot (qmul a b) v =
  vadd (vadd (qrot a (qrot b v))
             (vscale v (1 - qsquaredNorm a * qsquaredNorm b
                        + (1 - qsquaredNorm a) * (1 - qsquaredNorm b))))
       (vneg (vadd (vscale (qrot a v) (1 - qsquaredNorm b))
                   (vscale (qrot b v) (1 - qsquaredNorm a)))).
Proof.
  destruct a as [w x y z], b as [w' x' y' z'], v as [p q r].
  rcomps. f_equal; ring.
Qed.

Lemma qrot_qmul_unit (a b : Quaterniond R) (v : Vector3d R) :
  qsquaredNorm a = 1 -> qsquaredNorm b = 1 ->
  qrot (qmul a b) v = qrot a (qrot b v).
Proof.
  intros Ha Hb. rewrite qrot_qmul, Ha, Hb.
  destruct (qrot a (qrot b v)) as [x y z], (qrot a v) as [x1 y1 z1],
    (qrot b v) as [x2 y2 z2], v as [p q r].
  rcomps. f_equal; ring.
Qed.

Lemma qmul_qmul_conjugate (a b : Quaterniond R) :
  qsquaredNorm b = 1 -> qmul (qmul a b) (qconjugate b) = a.
Proof.
  intros Hb.
  assert (E : qmul (qmul a b) (qconjugate b) =
              Quat (qw a * qsquaredNorm b) (qx a * qsquaredNorm b)
                   (qy a * qsquaredNorm b) (qz a * qsquaredNorm b)).
  { destruct a as [w x y z], b as [w' x' y' z']. rcomps. f_equal; ring. }
  rewrite E, Hb. destruct a as [w x y z]. cbn [qw qx qy qz].
  f_equal; ring.
Qed.

Lemma rigid_mul_unit (a b : Rigid3d R) :
  qsquaredNorm (rotation a) = 1 -> qsquaredNorm (rotation b) = 1 ->
  rotation (rigid_mul a b) = qmul (rotation a) (rotation b) /\
  qsquaredNorm (rotation (rigid_mul a b)) = 1.
Proof.
  intros Ha Hb.
  assert (Hab : qsquaredNorm (qmul (rotation a) (rotation b)) = 1)
    by (rewrite qsquaredNorm_qmul, Ha, Hb; ring).
  unfold rigid_mul. cbn [rotation].
  rewrite (qnormalized_unit _ Hab). auto.
Qed.

(** Composing with a pose and then with its inverse gives the first pose
    again, for rotations given by unit quaternions. *)
Lemma rigid_mul_Inverse (a b : Rigid3d R) :
  qsquaredNorm (rotation a) = 1 -> qsquaredNorm (rotation b) = 1 ->
  rigid_mul (rigid_mul a b) (Inverse b) = a.
Proof.
  intros Ha Hb.
  destruct (rigid_mul_unit a b Ha Hb) as [Erot Hab].
  assert (Hcb : qsquaredNorm (qconjugate (rotation b)) = 1)
    by (rewrite qsquaredNorm_conjugate; exact Hb).
  assert (Ei : Inverse b = MkRigid3d (qconjugate (rotation b))
                 (qrot (qconjugate (rotation b)) (vneg (translation b)))).
  { unfold Inverse. cbv zeta. now rewrite (qinverse_unit _ Hb). }
  rewrite Ei.
  assert (Hr : rotation (rigid_mul (rigid_mul a b)
                 (MkRigid3d (qconjugate (rotation b))
                    (qrot (qconjugate (rotation b)) (vneg (translation b)))))
               = rotation a).
  { destruct (rigid_mul_unit (rigid_mul a b)
                (MkRigid3d (qconjugate (rotation b))
                   (qrot (qconjugate (rotation b)) (vneg (translation b))))
                Hab Hcb) as [-> _].
    cbn [rotation]. rewrite Erot. now apply qmul_qmul_conjugate. }
  assert (Ht : translation (rigid_mul (rigid_mul a b)
                 (MkRigid3d (qconjugate (rotation b))
                    (qrot (qconjugate (rotation b)) (vneg (translation b)))))
               = translation a).
  { unfold rigid_mul at 1. cbn [translation rotation].
    rewrite Erot. rewrite qrot_qmul_unit by assumption.
    rewrite qrot_conjugate, Hb.
    unfold rigid_mul. cbn [translation].
    destruct (translation a) as [x y z], (translation b) as [u v w],
      (rotation a) as [w1 x1 y1 z1], (rotation b) as [w2 x2 y2 z2].
    rcomps. f_equal; ring. }
  destruct (rigid_mul _ _) as [q t]. destruct a as [qa ta].
  cbn [rotation translation] in Hr, Ht. now subst.
Qed.

Context {RF : Reconstruction R}.

(** X26: the pose the test bed gives to a newly registered image.  Over the
    reals, when the two priors and the pose of the reference image have
    rotations given by unit quaternions, the new image is placed so that
    its pose relative to the reference image is the relative pose of the two
    priors: pose * Inverse(reference pose) = prior * Inverse(reference
    prior). *)
Theorem registration_pose_keeps_relative_prior
    (image_reg_db image_ref_db image_ref : Image R) :
  qsquaredNorm (rotation (CamFromWorldPrior image_reg_db)) = 1 ->
  qsquaredNorm (rotation (CamFromWorldPrior image_ref_db)) = 1 ->
  qsquaredNorm (rotation (CamFromWorld image_ref)) = 1 ->
  rigid_mul (registration_pose image_reg_db image_ref_db image_ref)
            (Inverse (CamFromWorld image_ref)) =
  rigid_mul (CamFromWorldPrior image_reg_db)
            (Inverse (CamFromWorldPrior image_ref_db)) /\
  qsquaredNorm
    (rotation (registration_pose image_reg_db image_ref_db image_ref)) = 1.
Proof.
  intros H1 H2 H3. unfold registration_pose. cbv zeta.
  assert (Hi : qsquaredNorm (rotation (Inverse (CamFromWorldPrior image_ref_db)))
               = 1).
  { unfold Inverse. cbv zeta. cbn [rotation].
    now rewrite (qinverse_unit _ H2), qsquaredNorm_conjugate. }
  destruct (rigid_mul_unit _ _ H1 Hi) as [_ Hu].
  split; [now apply rigid_mul_Inverse|].
  now destruct (rigid_mul_unit _ _ Hu H3).
Qed.

End TestbedReal.

(** ** The further statements at concrete inputs *)

Ltac by_decide := apply (bool_decide_unpack _); vm_compute; exact I.

Section MoreWitnesses.
Import RatScalar Examples MoreExamples.

Lemma entry_set_then_get_witness :
  exists c',
    set_entry (MF := qmodels) qcamera EFocalLengthX (qnum 7) = Some c' /\
    get_entry (MF := qmodels) c' EFocalLengthX = Some (qnum 7) /\
    get_entry (MF := qmodels) c' EFocalLengthY =
    get_entry (MF := qmodels) qcamera EFocalLengthY.
Proof.
  eexists. split; [vm_compute; reflexivity|].
  match goal with
  | |- get_entry ?c' _ = _ /\ _ =>
      destruct (proj2 (entry_set_then_get (MF := qmodels) qcamera
                         EFocalLengthX (qnum 7)) c')
        as (Hget & _ & _ & _ & _ & _ & _ & _ & _ & _ & Hother)
  end.
  - vm_compute. reflexivity.
  - split; [exact Hget|]. apply Hother; [|discriminate].
    by_decide.
Defined.

Lemma CalibrationMatrix_entries_witness :
  CalibrationMatrix (MF := qmodels) qcamera =
  Some (Mat3 (qnum 340) (qnum 0) (Some (1113 # 2))
             (qnum 0) (qnum 340) (Some (835 # 2))
             (qnum 0) (qnum 0) (qnum 1)).
Proof.
  destruct (proj1 (proj1 (CalibrationMatrix_entries (MF := qmodels) qcamera)))
    as [K HK].
  - vm_compute. eauto.
  - vm_compute. reflexivity.
Defined.

Lemma IsUndistorted_after_Rescale_witness :
  exists c',
    RescaleTo (MF := qradial) (qcamera_radial (Some (1 # 10))) 2226 1670
    = Some c' /\
    IsUndistorted (MF := qradial) c' = Some false.
Proof.
  eexists. split; [vm_compute; reflexivity|].
  match goal with
  | |- IsUndistorted ?c' = _ =>
      rewrite (proj2 (IsUndistorted_after_Rescale (MF := qradial)
                        (qcamera_radial (Some (1 # 10))) ltac:(
                          intros i Hi; vm_compute in Hi;
                          apply list_elem_of_singleton in Hi; subst i;
                          split; by_decide))
                     2226%Z 1670%Z c')
  end.
  - vm_compute. reflexivity.
  - vm_compute. reflexivity.
Defined.

Lemma no_focal_length_index_witness :
  MeanFocalLength (MF := qmodels) qcamera_new = Some None /\
  Rescale (MF := qmodels) qcamera_new (qnum 2) = None.
Proof.
  destruct (no_focal_length_index (MF := qmodels) qcamera_new)
    as (H1 & _ & _ & _ & _ & _ & H2 & _).
  - vm_compute. reflexivity.
  - split; [exact H1|apply H2].
Defined.

Lemma CalibrationMatrix_after_Rescale_witness :
  exists c' fx fy,
    RescaleTo (MF := qmodels) qcamera 2226 1670 = Some c' /\
    CalibrationMatrix (MF := qmodels) c' =
    Some (Mat3 fx (qnum 0) (qnum 1113) (qnum 0) fy (qnum 835)
               (qnum 0) (qnum 0) (qnum 1)).
Proof.
  assert (Hnd : NoDup (FocalLengthIdxs (MF := qmodels) qcamera
                       ++ PrincipalPointIdxs (MF := qmodels) qcamera)).
  { by_decide. }
  eexists.
  match goal with
  | |- exists fx fy, RescaleTo _ _ _ = Some ?c' /\ _ =>
      assert (Hr : RescaleTo (MF := qmodels) qcamera 2226 1670 = Some c')
        by (vm_compute; reflexivity);
      destruct (proj2 (CalibrationMatrix_after_Rescale (MF := qmodels)
                         qcamera _ Hnd
                         ltac:(vm_compute; reflexivity))
                      2226%Z 1670%Z c' Hr)
        as (fx & fy & HK & _)
  end.
  exists fx, fy. split; [exact Hr|]. rewrite HK. vm_compute. reflexivity.
Defined.

Lemma register_pass_cases_witness :
  exists r' : list Z,
    register_pass (RF := ToyRecon.qrecon) ([19] : list Z) [17; 18]
    = Some (r', [17]) /\
    ~ (r' = [19] /\ [17] = [17; 18]).
Proof.
  eexists.
  assert (Hp : register_pass (RF := ToyRecon.qrecon) ([19] : list Z) [17; 18]
               = Some ([18; 19], [17])) by (vm_compute; reflexivity).
  split; [exact Hp|].
  destruct (register_pass_cases (RF := ToyRecon.qrecon) ([19] : list Z)
              [18; 19] [17; 18] [17]
              ltac:(by_decide) Hp)
    as [[_ E]|(reg & _)]; intros [_ E']; discriminate.
Defined.

Lemma registration_loop_can_run_forever_witness :
  register_loop (RF := ToyRecon.qrecon) 1000 ([100] : list Z) [1; 2; 3]
  = OutOfFuel.
Proof.
  apply (proj2 (registration_loop_can_run_forever (RF := ToyRecon.qrecon)
                  ([100] : list Z) [1; 2; 3] ltac:(discriminate))).
  intros id Hid.
  apply elem_of_cons in Hid as [->|Hid]; [vm_compute; auto|].
  apply elem_of_cons in Hid as [->|Hid]; [vm_compute; auto|].
  apply list_elem_of_singleton in Hid as ->. vm_compute. auto.
Defined.

Lemma noise_free_samples_are_exact_witness :
  exists p2r,
    points2D2_refrac qdata1.1 !! 0%nat = Some p2r /\
    fisnan (v2x p2r) = false /\
    flt (v2x p2r) (lit 0) = false /\
    flt (of_Z (width qcamera)) (v2x p2r) = false.
Proof.
  assert (Hp : exists p2r, points2D2_refrac qdata1.1 !! 0%nat = Some p2r)
    by (eexists; vm_compute; reflexivity).
  destruct Hp as [p2r Hp]. exists p2r. split; [exact Hp|].
  destruct (noise_free_samples_are_exact (MF := qmodels) (PF := qprng)
              qcamera 3 qpose (qnum 0) (qnum 1) 20 qempty qdata1.1 0%nat
              qdata1.2) with (i := 0%nat) (p2r := p2r)
    as (H1 & _ & H3 & H4 & _).
  - unfold size_t_max. lia.
  - vm_compute. reflexivity.
  - vm_compute. discriminate.
  - vm_compute. reflexivity.
  - exact Hp.
  - auto.
Defined.

Lemma reused_data_set_keeps_old_virtuals_witness :
  length (points2D1_refrac qdata2.1) = 3%nat /\
  length (virtual_cameras1 qdata2.1) = 6%nat /\
  take 3 (virtual_cameras1 qdata2.1) = virtual_cameras1 qdata1.1.
Proof.
  destruct (reused_data_set_keeps_old_virtuals (MF := qmodels)
              (PF := qprng) qcamera 3 qpose qpose (qnum 0) (qnum 1)
              (qnum 0) (qnum 1) 20 20 qempty qdata1.1 qdata2.1
              0%nat qdata1.2 qdata2.2)
    as (H1 & _ & H2 & _ & _ & _ & H3 & _).
  - unfold size_t_max. lia.
  - reflexivity.
  - reflexivity.
  - reflexivity.
  - reflexivity.
  - vm_compute. reflexivity.
  - vm_compute. reflexivity.
  - split; [exact H1|]. split; [exact H2|exact H3].
Defined.

End MoreWitnesses.

Section MoreWitnessesReal.
Import RealScalar Examples MoreExamples.
Local Open Scope R_scope.

Ltac wcomps :=
  cbv [qsquaredNorm squaredNorm dot v3x v3y v3z qw qx qy qz fadd fmul
       R_Scalar rotation translation gt_2 est_4 identity_rotation
       pose_at_origin image_2 image_4 CamFromWorld CamFromWorldPrior].

Lemma fresh_model_is_undistorted_witness :
  exists c,
    SetModelId (MF := rradial) (Camera_new (MF := rradial)) SIMPLE_RADIAL
    = Some c /\
    IsUndistorted (MF := rradial) c = Some true.
Proof.
  eexists. split; [reflexivity|].
  apply (fresh_model_is_undistorted (MF := rradial) SIMPLE_RADIAL).
  - intros i Hi. vm_compute in Hi. apply list_elem_of_singleton in Hi.
    subst i. vm_compute. lia.
  - reflexivity.
Defined.

Lemma Rescale_as_RescaleTo_witness :
  Rescale (MF := rmodels) rcamera 2 =
  RescaleTo (MF := rmodels) rcamera
            (to_Z (fround (fmul 2 (of_Z (width rcamera)))))
            (to_Z (fround (fmul 2 (of_Z (height rcamera))))).
Proof. apply (Rescale_as_RescaleTo (MF := rmodels) rcamera 2). lra. Defined.

Lemma rcamera_RescaleTo (w h : Z) :
  is_Some (RescaleTo (MF := rmodels) rcamera w h).
Proof. eexists. reflexivity. Qed.

Lemma Rescale_to_same_size_witness :
  Rescale (MF := rmodels) rcamera 1 = Some rcamera.
Proof.
  destruct (rcamera_RescaleTo (width rcamera) (height rcamera)) as [c' Hc].
  refine (proj2 (Rescale_to_same_size (MF := rmodels) rcamera c' _ _ Hc));
    discriminate.
Defined.

Lemma rcamera_NoDup :
  NoDup (FocalLengthIdxs (MF := rmodels) rcamera
         ++ PrincipalPointIdxs (MF := rmodels) rcamera).
Proof.
  change (NoDup [0; 1; 2; 3]%nat). by_decide.
Qed.

Lemma rcamera_RescaleTo_twice :
  exists c1 c2 : Camera R,
    RescaleTo (MF := rmodels) rcamera 2226 1670 = Some c1 /\
    RescaleTo (MF := rmodels) c1 1113 835 = Some c2.
Proof.
  eexists _, _.
  split; cbv -[Rplus Rmult Rdiv Rinv Rminus Ropp IZR Q2R]; reflexivity.
Qed.

Lemma RescaleTo_and_back_witness :
  exists c1 c2,
    RescaleTo (MF := rmodels) rcamera 2226 1670 = Some c1 /\
    RescaleTo (MF := rmodels) c1 1113 835 = Some c2 /\ c2 = rcamera.
Proof.
  destruct rcamera_RescaleTo_twice as (c1 & c2 & H1 & H2).
  exists c1, c2.
  split; [exact H1|]. split; [exact H2|].
  apply (RescaleTo_and_back (MF := rmodels) rcamera c1 c2 2226 1670
           rcamera_NoDup); try discriminate; try assumption.
  left. reflexivity.
Defined.

Lemma ComputeVirtual_centre_and_pixel_witness :
  exists vc vfr,
    ComputeVirtual (MF := rmodels) rcamera (Vec2 100 200) = Some (vc, vfr) /\
    IsCameraRefractive (MF := rmodels) vc = false.
Proof.
  destruct (ComputeVirtual_centre_and_pixel (MF := rmodels) rcamera
              (Vec2 100 200) toy_simple_pinhole)
    as (vc & vfr & Hc & _ & _ & _ & _ & Hr).
  - unfold one_or_two_focal_lengths.
    change (FocalLengthIdxs (MF := rmodels) rcamera) with [0%nat; 1%nat].
    split; eexists; reflexivity.
  - intros f q _. reflexivity.
  - exists vc, vfr. split; assumption.
Defined.

Lemma VirtualFromRealRotation_is_shortest_witness :
  VirtualFromRealRotation (MF := rmodels) rcamera = Quat 1 0 0 0.
Proof.
  assert (Ha : RefractionAxis (MF := rmodels) rcamera = Vec3 0 0 1)
    by reflexivity.
  assert (Hu : dot (RefractionAxis (MF := rmodels) rcamera)
                   (RefractionAxis (MF := rmodels) rcamera) = 1).
  { rewrite Ha. wcomps. ring. }
  destruct (VirtualFromRealRotation_is_shortest (MF := rmodels) rcamera Hu)
    as (_ & _ & _ & H4).
  - unfold svd_axis_is_null. cbv zeta.
    rewrite (normalized_unit _ Hu), (normalized_unit UnitZ UnitZ_unit).
    rewrite UnitZ_dot, Ha. cbn [v3z]. intros Hlt. exfalso. lra.
  - apply (H4 Ha).
Defined.

Lemma perfect_estimate_errors_witness :
  e_rotation_error (RelativePoseError gt_2 gt_2 true) = 0 /\
  (PoseError gt_2 gt_2 false).2 = Rabs (1 - norm (translation gt_2)) * 1000.
Proof.
  destruct (perfect_estimate_errors gt_2) as (H1 & _ & _ & H4).
  - wcomps. lra.
  - wcomps. lra.
  - split; [apply H1|apply H4]. wcomps. ring.
Defined.

Lemma zero_translation_angular_error_witness :
  e_angular_error (RelativePoseError pose_at_origin pose_at_origin false)
  = RadToDeg (PI / 2).
Proof.
  apply (zero_translation_angular_error pose_at_origin pose_at_origin false).
  left. reflexivity.
Defined.

Lemma pose_errors_symmetric_witness :
  PoseError gt_2 est_4 true = PoseError est_4 gt_2 true.
Proof.
  apply (pose_errors_symmetric gt_2 est_4); wcomps; ring.
Defined.

Lemma registration_pose_keeps_relative_prior_witness :
  rigid_mul (registration_pose image_4 image_2 image_2)
            (Inverse (CamFromWorld image_2)) =
  rigid_mul (CamFromWorldPrior image_4) (Inverse (CamFromWorldPrior image_2)).
Proof.
  apply (registration_pose_keeps_relative_prior image_4 image_2 image_2);
    wcomps; ring.
Defined.

End MoreWitnessesReal.

Section AngularErrorWitness.
Import Binary64.

Lemma acos_at_the_limits_as_standard : acos_as_standard acos_at_the_limits.
Proof.
  split; [|split].
  - intros x Hx. unfold acos_at_the_limits. now rewrite Hx.
  - intros x Hx. unfold acos_at_the_limits. rewrite Hx.
    now rewrite orb_true_r.
  - vm_compute. reflexivity.
Qed.

Lemma angular_error_not_clamped_witness :
  let SF := B64_Scalar acos_at_the_limits (fun _ _ => S754_nan) in
  let t := Vec3 (b64_of_Z 1) (b64_of_Z 1) (b64_of_Z 1) in
  let p :=
    MkRigid3d (Quat (b64_of_Z 1) (b64_of_Z 0) (b64_of_Z 0) (b64_of_Z 0)) t in
  fisnan (e_angular_error (RelativePoseError p p true)) = true /\
  e_angular_error (RelativePoseError p (scale_translation p (b64_of_Z 3)) true)
  = S754_zero false.
Proof.
  cbv zeta.
  destruct (proj2 (angular_error_not_clamped acos_at_the_limits
                     (fun _ _ => S754_nan) acos_at_the_limits_as_standard)
              true) as (_ & H1 & H2).
  split; [exact H1|exact H2].
Defined.

End AngularErrorWitness.
